(** * psage.modform.maass.inc_gamma: incomplete Gamma and exponential integral

    A shallow embedding of [src/psage/modform/maass/inc_gamma.pyx] and the
    properties of it that the specification states.

    Layout of the development:
    - control flow of the Cython source (loops with and without [break],
      exceptions), C integers and C doubles;
    - the arbitrary-precision arithmetic the module is hosted on (MPFR, an
      external capability) as a type class [Arith], and the [mpfr_*] calls
      over it;
    - the [cdef] routines ([..._c]) as functions on the slots they receive;
    - the Python-visible [cpdef] entry points over a store of [RealNumber]
      objects;
    - two instances of the arithmetic: idealised real arithmetic (no
      rounding) and binary floating point with round-to-nearest-even;
    - the theorems. *)

From Stdlib Require Import ZArith QArith Qround Qabs Qpower Reals Lra Lia List String Bool.
From stdpp Require Import base list.
Import ListNotations.

Local Open Scope Z_scope.

(** ** Control flow *)

(** The integers [lo], [lo+1], ..., [hi] (empty when [hi < lo]). *)
Definition zrange (lo hi : Z) : list Z := seqZ lo (hi - lo + 1).

(** [for j from lo <= j <= hi: body] (the Pyrex loop; none of them has a
    [break] in this module). *)
Definition for_from {S : Type} (lo hi : Z) (body : Z -> S -> S) (s : S) : S :=
  fold_left (fun s j => body j s) (zrange lo hi) s.

(** [for k in range(..): body] where the body may [break]. The loop
    variable keeps the last value it was bound to, as in Python (Cython
    iterates over a temporary and assigns it to [k] at the start of each
    round), so the result carries the final [k] next to the final state.
    [body k s] returns the new state and whether [break] was executed. *)
Fixpoint for_in_break {S : Type} (ks : list Z) (body : Z -> S -> S * bool)
    (k : Z) (s : S) : Z * S :=
  match ks with
  | [] => (k, s)
  | k' :: ks' =>
      let '(s', stop) := body k' s in
      if stop then (k', s') else for_in_break ks' body k' s'
  end.

(** The rounds of such a loop had no [break] been executed: the state
    after each round, with the outcome of the round's [break] test. *)
Fixpoint rounds {S : Type} (ks : list Z) (body : Z -> S -> S * bool) (s : S)
    : list (S * bool) :=
  match ks with
  | [] => []
  | k :: ks' => let r := body k s in r :: rounds ks' body (fst r)
  end.

(** [range(a, b)] *)
Definition py_range (a b : Z) : list Z := zrange a (b - 1).

Arguments zrange : simpl never.
Arguments py_range : simpl never.

(** [cdef int nmax = 10000] *)
Definition nmax : Z := 10000.

Arguments nmax : simpl never.

(** ** C integers *)

(** Two's-complement wrap-around of a [w]-bit signed integer. *)
Definition wrap (w : Z) (z : Z) : Z :=
  (z + 2 ^ (w - 1)) mod 2 ^ w - 2 ^ (w - 1).

(** [int] is 32 bits and [long] 64 bits (LP64, the platforms Sage runs on). *)
Definition c_int (z : Z) : Z := wrap 32 z.
Definition c_long (z : Z) : Z := wrap 64 z.
Definition INT_MAX : Z := 2 ^ 31 - 1.

(** [2**n] for a C [int n]: Cython types the literal as [long] and emits its
    integer power helper, which returns 0 for a negative exponent and
    otherwise multiplies in [long] arithmetic. *)
Definition pow_long (b n : Z) : Z :=
  if n <? 0 then 0 else c_long (b ^ n).

(** ** Binary rationals and C doubles *)

(** [Dy m e] is the number [m * 2^e]. *)
Record dyadic : Type := Dy { dmant : Z; dexp : Z }.

Definition bitlen (m : Z) : Z :=
  if m =? 0 then 0 else Z.log2 (Z.abs m) + 1.

(** Canonical form: odd mantissa, or [0 * 2^0]. *)
Fixpoint pos_strip (m : positive) (e : Z) : positive * Z :=
  match m with
  | xO m' => pos_strip m' (e + 1)
  | _ => (m, e)
  end.

Definition dnorm (m e : Z) : dyadic :=
  match m with
  | Z0 => Dy 0 0
  | Zpos q => let '(q', e') := pos_strip q e in Dy (Zpos q') e'
  | Zneg q => let '(q', e') := pos_strip q e in Dy (Zneg q') e'
  end.

(** Round [m * 2^e] to [p] significant bits, to nearest, ties to even. *)
Definition rne (p m e : Z) : dyadic :=
  let a := Z.abs m in
  let s := bitlen a - p in
  if s <=? 0 then dnorm m e
  else
    let q := Z.shiftr a s in
    let r := Z.land a (Z.ones s) in
    let half := Z.shiftl 1 (s - 1) in
    let q' := if (half <? r) || ((r =? half) && Z.odd q) then q + 1 else q in
    dnorm (Z.sgn m * q') (e + s).

(** Round the quotient [(a / b) * 2^e] ([b <> 0]) to [p] bits: a quotient
    of at least [p + 2] bits is computed and the remainder is kept as a
    sticky bit below it. *)
Definition rne_div (p a b e : Z) : dyadic :=
  let k := Z.max 0 (p + 2 + bitlen b - bitlen a) in
  let n := Z.abs a * 2 ^ k in
  let q := n / Z.abs b in
  let r := n mod Z.abs b in
  let m := 2 * q + (if r =? 0 then 0 else 1) in
  rne p (Z.sgn a * Z.sgn b * m) (e - k - 1).

Definition dval (d : dyadic) : Q :=
  inject_Z (dmant d) * (2 ^ dexp d)%Q.

Definition dy_of_Z (k : Z) : dyadic := dnorm k 0.

Definition dy_mul (a b : dyadic) : dyadic :=
  dnorm (dmant a * dmant b) (dexp a + dexp b).

Definition dy_add (a b : dyadic) : dyadic :=
  let e := Z.min (dexp a) (dexp b) in
  dnorm (dmant a * 2 ^ (dexp a - e) + dmant b * 2 ^ (dexp b - e)) e.

Definition dy_neg (a : dyadic) : dyadic := Dy (- dmant a) (dexp a).

Definition dy_abs (a : dyadic) : dyadic := Dy (Z.abs (dmant a)) (dexp a).

(** Position of the leading bit: [2^(dy_top a - 1) <= |a| < 2^(dy_top a)]
    for [a <> 0]. *)
Definition dy_top (a : dyadic) : Z := bitlen (dmant a) + dexp a.

(** Sign of [a - b]: -1, 0 or 1. Operands of different sign or magnitude
    are told apart without aligning them. *)
Definition dy_cmp (a b : dyadic) : Z :=
  let sa := Z.sgn (dmant a) in
  let sb := Z.sgn (dmant b) in
  if negb (sa =? sb) then Z.sgn (sa - sb)
  else if sa =? 0 then 0
  else if dy_top a <? dy_top b then - sa
  else if dy_top b <? dy_top a then sa
  else Z.sgn (dmant (dy_add a (dy_neg b))).

(** [a + b] rounded to [p] bits. When [b] lies entirely below the last of
    [max (p + 3) (bitlen a + 1)] leading bits of [a], the sum rounds as [a]
    with a sticky bit of the sign of [b] does, and the operands are not
    aligned. *)
Definition dy_far_below (p : Z) (a b : dyadic) : bool :=
  negb (dmant a =? 0) && negb (dmant b =? 0) &&
  (dy_top b <=? dy_top a - Z.max (p + 3) (bitlen (dmant a) + 1)).

Definition dy_add_sticky (p : Z) (a b : dyadic) : dyadic :=
  let l := Z.max (p + 3) (bitlen (dmant a) + 1) in
  let k := l - bitlen (dmant a) in
  rne p (2 * (dmant a * 2 ^ k) + Z.sgn (dmant b)) (dexp a - k - 1).

Definition dy_add_rne (p : Z) (a b : dyadic) : dyadic :=
  if dy_far_below p a b then dy_add_sticky p a b
  else if dy_far_below p b a then dy_add_sticky p b a
  else let c := dy_add a b in rne p (dmant c) (dexp c).

(** Largest integer [<= d], smallest integer [>= d], and the integer part
    (rounding towards zero). *)
Definition dy_floor (d : dyadic) : Z :=
  if 0 <=? dexp d then dmant d * 2 ^ dexp d else Z.shiftr (dmant d) (- dexp d).

Definition dy_ceil (d : dyadic) : Z := - dy_floor (dy_neg d).

Definition dy_trunc (d : dyadic) : Z :=
  if 0 <=? dmant d then dy_floor d else dy_ceil d.

(** Nearest integer, ties to even. *)
Definition dy_rint (d : dyadic) : Z :=
  let f := dy_floor d in
  let c := dy_cmp (dy_add d (dy_neg (dy_of_Z f))) (Dy 1 (-1)) in
  if c <? 0 then f
  else if 0 <? c then f + 1
  else if Z.even f then f else f + 1.

(** A C double is a binary rational of at most 53 significant bits. The
    exponent range is only met by [pow] below; products of a precision with
    a constant stay far inside it. *)
Definition double_round (m e : Z) : dyadic := rne 53 m e.

(** The literal [0.693]: the double nearest to 693/1000. *)
Definition d0693 : dyadic := rne_div 53 693 1000 0.

(** [wp * 0.693] for an [int wp]: the integer converts exactly, the product
    is rounded once. *)
Definition double_mul_int (wp : Z) (d : dyadic) : dyadic :=
  double_round (wp * dmant d) (dexp d).

(** [2.0 ** -n] for [0 <= n]: C [pow] in double precision. Powers of two
    are exact down to the smallest subnormal [2^-1074]; below it the result
    underflows to [0.0] ([2^-1075] is a tie and rounds to the even
    neighbour, zero). *)
Definition pow_2_neg (n : Z) : dyadic :=
  if n <=? 1074 then Dy 1 (- n) else Dy 0 0.

(** [int ceil(double)] as declared in the module's [cdef extern] block. *)
Definition c_ceil (d : dyadic) : Z := dy_ceil d.

(** ** Exceptions *)

Inductive result (E A : Type) : Type :=
  | Ok (a : A)
  | Raise (e : E).
Arguments Ok {E A} a.
Arguments Raise {E A} e.

Definition rbind {E A B : Type} (r : result E A) (f : A -> result E B)
    : result E B :=
  match r with
  | Ok a => f a
  | Raise e => Raise e
  end.

Definition rmap {E A B : Type} (f : A -> B) (r : result E A) : result E B :=
  rbind r (fun a => Ok (f a)).


(** The exceptions the module raises. [ArithmeticError] carries what the
    source formats into its message: the last term and the contents of
    [summa] (overwritten with [x] just before the [raise]).
    [OverflowError] and [ValueError] come from converting a Sage integer to
    a C [int] and from the integer part of a value that is not a number. *)
Inductive exn (V : Type) : Type :=
  | NotImplementedError (msg : string)
  | ArithmeticError (order x : V)
  | OverflowError
  | ValueError.
Arguments NotImplementedError {V} msg.
Arguments ArithmeticError {V} order x.
Arguments OverflowError {V}.
Arguments ValueError {V}.

(** ** The arithmetic the module is hosted on

    MPFR is not part of the repository: the module calls it through
    [sage.libs.mpfr]. Every MPFR function computes the exact result of its
    operation on the values of its operands and rounds it once (the module
    fixes the rounding mode, [rnd_re = GMP_RNDN]) to the precision of the
    destination. The class below is that interface: [num] is the set of
    values a variable can hold, and each operation takes the precision of
    its destination first. Nothing is assumed about the operations, so
    whatever is proved over the class holds for any arithmetic. *)
Class Arith : Type := {
  num : Type;
  (** the value of a freshly initialised variable (MPFR: NaN) *)
  nan : num;
  (** a binary rational as a value, exactly *)
  exact : dyadic -> num;
  (** rounding a value to [p] bits ([mpfr_set]) *)
  fl_set : Z -> num -> num;
  fl_neg : Z -> num -> num;
  fl_abs : Z -> num -> num;
  fl_add : Z -> num -> num -> num;
  fl_sub : Z -> num -> num -> num;
  fl_mul : Z -> num -> num -> num;
  fl_div : Z -> num -> num -> num;
  fl_sqrt : Z -> num -> num;
  fl_exp : Z -> num -> num;
  fl_log : Z -> num -> num;
  fl_erfc : Z -> num -> num;
  fl_pow : Z -> num -> num -> num;
  fl_const_pi : Z -> num;
  fl_const_euler : Z -> num;
  (** sign of [a - b] and of [|a| - |b|] as MPFR's comparisons return it *)
  num_cmp : num -> num -> Z;
  num_cmpabs : num -> num -> Z;
  (** [mpfr_get_ui] in rounding mode [GMP_RNDN] *)
  num_get_ui : num -> Z;
  (** integer part; [None] for a value that is not a real number *)
  num_trunc : num -> option Z
}.

Section Embedding.

Context {A : Arith}.

(** An [mpfr_t]: a precision and a value. A Sage [RealNumber] wraps one;
    its parent [RealField(p)] has the precision of the wrapped variable, and
    Sage admits [2 <= p <= 2^31 - 257], so a precision read into a C [int]
    is read exactly. *)
Record mpfr_t : Type := Mpfr { mpfr_prec : Z; mpfr_val : num }.

Abbreviation error := (exn mpfr_t).

(** Writing a value into the destination [rop] keeps its precision. *)
Definition assign (rop : mpfr_t) (v : num) : mpfr_t :=
  Mpfr (mpfr_prec rop) v.

Definition of_int (k : Z) : num := exact (dy_of_Z k).

Definition mpfr_get_prec (x : mpfr_t) : Z := mpfr_prec x.
Definition mpfr_init2 (p : Z) : mpfr_t := Mpfr p nan.
Definition mpfr_set_prec (rop : mpfr_t) (p : Z) : mpfr_t := Mpfr p nan.

Definition mpfr_set (rop x : mpfr_t) : mpfr_t :=
  assign rop (fl_set (mpfr_prec rop) (mpfr_val x)).
Definition mpfr_set_ui (rop : mpfr_t) (k : Z) : mpfr_t :=
  assign rop (fl_set (mpfr_prec rop) (of_int k)).
Definition mpfr_set_si (rop : mpfr_t) (k : Z) : mpfr_t :=
  assign rop (fl_set (mpfr_prec rop) (of_int k)).
Definition mpfr_set_d (rop : mpfr_t) (d : dyadic) : mpfr_t :=
  assign rop (fl_set (mpfr_prec rop) (exact d)).

Definition mpfr_neg (rop x : mpfr_t) : mpfr_t :=
  assign rop (fl_neg (mpfr_prec rop) (mpfr_val x)).
Definition mpfr_abs (rop x : mpfr_t) : mpfr_t :=
  assign rop (fl_abs (mpfr_prec rop) (mpfr_val x)).
Definition mpfr_add (rop x y : mpfr_t) : mpfr_t :=
  assign rop (fl_add (mpfr_prec rop) (mpfr_val x) (mpfr_val y)).
Definition mpfr_add_ui (rop x : mpfr_t) (k : Z) : mpfr_t :=
  assign rop (fl_add (mpfr_prec rop) (mpfr_val x) (of_int k)).
Definition mpfr_sub_si (rop x : mpfr_t) (k : Z) : mpfr_t :=
  assign rop (fl_sub (mpfr_prec rop) (mpfr_val x) (of_int k)).
Definition mpfr_mul (rop x y : mpfr_t) : mpfr_t :=
  assign rop (fl_mul (mpfr_prec rop) (mpfr_val x) (mpfr_val y)).
Definition mpfr_mul_ui (rop x : mpfr_t) (k : Z) : mpfr_t :=
  assign rop (fl_mul (mpfr_prec rop) (mpfr_val x) (of_int k)).
Definition mpfr_mul_si (rop x : mpfr_t) (k : Z) : mpfr_t :=
  assign rop (fl_mul (mpfr_prec rop) (mpfr_val x) (of_int k)).
Definition mpfr_div (rop x y : mpfr_t) : mpfr_t :=
  assign rop (fl_div (mpfr_prec rop) (mpfr_val x) (mpfr_val y)).
Definition mpfr_div_ui (rop x : mpfr_t) (k : Z) : mpfr_t :=
  assign rop (fl_div (mpfr_prec rop) (mpfr_val x) (of_int k)).
Definition mpfr_div_si (rop x : mpfr_t) (k : Z) : mpfr_t :=
  assign rop (fl_div (mpfr_prec rop) (mpfr_val x) (of_int k)).
Definition mpfr_sqrt (rop x : mpfr_t) : mpfr_t :=
  assign rop (fl_sqrt (mpfr_prec rop) (mpfr_val x)).
Definition mpfr_exp (rop x : mpfr_t) : mpfr_t :=
  assign rop (fl_exp (mpfr_prec rop) (mpfr_val x)).
Definition mpfr_log (rop x : mpfr_t) : mpfr_t :=
  assign rop (fl_log (mpfr_prec rop) (mpfr_val x)).
Definition mpfr_erfc (rop x : mpfr_t) : mpfr_t :=
  assign rop (fl_erfc (mpfr_prec rop) (mpfr_val x)).
Definition mpfr_pow (rop x y : mpfr_t) : mpfr_t :=
  assign rop (fl_pow (mpfr_prec rop) (mpfr_val x) (mpfr_val y)).
Definition mpfr_const_pi (rop : mpfr_t) : mpfr_t :=
  assign rop (fl_const_pi (mpfr_prec rop)).
Definition mpfr_const_euler (rop : mpfr_t) : mpfr_t :=
  assign rop (fl_const_euler (mpfr_prec rop)).

Definition mpfr_cmp_ui (x : mpfr_t) (k : Z) : Z :=
  num_cmp (mpfr_val x) (of_int k).
Definition mpfr_cmpabs (x y : mpfr_t) : Z :=
  num_cmpabs (mpfr_val x) (mpfr_val y).
Definition mpfr_get_ui (x : mpfr_t) : Z := num_get_ui (mpfr_val x).

(** [RealField(p)(v)] for an integer, a double and a [RealNumber]. *)
Definition RF_int (p k : Z) : mpfr_t := mpfr_set_si (mpfr_init2 p) k.
Definition RF_double (p : Z) (d : dyadic) : mpfr_t := mpfr_set_d (mpfr_init2 p) d.
Definition RF_real (p : Z) (x : mpfr_t) : mpfr_t := mpfr_set (mpfr_init2 p) x.

(** [a / b] and [abs(a)] on [RealNumber]s of one parent. *)
Definition RealNumber_div (a b : mpfr_t) : mpfr_t :=
  mpfr_div (mpfr_init2 (mpfr_prec a)) a b.
Definition RealNumber_abs (a : mpfr_t) : mpfr_t :=
  mpfr_abs (mpfr_init2 (mpfr_prec a)) a.

(** ** The [cdef] routines

    A routine receives [mpfr_t] slots by reference. It is embedded as a
    function from the contents of those slots before the call to the
    contents after it, of every slot it writes: the result slot [res], and
    the argument [x] as well where the routine writes to it. Local
    temporaries ([mpfr_init2] ... [mpfr_clear], and local [RealNumber]s) are
    let-bound; a name is rebound where the source overwrites it. At every
    call site in the module [res] and [x] are distinct slots. *)

(** [_mppochammer_mpfr(res, a, k)] *)
Definition mppochammer_step (a : mpfr_t) (j : Z) (st : mpfr_t * mpfr_t)
    : mpfr_t * mpfr_t :=
  let '(res, tmp) := st in
  let tmp := mpfr_add_ui tmp a j in
  let res := mpfr_mul res res tmp in
  (res, tmp).

Definition _mppochammer_mpfr (res a : mpfr_t) (k : Z) : mpfr_t :=
  let prec := mpfr_get_prec a in
  let tmp := mpfr_init2 prec in
  if k =? 0 then mpfr_set_ui res 1
  else
    let res := mpfr_set res a in
    fst (for_from 1 (k - 1) (mppochammer_step a) (res, tmp)).

(** [mpfr_sqpi_erfc_sqx(res, x)] *)
Definition mpfr_sqpi_erfc_sqx (res x : mpfr_t) : mpfr_t :=
  let prec := mpfr_get_prec x in
  let sqpi := mpfr_init2 prec in
  let sqpi := mpfr_const_pi sqpi in
  let sqpi := mpfr_sqrt sqpi sqpi in
  let res := mpfr_sqrt res x in
  let res := mpfr_erfc res res in
  mpfr_mul res res sqpi.

(** [incgamma_pint_c(res, n, x)] *)
Definition incgamma_pint_step (x : mpfr_t) (j : Z)
    (st : mpfr_t * mpfr_t * mpfr_t) : mpfr_t * mpfr_t * mpfr_t :=
  let '(tmp, tmp2, tmp_fak) := st in
  let tmp2 := mpfr_mul tmp2 tmp2 x in
  let tmp2 := mpfr_div_ui tmp2 tmp2 j in
  let tmp := mpfr_add tmp tmp tmp2 in
  let tmp_fak := mpfr_mul_ui tmp_fak tmp_fak j in
  (tmp, tmp2, tmp_fak).

Definition incgamma_pint_c (res : mpfr_t) (n : Z) (x : mpfr_t) : mpfr_t :=
  let prec := mpfr_get_prec x in
  let res := mpfr_neg res x in
  let tmp := mpfr_set_ui (mpfr_init2 prec) 1 in
  let tmp2 := mpfr_set_ui (mpfr_init2 prec) 1 in
  let tmp_fak := mpfr_set_ui (mpfr_init2 prec) 1 in
  let '(tmp, tmp2, tmp_fak) :=
    for_from 1 (n - 1) (incgamma_pint_step x) (tmp, tmp2, tmp_fak) in
  let res := mpfr_exp res res in
  let tmp := mpfr_mul tmp tmp tmp_fak in
  mpfr_mul res res tmp.

(** [ei_asymp_c(res, x)]. The loop is [for k in range(1, nmax)]; the test
    after it is [if k >= nmax]. *)
Definition ei_asymp_step (r eps : mpfr_t) (k : Z) (st : mpfr_t * mpfr_t)
    : mpfr_t * mpfr_t * bool :=
  let '(tmp, summa) := st in
  let tmp := mpfr_mul_ui tmp tmp k in
  let tmp := mpfr_mul tmp tmp r in
  let summa := mpfr_add summa summa tmp in
  ((tmp, summa), mpfr_cmpabs tmp eps <? 0).

(** The locals of [ei_asymp_c] before its loop: [r = 1/x],
    [tmp2 = exp(x)/x] and [eps = abs(eps / tmp2)]. *)
Definition ei_asymp_r (x : mpfr_t) : mpfr_t :=
  let prec := mpfr_get_prec x in
  mpfr_div (RF_int prec 1) (RF_int prec 1) x.

Definition ei_asymp_tmp2 (x : mpfr_t) : mpfr_t :=
  let prec := mpfr_get_prec x in
  let tmp2 := mpfr_exp (RF_int prec 0) x in
  mpfr_mul tmp2 tmp2 (ei_asymp_r x).

Definition ei_asymp_eps (x : mpfr_t) : mpfr_t :=
  let prec := mpfr_get_prec x in
  let eps := RF_double prec (pow_2_neg (prec + 1)) in
  RealNumber_abs (RealNumber_div eps (ei_asymp_tmp2 x)).

Definition ei_asymp_c (res x : mpfr_t) : result error mpfr_t :=
  let prec := mpfr_get_prec x in
  let tmp := RF_int prec 1 in
  let summa := RF_int prec 1 in
  let summa := mpfr_set summa tmp in
  let r := ei_asymp_r x in
  let tmp2 := ei_asymp_tmp2 x in
  let eps := ei_asymp_eps x in
  let '(k, (tmp, summa)) :=
    for_in_break (py_range 1 nmax) (ei_asymp_step r eps) 0 (tmp, summa) in
  if nmax <=? k then
    let summa := mpfr_set summa x in
    Raise (ArithmeticError tmp summa)
  else Ok (mpfr_mul res summa tmp2).

(** The terms [tmp] and the partial sums [summa] of the asymptotic series,
    round by round. *)
Definition ei_asymp_rounds (x : mpfr_t) : list (mpfr_t * mpfr_t * bool) :=
  let prec := mpfr_get_prec x in
  rounds (py_range 1 nmax) (ei_asymp_step (ei_asymp_r x) (ei_asymp_eps x))
    (RF_int prec 1, mpfr_set (RF_int prec 1) (RF_int prec 1)).

Definition ei_asymp_terms (x : mpfr_t) : list mpfr_t :=
  (fun r => fst (fst r)) <$> ei_asymp_rounds x.

Definition ei_asymp_sums (x : mpfr_t) : list mpfr_t :=
  (fun r => snd (fst r)) <$> ei_asymp_rounds x.

(** [Ei_ml_c(res, x)]. The loop is [for k in range(2, nmax+1)]. [k*k] is at
    most [10^8] and stays within [int]. *)
Definition Ei_ml_step (x eps : mpfr_t) (k : Z) (st : mpfr_t * mpfr_t)
    : mpfr_t * mpfr_t * bool :=
  let '(tmp, summa) := st in
  let tmp := mpfr_mul_ui tmp tmp (k - 1) in
  let tmp := mpfr_div_ui tmp tmp (k * k) in
  let tmp := mpfr_mul tmp tmp x in
  let summa := mpfr_add summa summa tmp in
  ((tmp, summa), mpfr_cmpabs tmp eps <? 0).

Definition Ei_ml_eps (x : mpfr_t) : mpfr_t :=
  let prec := mpfr_get_prec x in
  RF_double prec (pow_2_neg (prec + 20)).

Definition Ei_ml_c (res x : mpfr_t) : result error mpfr_t :=
  let prec := mpfr_get_prec x in
  let ec := mpfr_init2 prec in
  let tmp := RF_int prec 1 in
  let summa := RF_int prec 0 in
  let eps := Ei_ml_eps x in
  let tmp := mpfr_set tmp x in
  let summa := mpfr_set summa tmp in
  let '(k, (tmp, summa)) :=
    for_in_break (py_range 2 (nmax + 1)) (Ei_ml_step x eps) 0 (tmp, summa) in
  if nmax <=? k then
    let summa := mpfr_set summa x in
    Raise (ArithmeticError tmp summa)
  else
    let ec := mpfr_const_euler ec in
    let summa := mpfr_add summa summa ec in
    Ok (mpfr_set res summa).

(** The terms and the partial sums of the Taylor series, round by round
    (round [i] is [k = i + 2]). *)
Definition Ei_ml_rounds (x : mpfr_t) : list (mpfr_t * mpfr_t * bool) :=
  let prec := mpfr_get_prec x in
  let tmp := mpfr_set (RF_int prec 1) x in
  rounds (py_range 2 (nmax + 1)) (Ei_ml_step x (Ei_ml_eps x))
    (tmp, mpfr_set (RF_int prec 0) tmp).

Definition Ei_ml_terms (x : mpfr_t) : list mpfr_t :=
  (fun r => fst (fst r)) <$> Ei_ml_rounds x.

Definition Ei_ml_sums (x : mpfr_t) : list mpfr_t :=
  (fun r => snd (fst r)) <$> Ei_ml_rounds x.

(** [ei_taylor_c(res, x)]: returns the contents of [res] and of [x], which
    [mpfr_abs(x, x, rnd_re)] overwrites. *)
Definition ei_taylor_c (res x : mpfr_t) : result error (mpfr_t * mpfr_t) :=
  let prec := mpfr_get_prec x in
  let lnx := mpfr_init2 prec in
  rbind (Ei_ml_c res x) (fun res =>
  let x := mpfr_abs x x in
  let lnx := mpfr_log lnx x in
  let res := mpfr_add res res lnx in
  Ok (res, x)).

(** The locals [wp], [rh] of [incgamma_nint_c] and the precision it reads
    back from [wp_t] in its [else] branch. *)
Definition nint_wp (x : mpfr_t) : Z := mpfr_get_prec x + 20.

Definition nint_rh (x : mpfr_t) : Z :=
  c_ceil (double_mul_int (nint_wp x) d0693) + 10.

Definition nint_xabs_t (x : mpfr_t) : mpfr_t :=
  mpfr_abs (mpfr_init2 (nint_wp x)) x.

Definition nint_taylor_prec (x : mpfr_t) : Z :=
  let wp := nint_wp x in
  let xabs_t := nint_xabs_t x in
  let wp_t := mpfr_set_ui (mpfr_init2 wp) wp in
  let xabs_t := mpfr_mul_ui xabs_t xabs_t 2 in
  let wp_t := mpfr_add wp_t wp_t xabs_t in
  mpfr_get_ui wp_t.

(** [incgamma_nint_c(res, n, x)] *)
Definition incgamma_nint_c (res : mpfr_t) (n : Z) (x : mpfr_t)
    : result error mpfr_t :=
  if negb (n =? 0) then
    Raise (NotImplementedError "Doesn't work right now...")
  else
    let wp := nint_wp x in
    let rh := nint_rh x in
    rbind
      (if 0 <? mpfr_cmp_ui (nint_xabs_t x) rh then
         let xnew := mpfr_init2 wp in
         let xnew := mpfr_neg xnew x in
         ei_asymp_c res xnew
       else
         let xnew := mpfr_init2 (nint_taylor_prec x) in
         let res := mpfr_set_prec res (nint_taylor_prec x) in
         let xnew := mpfr_neg xnew x in
         rmap fst (ei_taylor_c res xnew))
      (fun res => Ok (mpfr_neg res res)).

(** [incgamma_phint_c(res, n, x)]. The routine is [cdef void]: when its
    [assert n>=0] fails the exception cannot propagate, it is reported and
    the routine returns, leaving [res] as it was. [m = 2*j-1] is [int]
    arithmetic and [2**n] is [long] arithmetic. *)
Definition incgamma_phint_step (half_m_n x : mpfr_t) (n j : Z)
    (st : mpfr_t * mpfr_t * mpfr_t) : mpfr_t * mpfr_t * mpfr_t :=
  let '(term, summa, tmp) := st in
  let term := _mppochammer_mpfr term half_m_n (n - j - 1) in
  let term := mpfr_mul term term tmp in
  let summa := mpfr_add summa summa term in
  let tmp := mpfr_mul tmp tmp x in
  let tmp := mpfr_neg tmp tmp in
  (term, summa, tmp).

Definition incgamma_phint_odd_step (j : Z) (tmp : mpfr_t) : mpfr_t :=
  let m := c_int (2 * j - 1) in
  mpfr_mul_si tmp tmp m.

Definition incgamma_phint_c (res : mpfr_t) (n : Z) (x : mpfr_t) : mpfr_t :=
  if n <? 0 then res
  else
    let prec := mpfr_get_prec x in
    let half_m_n := mpfr_init2 prec in
    let tmp := mpfr_init2 prec in
    let sqx := mpfr_init2 prec in
    let tmp2 := mpfr_init2 prec in
    let term := mpfr_init2 prec in
    let summa := mpfr_init2 prec in
    let tmp := mpfr_set_ui tmp 1 in
    let term := mpfr_set_ui term 0 in
    let summa := mpfr_set_ui summa 0 in
    let half_m_n := mpfr_set_d half_m_n (Dy 1 (-1)) in
    let half_m_n := mpfr_sub_si half_m_n half_m_n n in
    let '(term, summa, tmp) :=
      for_from 0 (n - 1) (incgamma_phint_step half_m_n x n) (term, summa, tmp) in
    let tmp := mpfr_set_ui tmp 1 in
    let tmp := for_from 1 n incgamma_phint_odd_step tmp in
    let tmp2 := mpfr_sqpi_erfc_sqx tmp2 x in
    let tmp2 := mpfr_div_si tmp2 tmp2 (pow_long 2 n) in
    let sqx := mpfr_sqrt sqx x in
    let tmp := mpfr_mul tmp tmp tmp2 in
    let tmp2 := mpfr_neg tmp2 x in
    let tmp2 := mpfr_exp tmp2 tmp2 in
    let tmp2 := mpfr_mul tmp2 tmp2 sqx in
    let tmp2 := if n mod 2 =? 0 then mpfr_neg tmp2 tmp2 else tmp2 in
    let tmp2 := mpfr_mul tmp2 tmp2 summa in
    let tmp2 := mpfr_add tmp2 tmp2 tmp in
    mpfr_set res tmp2.

(** [incgamma_nhint_c(res, n, x)], for [Gamma(1/2 - n, x)]; [cdef void]
    with [assert n>=0] as above. *)
Definition incgamma_nhint_step (half_m_n x : mpfr_t) (j : Z)
    (st : mpfr_t * mpfr_t * mpfr_t) : mpfr_t * mpfr_t * mpfr_t :=
  let '(tmp2, summa, tmp) := st in
  let tmp2 := _mppochammer_mpfr tmp2 half_m_n (j + 1) in
  let tmp2 := mpfr_div tmp2 tmp tmp2 in
  let summa := mpfr_add summa summa tmp2 in
  let tmp := mpfr_mul tmp tmp x in
  (tmp2, summa, tmp).

Definition incgamma_nhint_c (res : mpfr_t) (n : Z) (x : mpfr_t) : mpfr_t :=
  if n <? 0 then res
  else
    let prec := mpfr_get_prec x in
    let tmp := mpfr_init2 prec in
    let tmp2 := mpfr_init2 prec in
    let tmp3 := mpfr_init2 prec in
    let half := mpfr_init2 prec in
    let half_m_n := mpfr_init2 prec in
    let summa := mpfr_init2 prec in
    let summa := mpfr_set_si summa 0 in
    let half := mpfr_set_ui half 1 in
    let half := mpfr_div_ui half half 2 in
    let half_m_n := mpfr_sub_si half_m_n half n in
    let tmp := mpfr_pow tmp x half_m_n in
    let '(tmp2, summa, tmp) :=
      for_from 0 (n - 1) (incgamma_nhint_step half_m_n x) (tmp2, summa, tmp) in
    let tmp2 := _mppochammer_mpfr tmp2 half n in
    let tmp3 := mpfr_sqpi_erfc_sqx tmp3 x in
    let tmp2 := mpfr_div tmp2 tmp3 tmp2 in
    let tmp2 := if n mod 2 =? 1 then mpfr_neg tmp2 tmp2 else tmp2 in
    let tmp := mpfr_neg tmp x in
    let tmp3 := mpfr_exp tmp3 tmp in
    let summa := mpfr_neg summa summa in
    let tmp3 := mpfr_mul tmp3 tmp3 summa in
    let tmp2 := mpfr_add tmp2 tmp2 tmp3 in
    mpfr_set res tmp2.

(** [incgamma_hint_c(res, n, x)]; [-n] is [int] arithmetic. *)
Definition incgamma_hint_c (res : mpfr_t) (n : Z) (x : mpfr_t) : mpfr_t :=
  if 0 <? n then incgamma_phint_c res n x
  else if n <? 0 then incgamma_nhint_c res (c_int (- n)) x
  else
    let prec := mpfr_get_prec x in
    let sqpi := mpfr_init2 prec in
    let sqx := mpfr_init2 prec in
    let sqpi := mpfr_const_pi sqpi in
    let sqpi := mpfr_sqrt sqpi sqpi in
    let sqx := mpfr_sqrt sqx x in
    let res := mpfr_erfc res sqx in
    mpfr_mul res res sqpi.

(** ** The Python-visible entry points

    A [RealNumber] is a Python object: callers and callees share it by
    reference, and a [cdef] routine that is handed [x.value] writes into
    the caller's object. The store maps object addresses to the wrapped
    [mpfr_t]; a new object takes the next free address. Text written by
    [print] is appended to [stdout]. An exception leaves the store as it
    is at the [raise]. *)
Definition obj : Type := nat.

Record state : Type := State { heap : list mpfr_t; stdout : list string }.

Definition M (T : Type) : Type := state -> result error T * state.

#[global] Instance M_ret : MRet M := fun T (a : T) s => (Ok a, s).

#[global] Instance M_bind : MBind M := fun T U (f : T -> M U) (m : M T) s =>
  match m s with
  | (Ok a, s') => f a s'
  | (Raise e, s') => (Raise e, s')
  end.

Definition raise {T : Type} (e : error) : M T := fun s => (Raise e, s).

Definition lift {T : Type} (r : result error T) : M T := fun s => (r, s).

(** Allocation of a [RealNumber] wrapping [v]. *)
Definition new_RealNumber (v : mpfr_t) : M obj := fun s =>
  (Ok (length (heap s)), State (heap s ++ [v]) (stdout s)).

(** Reading and overwriting [x.value]. Python has no dangling references:
    every address a function receives is in the store. *)
Definition get_value (x : obj) : M mpfr_t := fun s =>
  (Ok (default (mpfr_init2 2) (heap s !! x)), s).

Definition set_value (x : obj) (v : mpfr_t) : M unit := fun s =>
  (Ok tt, State (<[x := v]> (heap s)) (stdout s)).

Definition print (line : string) : M unit := fun s =>
  (Ok tt, State (heap s) (stdout s ++ [line])).

(** Conversion of a Sage integer to a C [int]. *)
Definition to_c_int (z : Z) : M Z :=
  if (- INT_MAX - 1 <=? z) && (z <=? INT_MAX) then mret z
  else raise OverflowError.

(** [x.integer_part()] *)
Definition integer_part (x : mpfr_t) : M Z :=
  match num_trunc (mpfr_val x) with
  | Some z => mret z
  | None => raise ValueError
  end.

(** The functions below are embedded at [verbose = 0], the default, except
    [ei], whose two [print] statements are the only trace of the regime it
    selects. *)

(** [incgamma_int(n, x)] *)
Definition incgamma_int (n : Z) (x : obj) : M obj :=
  xv ← get_value x;
  res ← new_RealNumber (RF_int (mpfr_prec xv) 0);
  resv ← get_value res;
  if 0 <? n then
    set_value res (incgamma_pint_c resv n xv);; mret res
  else
    r ← lift (incgamma_nint_c resv n xv);
    set_value res r;; mret res.

(** [ei_asymp(x)] *)
Definition ei_asymp (x : obj) : M obj :=
  xv ← get_value x;
  res ← new_RealNumber (RF_int (mpfr_prec xv) 0);
  resv ← get_value res;
  r ← lift (ei_asymp_c resv xv);
  set_value res r;; mret res.

(** [Ei_ml(x)] *)
Definition Ei_ml (x : obj) : M obj :=
  xv ← get_value x;
  res ← new_RealNumber (RF_int (mpfr_prec xv) 0);
  resv ← get_value res;
  r ← lift (Ei_ml_c resv xv);
  set_value res r;; mret res.

(** [ei_taylor(x)]: [ei_taylor_c] is handed [res.value] and [x.value]. *)
Definition ei_taylor (x : obj) : M obj :=
  xv ← get_value x;
  res ← new_RealNumber (RF_int (mpfr_prec xv) 0);
  resv ← get_value res;
  '(r, xv') ← lift (ei_taylor_c resv xv);
  set_value res r;;
  set_value x xv';;
  mret res.

(** The locals [wp], [xabs], [rh] of [ei]. *)
Definition ei_wp (x : mpfr_t) : Z := mpfr_prec x + 20.

Definition ei_xabs (x : mpfr_t) : M Z :=
  ip ← integer_part x; to_c_int (Z.abs ip).

Definition ei_rh (x : mpfr_t) : M Z :=
  ip ← integer_part (RF_double (mpfr_prec x) (double_mul_int (ei_wp x) d0693));
  to_c_int (ip + 10).

(** The two branches of [ei]: [RF_orig(ei_asymp(RF(x), verbose))] with
    [RF = RealField(wp)], and [RF_orig(ei_taylor(RF(x), verbose))] with
    [RF = RealField(wp + 2*xabs)]. [RF(x)] and [RF_orig(..)] convert between
    different fields, so each makes a new object. *)
Definition ei_asymp_branch (xv : mpfr_t) (wp verbose : Z) : M obj :=
  (if 0 <? verbose then print "can use asymptotic" else mret tt);;
  let RF := wp in
  let RF_orig := mpfr_prec xv in
  xc ← new_RealNumber (RF_real RF xv);
  r ← ei_asymp xc;
  rv ← get_value r;
  new_RealNumber (RF_real RF_orig rv).

Definition ei_taylor_branch (xv : mpfr_t) (wp xabs verbose : Z) : M obj :=
  (if 0 <? verbose then print "can NOT use asymptotic" else mret tt);;
  let RF := c_int (wp + 2 * xabs) in
  let RF_orig := mpfr_prec xv in
  xc ← new_RealNumber (RF_real RF xv);
  r ← ei_taylor xc;
  rv ← get_value r;
  new_RealNumber (RF_real RF_orig rv).

(** [ei(x, verbose)] *)
Definition ei (x : obj) (verbose : Z) : M obj :=
  xv ← get_value x;
  let wp := ei_wp xv in
  xabs ← ei_xabs xv;
  rh ← ei_rh xv;
  if rh <? xabs then ei_asymp_branch xv wp verbose
  else ei_taylor_branch xv wp xabs verbose.

(** [incgamma_hint(n, x)] *)
Definition incgamma_hint (n : Z) (x : obj) : M obj :=
  xv ← get_value x;
  res ← new_RealNumber (RF_int (mpfr_prec xv) 0);
  resv ← get_value res;
  set_value res (incgamma_hint_c resv n xv);; mret res.

(** [incgamma_phint(n, x)] *)
Definition incgamma_phint (n : Z) (x : obj) : M obj :=
  xv ← get_value x;
  res ← new_RealNumber (RF_int (mpfr_prec xv) 1);
  resv ← get_value res;
  set_value res (incgamma_phint_c resv n xv);; mret res.

(** [incgamma_nhint(n, x)] *)
Definition incgamma_nhint (n : Z) (x : obj) : M obj :=
  xv ← get_value x;
  res ← new_RealNumber (RF_int (mpfr_prec xv) 1);
  resv ← get_value res;
  set_value res (incgamma_nhint_c resv n xv);; mret res.

(** [pochammer(a, k)] *)
Definition pochammer (a : obj) (k : Z) : M obj :=
  av ← get_value a;
  res ← new_RealNumber (RF_int (mpfr_prec av) 0);
  resv ← get_value res;
  set_value res (_mppochammer_mpfr resv av k);; mret res.

(** A computation that leaves the object [y] as it is, whatever its
    outcome. *)
Definition keeps {T : Type} (y : obj) (m : M T) : Prop :=
  forall s out s' yv,
    heap s !! y = Some yv -> m s = (out, s') -> heap s' !! y = Some yv.

End Embedding.

Arguments mpfr_t : clear implicits.
Arguments state : clear implicits.

(** ** Binary floating point with round-to-nearest-even

    Modelled from the spec: the arithmetic capability of section 6, which
    the repository imports from MPFR. Values are NaN, the two infinities
    and the binary rationals; a result is the exact result rounded to the
    precision of the destination, to nearest, ties to even. Exponents are
    unbounded (Sage widens MPFR's exponent range to about [2^62], which no
    computation here approaches) and zero carries no sign. Sums, products,
    quotients and square roots are rounded exactly. The transcendental
    functions and the two constants are evaluated in fixed point with at
    least 40 guard bits and then rounded; that is the correctly rounded
    value unless the exact value lies within about [2^-36] ulp of a rounding
    boundary. *)
Inductive fnum : Type :=
  | FNaN
  | FInf (negative : bool)
  | FFin (d : dyadic).

Definition f_round (p : Z) (d : dyadic) : fnum := FFin (rne p (dmant d) (dexp d)).

Definition f_is_neg (a : fnum) : bool :=
  match a with
  | FNaN => false
  | FInf s => s
  | FFin d => dmant d <? 0
  end.

Definition f_is_zero (a : fnum) : bool :=
  match a with
  | FFin d => dmant d =? 0
  | _ => false
  end.

Definition f_set (p : Z) (a : fnum) : fnum :=
  match a with
  | FFin d => f_round p d
  | _ => a
  end.

Definition f_neg (p : Z) (a : fnum) : fnum :=
  match a with
  | FNaN => FNaN
  | FInf s => FInf (negb s)
  | FFin d => f_round p (dy_neg d)
  end.

Definition f_abs (p : Z) (a : fnum) : fnum :=
  match a with
  | FNaN => FNaN
  | FInf _ => FInf false
  | FFin d => f_round p (dy_abs d)
  end.

Definition f_add (p : Z) (a b : fnum) : fnum :=
  match a, b with
  | FNaN, _ | _, FNaN => FNaN
  | FInf s, FInf t => if Bool.eqb s t then FInf s else FNaN
  | FInf s, FFin _ | FFin _, FInf s => FInf s
  | FFin x, FFin y => FFin (dy_add_rne p x y)
  end.

Definition f_sub (p : Z) (a b : fnum) : fnum :=
  match b with
  | FNaN => FNaN
  | FInf s => f_add p a (FInf (negb s))
  | FFin y => f_add p a (FFin (dy_neg y))
  end.

Definition f_mul (p : Z) (a b : fnum) : fnum :=
  match a, b with
  | FNaN, _ | _, FNaN => FNaN
  | FFin x, FFin y => f_round p (dy_mul x y)
  | _, _ =>
      if f_is_zero a || f_is_zero b then FNaN
      else FInf (xorb (f_is_neg a) (f_is_neg b))
  end.

Definition f_div (p : Z) (a b : fnum) : fnum :=
  match a, b with
  | FNaN, _ | _, FNaN => FNaN
  | FInf _, FInf _ => FNaN
  | FInf s, FFin _ => FInf (xorb s (f_is_neg b))
  | FFin _, FInf _ => FFin (Dy 0 0)
  | FFin x, FFin y =>
      if dmant y =? 0 then
        if dmant x =? 0 then FNaN else FInf (dmant x <? 0)
      else FFin (rne_div p (dmant x) (dmant y) (dexp x - dexp y))
  end.

(** Square root of [m * 2^e], [0 < m]: the integer square root of the
    mantissa scaled to at least [2p + 4] bits, with a sticky bit. *)
Definition dy_sqrt (p : Z) (d : dyadic) : dyadic :=
  let k0 := Z.max 0 (2 * p + 4 - bitlen (dmant d)) in
  let k := k0 + (dexp d - k0) mod 2 in
  let mm := dmant d * 2 ^ k in
  let s := Z.sqrt mm in
  let m := 2 * s + (if mm - s * s =? 0 then 0 else 1) in
  rne p m ((dexp d - k) / 2 - 1).

Definition f_sqrt (p : Z) (a : fnum) : fnum :=
  match a with
  | FNaN => FNaN
  | FInf s => if s then FNaN else FInf false
  | FFin d =>
      if dmant d <? 0 then FNaN
      else if dmant d =? 0 then FFin (Dy 0 0)
      else FFin (dy_sqrt p d)
  end.

(** *** Fixed point: the integer [a] stands for [a / 2^w]; quotients are
    truncated towards zero. *)
Definition fx_of_dy (w : Z) (d : dyadic) : Z :=
  Z.shiftl (dmant d) (dexp d + w).

Definition fx_mul (w a b : Z) : Z := (a * b) ÷ 2 ^ w.

Definition fx_div (w a b : Z) : Z := (a * 2 ^ w) ÷ b.

(** [sum_{i >= 0} sgn^i / ((2i+1) n^(2i+1))]: [atanh(1/n)] for [sgn = 1]
    and [atan(1/n)] for [sgn = -1]. [t] is [sgn^i / n^(2i+1)]. *)
Fixpoint fx_arc_inv (fuel : nat) (sgn n : Z) (i t acc : Z) : Z :=
  match fuel with
  | O => acc
  | S fuel' =>
      if t =? 0 then acc
      else fx_arc_inv fuel' sgn n (i + 1) ((sgn * t) ÷ (n * n))
             (acc + t ÷ (2 * i + 1))
  end.

Definition fx_ln2 (w : Z) : Z :=
  let w' := w + 16 in
  Z.shiftr (2 * fx_arc_inv (Z.to_nat w') 1 3 0 (2 ^ w' / 3) 0) 16.

(** Machin: [pi = 16 atan(1/5) - 4 atan(1/239)]. *)
Definition fx_pi (w : Z) : Z :=
  let w' := w + 16 in
  Z.shiftr (16 * fx_arc_inv (Z.to_nat w') (-1) 5 0 (2 ^ w' / 5) 0
            - 4 * fx_arc_inv (Z.to_nat w') (-1) 239 0 (2 ^ w' / 239) 0) 16.

(** [sum_{i >= 0} r^i / i!] from term [t = r^i / i!] on. *)
Fixpoint fx_exp_series (fuel : nat) (w r i t acc : Z) : Z :=
  match fuel with
  | O => acc
  | S fuel' =>
      if t =? 0 then acc
      else fx_exp_series fuel' w r (i + 1) (fx_mul w t r ÷ (i + 1)) (acc + t)
  end.

(** [exp(d)]: with [d = k ln 2 + r], [|r| <= (ln 2)/2], it is
    [exp(r) * 2^k]. *)
Definition dy_exp (p : Z) (d : dyadic) : dyadic :=
  let mag := Z.max 0 (bitlen (dmant d) + dexp d) in
  let w := p + 48 + mag in
  let ln2 := fx_ln2 w in
  let x := fx_of_dy w d in
  let k := (2 * x + ln2) / (2 * ln2) in
  let r := x - k * ln2 in
  let s := fx_exp_series (Z.to_nat w) w r 0 (2 ^ w) 0 in
  rne p s (k - w).

Definition f_exp (p : Z) (a : fnum) : fnum :=
  match a with
  | FNaN => FNaN
  | FInf s => if s then FFin (Dy 0 0) else FInf false
  | FFin d => if dmant d =? 0 then f_round p (Dy 1 0) else FFin (dy_exp p d)
  end.

(** [sum_{i >= 0} z^(2i+1) / (2i+1)] from term [t = z^(2i+1)] on. *)
Fixpoint fx_atanh_series (fuel : nat) (w z2 i t acc : Z) : Z :=
  match fuel with
  | O => acc
  | S fuel' =>
      if t =? 0 then acc
      else fx_atanh_series fuel' w z2 (i + 1) (fx_mul w t z2)
             (acc + t ÷ (2 * i + 1))
  end.

(** [log(m * 2^e)], [0 < m], as a fixed-point number with [w] fractional
    bits: with [m * 2^e = y * 2^k], [3/4 <= y < 3/2], it is
    [k ln 2 + 2 atanh((y - 1)/(y + 1))]. *)
Definition fx_log (w : Z) (d : dyadic) : Z :=
  let m := dmant d in
  let s0 := bitlen m - 1 in
  let s := if 3 * 2 ^ s0 <=? 2 * m then s0 + 1 else s0 in
  let k := dexp d + s in
  let z := fx_div w (m - 2 ^ s) (m + 2 ^ s) in
  let z2 := fx_mul w z z in
  k * fx_ln2 w + 2 * fx_atanh_series (Z.to_nat w) w z2 0 z 0.

Definition dy_log (p : Z) (d : dyadic) : dyadic :=
  let m := dmant d in
  let s0 := bitlen m - 1 in
  let s := if 3 * 2 ^ s0 <=? 2 * m then s0 + 1 else s0 in
  let lz := bitlen (m + 2 ^ s) - bitlen (m - 2 ^ s) in
  let w := p + 48 + lz + bitlen (dexp d + s) in
  rne p (fx_log w d) (- w).

Definition f_log (p : Z) (a : fnum) : fnum :=
  match a with
  | FNaN => FNaN
  | FInf s => if s then FNaN else FInf false
  | FFin d =>
      if dmant d <? 0 then FNaN
      else if dmant d =? 0 then FInf true
      else FFin (dy_log p d)
  end.

(** [x^y] for a positive base, the case the module uses:
    [exp(y log x)]. *)
Definition f_pow (p : Z) (a b : fnum) : fnum :=
  match a, b with
  | FFin x, FFin y =>
      if dmant x <=? 0 then FNaN
      else
        let w := p + 48 + Z.max 0 (bitlen (dmant y) + dexp y) in
        let l := dy_mul (dnorm (fx_log (w + 16) x) (- (w + 16))) y in
        f_exp p (FFin (rne w (dmant l) (dexp l)))
  | _, _ => FNaN
  end.

(** [sum_{k >= 0} (-1)^k x^(2k+1) / (k! (2k+1))] from term
    [t = (-1)^k x^(2k+1) / k!] on; [x2] is [x^2]. *)
Fixpoint fx_erf_series (fuel : nat) (w x2 k t acc : Z) : Z :=
  match fuel with
  | O => acc
  | S fuel' =>
      if t =? 0 then acc
      else fx_erf_series fuel' w x2 (k + 1) ((- fx_mul w t x2) ÷ (k + 1))
             (acc + t ÷ (2 * k + 1))
  end.

(** [erfc(x) = 1 - (2 / sqrt(pi)) * series]; the working precision grows
    with [x^2] to absorb the cancellation. *)
Definition dy_erfc (p : Z) (d : dyadic) : dyadic :=
  let x2c := dy_ceil (dy_mul d d) in
  let w := p + 48 + 2 * x2c + bitlen x2c in
  let x := fx_of_dy w d in
  let x2 := fx_mul w x x in
  let s := fx_erf_series (Z.to_nat (2 * w + 8 * x2c + 64)) w x2 0 x 0 in
  let sqpi := Z.sqrt (fx_pi w * 2 ^ w) in
  rne p (2 ^ w - fx_div w (2 * s) sqpi) (- w).

Definition f_erfc (p : Z) (a : fnum) : fnum :=
  match a with
  | FNaN => FNaN
  | FInf s => if s then f_round p (Dy 2 0) else FFin (Dy 0 0)
  | FFin d => if dmant d =? 0 then f_round p (Dy 1 0) else FFin (dy_erfc p d)
  end.

Definition f_const_pi (p : Z) : fnum :=
  let w := p + 48 in FFin (rne p (fx_pi w) (- w)).

(** Brent-McMillan: with [B = sum_k (n^k/k!)^2] and
    [A = sum_k (n^k/k!)^2 H_k], Euler's constant is [A/B - log n] up to
    [pi exp(-4n)]. [t] is [(n^k/k!)^2] and [u] is [t H_k]. *)
Fixpoint fx_euler_sums (fuel : nat) (n k t u a b : Z) : Z * Z :=
  match fuel with
  | O => (a, b)
  | S fuel' =>
      if t =? 0 then (a, b)
      else
        let k' := k + 1 in
        let t' := t * n * n / (k' * k') in
        let u' := (u * n * n / k' + t') / k' in
        fx_euler_sums fuel' n k' t' u' (a + u) (b + t)
  end.

Definition fx_euler (w : Z) : Z :=
  let w' := w + 32 in
  let n := w' / 4 + 2 in
  let '(a, b) := fx_euler_sums (Z.to_nat (8 * n + w')) n 0 (2 ^ w') 0 0 0 in
  Z.shiftr (fx_div w' a b - fx_log w' (dy_of_Z n)) 32.

Definition f_const_euler (p : Z) : fnum :=
  let w := p + 48 in FFin (rne p (fx_euler w) (- w)).

(** Comparisons return 0 when an operand is NaN, as MPFR's do. *)
Definition f_cmp (a b : fnum) : Z :=
  match a, b with
  | FNaN, _ | _, FNaN => 0
  | FInf s, FInf t => if Bool.eqb s t then 0 else if s then -1 else 1
  | FInf s, FFin _ => if s then -1 else 1
  | FFin _, FInf t => if t then 1 else -1
  | FFin x, FFin y => dy_cmp x y
  end.

Definition f_magnitude (a : fnum) : fnum :=
  match a with
  | FNaN => FNaN
  | FInf _ => FInf false
  | FFin d => FFin (dy_abs d)
  end.

Definition f_cmpabs (a b : fnum) : Z := f_cmp (f_magnitude a) (f_magnitude b).

Definition ULONG_MAX : Z := 2 ^ 64 - 1.

Definition f_get_ui (a : fnum) : Z :=
  match a with
  | FNaN => 0
  | FInf s => if s then 0 else ULONG_MAX
  | FFin d => Z.max 0 (Z.min ULONG_MAX (dy_rint d))
  end.

Definition f_trunc (a : fnum) : option Z :=
  match a with
  | FFin d => Some (dy_trunc d)
  | _ => None
  end.

#[local] Instance FloatArith : Arith := {|
  num := fnum;
  nan := FNaN;
  exact := FFin;
  fl_set := f_set;
  fl_neg := f_neg;
  fl_abs := f_abs;
  fl_add := f_add;
  fl_sub := f_sub;
  fl_mul := f_mul;
  fl_div := f_div;
  fl_sqrt := f_sqrt;
  fl_exp := f_exp;
  fl_log := f_log;
  fl_erfc := f_erfc;
  fl_pow := f_pow;
  fl_const_pi := f_const_pi;
  fl_const_euler := f_const_euler;
  num_cmp := f_cmp;
  num_cmpabs := f_cmpabs;
  num_get_ui := f_get_ui;
  num_trunc := f_trunc
|}.

(** A [RealNumber] of precision [p] holding [m * 2^e], and the store with
    nothing in it. *)
Definition RealNumber_of (p m e : Z) : mpfr_t FloatArith :=
  Mpfr p (FFin (rne p m e)).

Definition empty_state : state FloatArith := State [] [].

(** The rational value of a finite floating-point variable. *)
Definition Q_of (x : mpfr_t FloatArith) : option Q :=
  match mpfr_val x with
  | FFin d => Some (dval d)
  | _ => None
  end.

(** ** Real arithmetic without rounding

    The idealised arithmetic in which "up to rounding" is read: every
    operation returns its exact real result whatever the precision of the
    destination. The standard library has neither the complementary error
    function nor Euler's constant; they are taken as given. *)
Definition R_of_dyadic (d : dyadic) : R :=
  (IZR (dmant d) * powerRZ 2 (dexp d))%R.

Definition R_cmp (a b : R) : Z :=
  if Rlt_dec a b then -1 else if Rlt_dec b a then 1 else 0.

Definition R_floor (a : R) : Z := (up a - 1)%Z.

Definition R_trunc (a : R) : Z :=
  if Rle_dec 0 a then R_floor a else - R_floor (- a).

Definition RealArith (erfc : R -> R) (euler : R) : Arith := {|
  num := R;
  nan := 0%R;
  exact := R_of_dyadic;
  fl_set := fun _ a => a;
  fl_neg := fun _ a => (- a)%R;
  fl_abs := fun _ a => Rabs a;
  fl_add := fun _ a b => (a + b)%R;
  fl_sub := fun _ a b => (a - b)%R;
  fl_mul := fun _ a b => (a * b)%R;
  fl_div := fun _ a b => (a / b)%R;
  fl_sqrt := fun _ a => sqrt a;
  fl_exp := fun _ a => exp a;
  fl_log := fun _ a => ln a;
  fl_erfc := fun _ a => erfc a;
  fl_pow := fun _ a b => Rpower a b;
  fl_const_pi := fun _ => PI;
  fl_const_euler := fun _ => euler;
  num_cmp := R_cmp;
  num_cmpabs := fun a b => R_cmp (Rabs a) (Rabs b);
  num_get_ui := fun a => Z.max 0 (R_floor (a + / 2));
  num_trunc := fun a => Some (R_trunc a)
|}.

(** [sum_{j in js} f j] and [prod_{j in js} f j] over the reals. *)
Definition Rsum (js : list Z) (f : Z -> R) : R :=
  fold_right (fun j acc => (f j + acc)%R) 0%R js.

Definition Rprod (js : list Z) (f : Z -> R) : R :=
  fold_right (fun j acc => (f j * acc)%R) 1%R js.

(** The rising factorial [a (a+1) ... (a+k-1)], 1 for [k <= 0]. *)
Definition Rpochhammer (a : R) (k : Z) : R :=
  Rprod (zrange 0 (k - 1)) (fun i => (a + IZR i)%R).

(** [n!] and [x^j] for integers in [Z]. *)
Definition Zfact (n : Z) : R := INR (fact (Z.to_nat n)).

Definition Rpowz (x : R) (j : Z) : R := (x ^ Z.to_nat j)%R.

(** ** The rules as the specification words them *)

(** Section 4.3: [rh = ceil(0.693 * wp) + 10], and the asymptotic expansion
    is used when [|x| > rh]. *)
Definition spec_rh (wp : Z) : Z := Qceiling ((693 # 1000) * inject_Z wp) + 10.

Definition spec_use_asymp (p : Z) (x : Q) : bool :=
  negb (Qle_bool (Qabs x) (inject_Z (spec_rh (p + 20)))).

(** [floor(0.693 * wp) + 10] *)
Definition floor_rh (wp : Z) : Z := Qfloor ((693 # 1000) * inject_Z wp) + 10.

(** * Properties *)

(** ** Loops *)

Lemma elem_of_zrange (lo hi k : Z) : k ∈ zrange lo hi <-> lo <= k <= hi.
Proof. unfold zrange. rewrite elem_of_seqZ. lia. Qed.

Lemma zrange_empty (lo hi : Z) : hi < lo -> zrange lo hi = [].
Proof.
  intros H. unfold zrange. apply seqZ_nil. lia.
Qed.

Lemma zrange_snoc (lo hi : Z) :
  lo <= hi -> zrange lo hi = zrange lo (hi - 1) ++ [hi].
Proof.
  intros H. unfold zrange.
  replace (hi - lo + 1) with ((hi - 1 - lo + 1) + 1) at 1 by lia.
  rewrite seqZ_app by lia.
  rewrite (seqZ_cons _ 1), (seqZ_nil _ (Z.pred 1)) by lia. do 2 f_equal. lia.
Qed.

Lemma zrange_single (lo : Z) : zrange lo lo = [lo].
Proof. rewrite zrange_snoc, zrange_empty by lia. reflexivity. Qed.

Lemma zrange_length (lo hi : Z) : length (zrange lo hi) = Z.to_nat (hi - lo + 1).
Proof. unfold zrange. apply length_seqZ. Qed.

Lemma for_from_empty {S : Type} (lo hi : Z) (body : Z -> S -> S) (s : S) :
  hi < lo -> for_from lo hi body s = s.
Proof. intros H. unfold for_from. now rewrite zrange_empty. Qed.

Lemma for_from_snoc {S : Type} (lo hi : Z) (body : Z -> S -> S) (s : S) :
  lo <= hi -> for_from lo hi body s = body hi (for_from lo (hi - 1) body s).
Proof.
  intros H. unfold for_from. rewrite (zrange_snoc lo hi H), fold_left_app.
  reflexivity.
Qed.

(** The loop variable ends on an element of the range (or untouched). *)
Lemma for_in_break_var {S : Type} (ks : list Z) (body : Z -> S -> S * bool)
    (k : Z) (s : S) :
  fst (for_in_break ks body k s) = k \/ fst (for_in_break ks body k s) ∈ ks.
Proof.
  revert k s. induction ks as [|k' ks IH]; intros k s; simpl.
  - now left.
  - right. destruct (body k' s) as [s' [|]]; simpl.
    + apply list_elem_of_here.
    + destruct (IH k' s') as [->|H].
      * apply list_elem_of_here.
      * now apply list_elem_of_further.
Qed.

(** A loop none of whose rounds breaks runs through its range. *)
Lemma for_in_break_exhausted {S : Type} (ks : list Z)
    (body : Z -> S -> S * bool) (k : Z) (s : S) :
  Forall (fun r => snd r = false) (rounds ks body s) ->
  for_in_break ks body k s
  = (default k (last ks), default s (fst <$> last (rounds ks body s))).
Proof.
  revert k s. induction ks as [|k' ks IH]; intros k s HF; simpl in *.
  - reflexivity.
  - inversion HF as [|r rs Hr Hrs]; subst. clear HF.
    destruct (body k' s) as [s' b] eqn:E. simpl in *. subst b.
    rewrite (IH k' s' Hrs), !last_cons.
    destruct (last ks), (last (rounds ks body s')); reflexivity.
Qed.

(** A loop whose first breaking round is round [i] stops there. *)
Lemma for_in_break_stops {S : Type} (ks : list Z) (body : Z -> S -> S * bool)
    (k : Z) (s : S) (i : nat) (ki : Z) (si : S) :
  ks !! i = Some ki ->
  rounds ks body s !! i = Some (si, true) ->
  Forall (fun r => snd r = false) (take i (rounds ks body s)) ->
  for_in_break ks body k s = (ki, si).
Proof.
  revert k s i. induction ks as [|k' ks IH]; intros k s i Hk Hr HF.
  - discriminate.
  - simpl in *. destruct (body k' s) as [s' b] eqn:E. destruct i as [|i].
    + simpl in *. now simplify_eq.
    + simpl in *. inversion HF as [|r rs Hb Hrs]; subst. simpl in Hb. subst b.
      eapply IH; eauto.
Qed.

(** A round depends on the rounds before it only. *)
Lemma rounds_lookup_prefix {S : Type} (ks : list Z) (body : Z -> S -> S * bool)
    (s : S) (i : nat) :
  rounds ks body s !! i = rounds (take (Datatypes.S i) ks) body s !! i.
Proof.
  revert s i. induction ks as [|k ks IH]; intros s i; [reflexivity|].
  destruct i as [|i]; [reflexivity|]. simpl. apply IH.
Qed.

Lemma rounds_length {S : Type} (ks : list Z) (body : Z -> S -> S * bool) (s : S) :
  length (rounds ks body s) = length ks.
Proof.
  revert s. induction ks as [|k ks IH]; intros s; simpl; [reflexivity|].
  now rewrite IH.
Qed.

(** An invariant of the state, indexed by the loop variable, holds after
    every round. *)
Lemma rounds_invariant {St : Type} (Q : Z -> St -> Prop)
    (body : Z -> St -> St * bool) (m : nat) :
  forall (lo : Z) (s : St),
    Q (lo - 1) s ->
    (forall k st, lo <= k -> Q (k - 1) st -> Q k (fst (body k st))) ->
    forall (i : nat) r,
      rounds (seqZ lo (Z.of_nat m)) body s !! i = Some r ->
      Q (lo + Z.of_nat i) (fst r).
Proof.
  induction m as [|m IH]; intros lo s Hs Hstep i r Hi.
  - rewrite seqZ_nil in Hi by lia. discriminate.
  - rewrite seqZ_cons in Hi by lia. simpl in Hi.
    assert (Q lo (fst (body lo s))) as Hlo.
    { apply Hstep; [lia|exact Hs]. }
    destruct i as [|i].
    + simpl in Hi. injection Hi as <-. now rewrite Z.add_0_r.
    + simpl in Hi. replace (Z.pred (Z.of_nat (S m))) with (Z.of_nat m) in Hi by lia.
      replace (lo + Z.of_nat (S i)) with (Z.succ lo + Z.of_nat i) by lia.
      eapply IH; [| |exact Hi].
      * now replace (Z.succ lo - 1) with lo by lia.
      * intros k st Hk. apply Hstep. lia.
Qed.

(** ** Properties that hold in every arithmetic *)

(** One step of symbolic execution of a computation on the store. *)
Ltac run_M :=
  unfold mbind, M_bind, mret, M_ret, lift, raise, set_value, new_RealNumber;
  cbn [heap stdout fst snd].

Section Generic.

Context {FA : Arith}.

Implicit Types res x : mpfr_t FA.

Lemma ei_asymp_step_stop r eps k st :
  snd (ei_asymp_step r eps k st)
  = (mpfr_cmpabs (fst (fst (ei_asymp_step r eps k st))) eps <? 0).
Proof. destruct st as [tmp summa]. reflexivity. Qed.

Lemma rounds_stop_flags {S : Type} (ks : list Z) (body : Z -> S -> S * bool)
    (s : S) (P : S -> bool) :
  (forall k st, snd (body k st) = P (fst (body k st))) ->
  Forall (fun r => P (fst r) = false) (rounds ks body s) ->
  Forall (fun r => snd r = false) (rounds ks body s).
Proof.
  intros HP. revert s. induction ks as [|k ks IH]; intros s HF; simpl in *.
  - constructor.
  - inversion HF; subst. constructor; [now rewrite HP|auto].
Qed.

(** The loop of [ei_asymp_c] leaves [k] below [nmax], whatever happens in
    it: the test [k >= nmax] after the loop never succeeds. *)
Lemma ei_asymp_c_never_raises res x : exists v, ei_asymp_c res x = Ok v.
Proof.
  unfold ei_asymp_c.
  match goal with
  | |- context [for_in_break ?ks ?body ?k0 ?s0] =>
      pose proof (for_in_break_var ks body k0 s0) as Hk;
      destruct (for_in_break ks body k0 s0) as [k [tmp summa]]
  end.
  simpl in Hk.
  assert (k < nmax) as Hlt.
  { destruct Hk as [->|Hk]; [reflexivity|].
    apply elem_of_zrange in Hk. lia. }
  apply Z.leb_gt in Hlt. rewrite Hlt. eauto.
Qed.

(** C1 (the code departs from the claim). When no term of the asymptotic
    series is smaller in magnitude than [eps] in any of the rounds
    [k = 1, ..., nmax - 1], [ei_asymp_c] does not raise [ArithmeticError]:
    it returns the truncated partial sum of the last round multiplied by
    [exp(x)/x]. *)
Theorem ei_asymp_c_returns_truncated_sum res x :
  Forall (fun t => 0 <= mpfr_cmpabs t (ei_asymp_eps x)) (ei_asymp_terms x) ->
  exists summa,
    last (ei_asymp_sums x) = Some summa /\
    ei_asymp_c res x = Ok (mpfr_mul res summa (ei_asymp_tmp2 x)).
Proof.
  intros Hterms.
  assert (Forall (fun r => snd r = false) (ei_asymp_rounds x)) as Hno.
  { unfold ei_asymp_rounds.
    apply rounds_stop_flags
      with (P := fun st => mpfr_cmpabs (fst st) (ei_asymp_eps x) <? 0).
    - intros k st. apply ei_asymp_step_stop.
    - unfold ei_asymp_terms, ei_asymp_rounds in Hterms.
      rewrite Forall_fmap in Hterms.
      eapply Forall_impl; [exact Hterms|]. intros r Hr.
      apply Z.ltb_ge. exact Hr. }
  destruct (last (ei_asymp_rounds x)) as [[[tmp summa] b]|] eqn:Elast.
  2:{ apply last_None in Elast. apply (f_equal length) in Elast.
      unfold ei_asymp_rounds in Elast.
      rewrite rounds_length in Elast. unfold py_range in Elast.
      rewrite zrange_length in Elast. vm_compute in Elast. discriminate. }
  exists summa. split.
  - unfold ei_asymp_sums. rewrite fmap_last. now rewrite Elast.
  - unfold ei_asymp_c. unfold ei_asymp_rounds in Hno, Elast.
    rewrite (for_in_break_exhausted _ _ _ _ Hno), Elast.
    replace (default 0 (last (py_range 1 nmax))) with 9999 by (vm_compute; reflexivity).
    reflexivity.
Qed.

(** *** The store *)

Lemma heap_new_lookup (h : list (mpfr_t FA)) v : (h ++ [v]) !! length h = Some v.
Proof. now apply list_lookup_middle. Qed.

Lemma heap_new_overwrite (h : list (mpfr_t FA)) v v' :
  <[length h := v']> (h ++ [v]) = h ++ [v'].
Proof.
  rewrite insert_app_r_alt by lia. now rewrite Nat.sub_diag.
Qed.

Lemma heap_old_lookup (h : list (mpfr_t FA)) v (x : obj) xv :
  h !! x = Some xv -> (h ++ [v]) !! x = Some xv.
Proof. apply lookup_app_l_Some. Qed.

Lemma get_value_in s (x : obj) xv :
  heap s !! x = Some xv -> get_value x s = (Ok xv, s).
Proof. unfold get_value. now intros ->. Qed.

(** C7. [incgamma_hint(0, x)] allocates the result at the precision [p] of
    [x] and stores in it what the shared helper [mpfr_sqpi_erfc_sqx]
    computes into a slot of precision [p], which is
    [sqrt(pi) * erfc(sqrt(x))] with every operation rounded to [p] bits.
    At the [cdef] level the [n = 0] branch of [incgamma_hint_c] and the
    helper agree on every pair of slots of the precision of [x]. *)
Theorem incgamma_hint_0_is_sqpi_erfc_sqx (x : obj) s xv :
  heap s !! x = Some xv ->
  let p := mpfr_prec xv in
  let v := Mpfr p (fl_mul p (fl_erfc p (fl_sqrt p (mpfr_val xv)))
                            (fl_sqrt p (fl_const_pi p))) in
  (exists r s', incgamma_hint 0 x s = (Ok r, s') /\ heap s' !! r = Some v) /\
  (forall res res', mpfr_prec res = p -> mpfr_prec res' = p ->
     incgamma_hint_c res 0 xv = v /\ mpfr_sqpi_erfc_sqx res' xv = v).
Proof.
  intros Hx p v. split.
  - exists (length (heap s)), (State (heap s ++ [v]) (stdout s)). split.
    + unfold incgamma_hint. run_M. rewrite (get_value_in _ _ _ Hx). run_M.
      erewrite get_value_in by apply heap_new_lookup. run_M.
      rewrite heap_new_overwrite. reflexivity.
    + apply heap_new_lookup.
  - intros res res' Hres Hres'. split.
    + destruct res as [pr vr]. cbn in Hres. subst pr. reflexivity.
    + destruct res' as [pr vr]. cbn in Hres'. subst pr. reflexivity.
Qed.


(** C5. For [n < 0], [incgamma_int(n, x)] raises [NotImplementedError]
    before anything is computed. For [n = 0] it runs the regime-selecting
    engine on [-x] (the asymptotic routine when [|x| > rh], the Taylor
    routine otherwise) and returns the negated result, [-Ei(-x)]; an error
    of the engine is passed on. *)
Theorem incgamma_int_nonpositive_parameter (n : Z) (x : obj) s xv :
  heap s !! x = Some xv ->
  n <= 0 ->
  let res := RF_int (mpfr_prec xv) 0 in
  let tp := nint_taylor_prec xv in
  let engine :=
    if 0 <? mpfr_cmp_ui (nint_xabs_t xv) (nint_rh xv)
    then ei_asymp_c res (mpfr_neg (mpfr_init2 (nint_wp xv)) xv)
    else rmap fst (ei_taylor_c (mpfr_set_prec res tp)
                               (mpfr_neg (mpfr_init2 tp) xv)) in
  (n < 0 ->
     exists s', incgamma_int n x s
                = (Raise (NotImplementedError "Doesn't work right now..."), s')) /\
  (n = 0 ->
     match engine with
     | Ok v => exists r s', incgamma_int n x s = (Ok r, s') /\
                            heap s' !! r = Some (mpfr_neg v v)
     | Raise e => exists s', incgamma_int n x s = (Raise e, s')
     end).
Proof.
  intros Hx Hn res tp engine.
  assert (incgamma_int n x s
          = match incgamma_nint_c res n xv with
            | Ok r => (Ok (length (heap s)), State (heap s ++ [r]) (stdout s))
            | Raise e => (Raise e, State (heap s ++ [res]) (stdout s))
            end) as Hrun.
  { unfold incgamma_int. run_M. rewrite (get_value_in _ _ _ Hx). run_M.
    erewrite get_value_in by apply heap_new_lookup.
    replace (0 <? n) with false by (symmetry; apply Z.ltb_ge; lia).
    run_M. fold res. destruct (incgamma_nint_c res n xv); [|reflexivity].
    now rewrite heap_new_overwrite. }
  split.
  - intros Hneg. rewrite Hrun. unfold incgamma_nint_c.
    replace (n =? 0) with false by (symmetry; apply Z.eqb_neq; lia).
    cbn [negb]. eauto.
  - intros ->. rewrite Hrun. unfold incgamma_nint_c. cbn [Z.eqb negb].
    fold tp. fold engine. destruct engine as [v|e]; cbn [rbind].
    + do 2 eexists. split; [reflexivity|]. apply heap_new_lookup.
    + eauto.
Qed.

(** *** Precision of the result slot *)

Lemma for_from_invariant {S : Type} (P : S -> Prop) (lo hi : Z)
    (body : Z -> S -> S) (s : S) :
  P s -> (forall j st, lo <= j <= hi -> P st -> P (body j st)) ->
  P (for_from lo hi body s).
Proof.
  intros Hs Hstep. unfold for_from.
  assert (Forall (fun j => lo <= j <= hi) (zrange lo hi)) as HF.
  { apply Forall_forall. intros j Hj. now apply elem_of_zrange in Hj. }
  revert s Hs. induction HF as [|j js Hj _ IH]; intros s Hs; simpl; auto.
Qed.

Lemma mppochammer_prec res a k :
  mpfr_prec (_mppochammer_mpfr res a k) = mpfr_prec res.
Proof.
  unfold _mppochammer_mpfr. destruct (k =? 0); [reflexivity|].
  apply (for_from_invariant (fun st => mpfr_prec (fst st) = mpfr_prec res)).
  - reflexivity.
  - intros j [r t] _ H. exact H.
Qed.

Lemma incgamma_pint_c_prec res n x :
  mpfr_prec (incgamma_pint_c res n x) = mpfr_prec res.
Proof.
  unfold incgamma_pint_c.
  destruct (for_from _ _ _ _) as [[tmp tmp2] tmp_fak]. reflexivity.
Qed.

Lemma incgamma_phint_c_prec res n x :
  mpfr_prec (incgamma_phint_c res n x) = mpfr_prec res.
Proof.
  unfold incgamma_phint_c. destruct (n <? 0); [reflexivity|].
  destruct (for_from _ _ _ _) as [[term summa] tmp]. reflexivity.
Qed.

Lemma incgamma_nhint_c_prec res n x :
  mpfr_prec (incgamma_nhint_c res n x) = mpfr_prec res.
Proof.
  unfold incgamma_nhint_c. destruct (n <? 0); [reflexivity|].
  destruct (for_from _ _ _ _) as [[tmp2 summa] tmp]. reflexivity.
Qed.

Lemma incgamma_hint_c_prec res n x :
  mpfr_prec (incgamma_hint_c res n x) = mpfr_prec res.
Proof.
  unfold incgamma_hint_c. destruct (0 <? n); [apply incgamma_phint_c_prec|].
  destruct (n <? 0); [apply incgamma_nhint_c_prec|reflexivity].
Qed.

Lemma ei_asymp_c_prec res x v :
  ei_asymp_c res x = Ok v -> mpfr_prec v = mpfr_prec res.
Proof.
  unfold ei_asymp_c. destruct (for_in_break _ _ _ _) as [k [tmp summa]].
  destruct (nmax <=? k); [discriminate|]. now intros [= <-].
Qed.





(** *** Who writes to the caller's [x] *)

Lemma keeps_ret {T : Type} (y : obj) (a : T) : keeps y (mret a).
Proof. intros s out s' yv Hy [= <- <-]. exact Hy. Qed.

Lemma keeps_raise {T : Type} (y : obj) e : keeps y (raise (T := T) e).
Proof. intros s out s' yv Hy [= <- <-]. exact Hy. Qed.

Lemma keeps_lift {T : Type} (y : obj) (r : result (exn (mpfr_t FA)) T) :
  keeps y (lift r).
Proof. intros s out s' yv Hy [= <- <-]. exact Hy. Qed.

Lemma keeps_print (y : obj) line : keeps y (print line).
Proof. intros s out s' yv Hy [= <- <-]. exact Hy. Qed.

Lemma keeps_get_value (y x : obj) : keeps y (get_value x).
Proof. intros s out s' yv Hy [= <- <-]. exact Hy. Qed.

Lemma keeps_set_value (y x : obj) v : x <> y -> keeps y (set_value x v).
Proof.
  intros Hne s out s' yv Hy [= <- <-]. cbn.
  now rewrite list_lookup_insert_ne.
Qed.

Lemma keeps_bind {T U : Type} (y : obj) (m : M T) (f : T -> M U) :
  keeps y m -> (forall a, keeps y (f a)) -> keeps y (m ≫= f).
Proof.
  intros Hm Hf s out s' yv Hy. unfold mbind, M_bind.
  destruct (m s) as [[a|e] s1] eqn:E.
  - apply (Hf a). eapply Hm; eauto.
  - intros [= <- <-]. eapply Hm; eauto.
Qed.

(** A new object is not [y]. *)
Lemma keeps_new_bind {U : Type} (y : obj) v (f : obj -> M U) :
  (forall a, a <> y -> keeps y (f a)) -> keeps y (new_RealNumber v ≫= f).
Proof.
  intros Hf s out s' yv Hy. unfold mbind, M_bind, new_RealNumber.
  pose proof (lookup_lt_Some _ _ _ Hy) as Hlt.
  apply Hf; [lia|]. cbn. now apply heap_old_lookup.
Qed.

Lemma keeps_new (y : obj) v : keeps y (new_RealNumber v).
Proof.
  intros s out s' yv Hy [= <- <-]. cbn. now apply heap_old_lookup.
Qed.

Ltac keeps_step :=
  first
    [ apply keeps_new_bind; intros ? ?
    | apply keeps_bind; [|intros ?]
    | apply keeps_ret | apply keeps_raise | apply keeps_lift
    | apply keeps_print | apply keeps_get_value | apply keeps_new
    | apply keeps_set_value; congruence ].

(** [ei_asymp] writes to its own result object only. *)
Lemma ei_asymp_keeps (x y : obj) : keeps y (ei_asymp x).
Proof. unfold ei_asymp. repeat keeps_step. Qed.

(** [ei_taylor] writes to its result object and to [x]. *)
Lemma ei_taylor_keeps (x y : obj) : x <> y -> keeps y (ei_taylor x).
Proof.
  intros Hne. unfold ei_taylor.
  apply keeps_bind; [apply keeps_get_value|intros xv].
  apply keeps_new_bind; intros res Hres.
  apply keeps_bind; [apply keeps_get_value|intros resv].
  apply keeps_bind; [apply keeps_lift|intros [r xv']].
  repeat keeps_step.
Qed.

Lemma ei_keeps (x : obj) verbose : keeps x (ei x verbose).
Proof.
  unfold ei, ei_xabs, ei_rh, integer_part, to_c_int.
  keeps_step; [keeps_step|].
  keeps_step.
  { keeps_step; [destruct (num_trunc _); keeps_step|].
    destruct (_ && _); keeps_step. }
  keeps_step.
  { keeps_step; [destruct (num_trunc _); keeps_step|].
    destruct (_ && _); keeps_step. }
  destruct (_ <? _).
  - unfold ei_asymp_branch. keeps_step; [destruct (0 <? verbose); keeps_step|].
    keeps_step. keeps_step; [apply ei_asymp_keeps|]. repeat keeps_step.
  - unfold ei_taylor_branch. keeps_step; [destruct (0 <? verbose); keeps_step|].
    keeps_step. keeps_step; [now apply ei_taylor_keeps|]. repeat keeps_step.
Qed.

(** C10. [ei_taylor(x)] overwrites the caller's [x]: when the call returns,
    the object [x] holds [|x|] (a negative argument has lost its sign) and
    the result is [Ei_ml_c]'s value plus [log |x|]; the call returns exactly
    when [Ei_ml_c] does, and when that raises, [x] is as it was. [ei(x)]
    hands copies of [x] to the routines it calls and leaves [x] as it was,
    whatever the outcome. *)
Theorem ei_taylor_overwrites_its_argument (x : obj) s xv :
  heap s !! x = Some xv ->
  let p := mpfr_prec xv in
  match Ei_ml_c (RF_int p 0) xv with
  | Ok v =>
      exists r s', ei_taylor x s = (Ok r, s') /\
        heap s' !! x = Some (mpfr_abs xv xv) /\
        heap s' !! r = Some (mpfr_add v v (mpfr_log (mpfr_init2 p) (mpfr_abs xv xv)))
  | Raise e =>
      exists s', ei_taylor x s = (Raise e, s') /\ heap s' !! x = Some xv
  end /\
  forall verbose, heap (snd (ei x verbose s)) !! x = Some xv.
Proof.
  intros Hx p. pose proof (lookup_lt_Some _ _ _ Hx) as Hlt. split.
  - unfold ei_taylor. run_M. rewrite (get_value_in _ _ _ Hx). run_M.
    erewrite get_value_in by apply heap_new_lookup.
    unfold ei_taylor_c. fold p.
    destruct (Ei_ml_c (RF_int p 0) xv) as [v|e]; cbn [rbind]; run_M.
    + do 2 eexists. split; [reflexivity|]. cbn [heap]. split.
      * apply list_lookup_insert_eq.
        rewrite length_insert, length_app. cbn [length]. lia.
      * rewrite list_lookup_insert_ne by lia. rewrite heap_new_overwrite.
        apply heap_new_lookup.
    + eexists. split; [reflexivity|]. cbn [heap]. now apply heap_old_lookup.
  - intros verbose. eapply (ei_keeps x verbose); [exact Hx|].
    apply surjective_pairing.
Qed.

(** *** The Taylor loop *)

Lemma Ei_ml_step_stop x eps k st :
  snd (Ei_ml_step x eps k st)
  = (mpfr_cmpabs (fst (fst (Ei_ml_step x eps k st))) eps <? 0).
Proof. destruct st as [tmp summa]. reflexivity. Qed.

Lemma py_range_2_nmax_last : default 0 (last (py_range 2 (nmax + 1))) = nmax.
Proof. vm_compute. reflexivity. Qed.

Lemma Ei_ml_rounds_length x : length (Ei_ml_rounds x) = Z.to_nat (nmax - 1).
Proof.
  unfold Ei_ml_rounds. rewrite rounds_length. unfold py_range.
  rewrite zrange_length. reflexivity.
Qed.

(** When no round of the Taylor loop meets the bound, [k] ends on [nmax]
    and [Ei_ml_c] raises. *)
Lemma Ei_ml_c_raises_when_exhausted res x :
  Forall (fun t => 0 <= mpfr_cmpabs t (Ei_ml_eps x)) (Ei_ml_terms x) ->
  exists tmp summa, Ei_ml_c res x = Raise (ArithmeticError tmp summa).
Proof.
  intros Hterms.
  assert (Forall (fun r => snd r = false) (Ei_ml_rounds x)) as Hno.
  { unfold Ei_ml_rounds.
    apply rounds_stop_flags
      with (P := fun st => mpfr_cmpabs (fst st) (Ei_ml_eps x) <? 0).
    - intros k st. apply Ei_ml_step_stop.
    - unfold Ei_ml_terms, Ei_ml_rounds in Hterms.
      rewrite Forall_fmap in Hterms.
      eapply Forall_impl; [exact Hterms|]. intros r Hr.
      apply Z.ltb_ge. exact Hr. }
  unfold Ei_ml_c. unfold Ei_ml_rounds in Hno.
  rewrite (for_in_break_exhausted _ _ _ _ Hno), py_range_2_nmax_last.
  destruct (default _ _) as [tmp summa]. rewrite Z.leb_refl. eauto.
Qed.

(** When round [i] (that is [k = i + 2]) is the first whose term is below
    [eps], and it is not the last round, the loop stops there and [Ei_ml_c]
    returns the partial sum of that round plus Euler's constant, rounded
    into [res]. *)
Lemma Ei_ml_c_returns_when_converged res x (i : nat) tmp summa :
  Ei_ml_rounds x !! i = Some (tmp, summa, true) ->
  Forall (fun r => snd r = false) (take i (Ei_ml_rounds x)) ->
  Z.of_nat i < nmax - 2 ->
  let p := mpfr_prec x in
  Ei_ml_c res x
  = Ok (mpfr_set res (mpfr_add summa summa (mpfr_const_euler (mpfr_init2 p)))).
Proof.
  intros Hi Hbefore Hlt p. unfold Ei_ml_c. unfold Ei_ml_rounds in Hi, Hbefore.
  assert (py_range 2 (nmax + 1) !! i = Some (2 + Z.of_nat i)) as Hk.
  { unfold py_range, zrange. apply lookup_seqZ. unfold nmax in *. lia. }
  rewrite (for_in_break_stops _ _ _ _ i _ _ Hk Hi Hbefore).
  replace (nmax <=? 2 + Z.of_nat i) with false; [reflexivity|].
  symmetry. apply Z.leb_gt. unfold nmax in *. lia.
Qed.

(** *** [pochammer] *)

Lemma mppochammer_negative res a k :
  k < 0 -> _mppochammer_mpfr res a k = mpfr_set res a.
Proof.
  intros Hk. unfold _mppochammer_mpfr.
  replace (k =? 0) with false by (symmetry; apply Z.eqb_neq; lia).
  now rewrite for_from_empty by lia.
Qed.

Lemma mppochammer_zero res a : _mppochammer_mpfr res a 0 = mpfr_set_ui res 1.
Proof. reflexivity. Qed.

(** [pochammer(a, k)] never raises: it returns a new object holding what
    [_mppochammer_mpfr] leaves in a slot of the precision of [a]. *)
Lemma pochammer_returns (a : obj) k s av :
  heap s !! a = Some av ->
  exists r s',
    pochammer a k s = (Ok r, s') /\
    heap s' !! r = Some (_mppochammer_mpfr (RF_int (mpfr_prec av) 0) av k).
Proof.
  intros Ha. unfold pochammer. run_M. rewrite (get_value_in _ _ _ Ha). run_M.
  erewrite get_value_in by apply heap_new_lookup. run_M.
  do 2 eexists. split; [reflexivity|]. cbn [heap].
  rewrite heap_new_overwrite. apply heap_new_lookup.
Qed.

(** [incgamma_int(n, x)] for [n > 0] and [incgamma_phint(n, x)] likewise
    return what their [cdef] routine computes. *)
Lemma incgamma_int_positive_returns n (x : obj) s xv :
  heap s !! x = Some xv -> 0 < n ->
  exists r s',
    incgamma_int n x s = (Ok r, s') /\
    heap s' !! r = Some (incgamma_pint_c (RF_int (mpfr_prec xv) 0) n xv).
Proof.
  intros Hx Hn. unfold incgamma_int. run_M. rewrite (get_value_in _ _ _ Hx).
  run_M. erewrite get_value_in by apply heap_new_lookup.
  replace (0 <? n) with true by (symmetry; apply Z.ltb_lt; lia). run_M.
  do 2 eexists. split; [reflexivity|]. cbn [heap].
  rewrite heap_new_overwrite. apply heap_new_lookup.
Qed.

Lemma incgamma_phint_returns n (x : obj) s xv :
  heap s !! x = Some xv ->
  exists r s',
    incgamma_phint n x s = (Ok r, s') /\
    heap s' !! r = Some (incgamma_phint_c (RF_int (mpfr_prec xv) 1) n xv).
Proof.
  intros Hx. unfold incgamma_phint. run_M. rewrite (get_value_in _ _ _ Hx).
  run_M. erewrite get_value_in by apply heap_new_lookup. run_M.
  do 2 eexists. split; [reflexivity|]. cbn [heap].
  rewrite heap_new_overwrite. apply heap_new_lookup.
Qed.

Lemma c_int_small z : - 2 ^ 31 <= z < 2 ^ 31 -> c_int z = z.
Proof.
  intros Hz. unfold c_int, wrap. change (2 ^ (32 - 1)) with (2 ^ 31).
  change (2 ^ 32) with (2 * 2 ^ 31). rewrite Z.mod_small; lia.
Qed.

(** [2**n] in [long] arithmetic is [2^n] up to [n = 62] and 0 from
    [n = 64] on. *)
Lemma pow_long_small n : 0 <= n < 63 -> pow_long 2 n = 2 ^ n.
Proof.
  intros Hn. unfold pow_long, c_long, wrap.
  replace (n <? 0) with false by (symmetry; apply Z.ltb_ge; lia).
  assert (0 < 2 ^ n <= 2 ^ 62) as H2.
  { split; [apply Z.pow_pos_nonneg; lia|apply Z.pow_le_mono_r; lia]. }
  rewrite Z.mod_small; [lia|]. change (2 ^ (64 - 1)) with (2 * 2 ^ 62).
  change (2 ^ 64) with (4 * 2 ^ 62). lia.
Qed.

Lemma pow_long_overflow n : 64 <= n -> pow_long 2 n = 0.
Proof.
  intros Hn. unfold pow_long, c_long, wrap.
  replace (n <? 0) with false by (symmetry; apply Z.ltb_ge; lia).
  replace n with (64 + (n - 64)) by lia. rewrite Z.pow_add_r by lia.
  rewrite Z.add_comm, Z.mul_comm, Z_mod_plus_full. reflexivity.
Qed.


End Generic.

(** ** Real arithmetic: what the routines compute up to rounding *)

Lemma pos_strip_value (q : positive) (e : Z) :
  (IZR (Zpos (fst (pos_strip q e))) * powerRZ 2 (snd (pos_strip q e))
   = IZR (Zpos q) * powerRZ 2 e)%R.
Proof.
  revert e. induction q as [q IH|q IH|]; intros e; try reflexivity.
  simpl pos_strip. rewrite IH.
  rewrite powerRZ_add by lra. change (Z.pos q~0) with (2 * Z.pos q).
  rewrite mult_IZR. simpl (powerRZ 2 1). lra.
Qed.

Lemma R_of_dyadic_dnorm (m e : Z) :
  R_of_dyadic (dnorm m e) = (IZR m * powerRZ 2 e)%R.
Proof.
  unfold R_of_dyadic, dnorm. destruct m as [|q|q].
  - simpl. lra.
  - pose proof (pos_strip_value q e) as H.
    destruct (pos_strip q e) as [q' e']. exact H.
  - pose proof (pos_strip_value q e) as H.
    destruct (pos_strip q e) as [q' e']. simpl in *.
    change (IZR (Z.neg q')) with (- IZR (Z.pos q'))%R.
    change (IZR (Z.neg q)) with (- IZR (Z.pos q))%R. lra.
Qed.

Lemma R_of_dyadic_int (k : Z) : R_of_dyadic (dy_of_Z k) = IZR k.
Proof. unfold dy_of_Z. rewrite R_of_dyadic_dnorm. simpl. lra. Qed.

Lemma Rsum_snoc (js : list Z) (j : Z) (f : Z -> R) :
  Rsum (js ++ [j]) f = (Rsum js f + f j)%R.
Proof.
  unfold Rsum. induction js as [|i js IH]; simpl; [lra|]. rewrite IH. lra.
Qed.

Lemma Rprod_snoc (js : list Z) (j : Z) (f : Z -> R) :
  Rprod (js ++ [j]) f = (Rprod js f * f j)%R.
Proof.
  unfold Rprod. induction js as [|i js IH]; simpl; [lra|]. rewrite IH. lra.
Qed.

Lemma Zfact_succ (n : Z) : 0 <= n -> Zfact (n + 1) = (IZR (n + 1) * Zfact n)%R.
Proof.
  intros Hn. unfold Zfact.
  replace (Z.to_nat (n + 1)) with (S (Z.to_nat n)) by lia.
  rewrite fact_simpl, mult_INR, S_INR, INR_IZR_INZ, Z2Nat.id by lia.
  rewrite plus_IZR. reflexivity.
Qed.

Lemma Zfact_pos (n : Z) : (0 < Zfact n)%R.
Proof. unfold Zfact. apply INR_fact_lt_0. Qed.

Lemma Rpowz_succ (x : R) (j : Z) : 0 <= j -> Rpowz x (j + 1) = (Rpowz x j * x)%R.
Proof.
  intros Hj. unfold Rpowz.
  replace (Z.to_nat (j + 1)) with (S (Z.to_nat j)) by lia. simpl. lra.
Qed.

Ltac as_R :=
  match goal with
  | |- @eq _ ?a ?b => change (@eq R a b)
  end.

Section Real.

Variable erfc : R -> R.
Variable euler : R.

Let RA : Arith := RealArith erfc euler.
#[local] Existing Instance RA.

Implicit Types res x a : mpfr_t RA.

Lemma of_int_real (k : Z) : of_int k = IZR k.
Proof. apply R_of_dyadic_int. Qed.

(** The state of the loop of [incgamma_pint_c] after round [j = m]:
    [tmp2 = x^m / m!], [tmp = 1 + sum_{j=1}^{m} x^j / j!] and
    [tmp_fak = m!]. *)
Lemma incgamma_pint_loop x (m : nat) :
  let p := mpfr_prec x in
  let one := mpfr_set_ui (mpfr_init2 p) 1 in
  let st := for_from 1 (Z.of_nat m) (incgamma_pint_step x) (one, one, one) in
  let v : R := mpfr_val x in
  mpfr_val (snd (fst st)) = (Rpowz v (Z.of_nat m) / Zfact (Z.of_nat m))%R /\
  mpfr_val (fst (fst st))
    = (1 + Rsum (zrange 1 (Z.of_nat m)) (fun j => Rpowz v j / Zfact j))%R /\
  mpfr_val (snd st) = Zfact (Z.of_nat m).
Proof.
  intros p one st v. subst st. induction m as [|m IH].
  - rewrite for_from_empty by lia. cbn -[of_int]. rewrite of_int_real.
    unfold Rpowz, Zfact. simpl. repeat split; lra.
  - rewrite for_from_snoc by lia.
    replace (Z.of_nat (S m) - 1) with (Z.of_nat m) by lia.
    destruct (for_from 1 (Z.of_nat m) (incgamma_pint_step x) (one, one, one))
      as [[tmp tmp2] tmp_fak].
    cbn [fst snd] in IH. destruct IH as (H2 & H1 & Hf).
    rewrite (zrange_snoc 1 (Z.of_nat (S m))) by lia.
    replace (Z.of_nat (S m) - 1) with (Z.of_nat m) by lia.
    rewrite Rsum_snoc. replace (Z.of_nat (S m)) with (Z.of_nat m + 1) by lia.
    rewrite Zfact_succ, Rpowz_succ by lia.
    pose proof (Zfact_pos (Z.of_nat m)) as Hpos.
    assert (IZR (Z.of_nat m + 1) <> 0)%R as Hnz by (apply not_0_IZR; lia).
    cbn -[of_int]. rewrite of_int_real.
    change (@mpfr_val RA) with (@mpfr_val (RealArith erfc euler)) in *.
    cbn in H1, H2, Hf. rewrite H1, H2, Hf.
    subst v. repeat split; field; lra.
Qed.

(** [incgamma_pint_c] computes [exp(-x) (n-1)! (1 + sum_{j=1}^{n-1} x^j/j!)]. *)
Lemma incgamma_pint_c_closed_form res (n : Z) x :
  1 <= n ->
  let v : R := mpfr_val x in
  mpfr_val (incgamma_pint_c res n x)
  = (exp (- v) * Zfact (n - 1)
     * (1 + Rsum (zrange 1 (n - 1)) (fun j => Rpowz v j / Zfact j)))%R.
Proof.
  intros Hn v. unfold incgamma_pint_c.
  pose proof (incgamma_pint_loop x (Z.to_nat (n - 1))) as H.
  rewrite Z2Nat.id in H by lia. cbv zeta in H.
  unfold mpfr_get_prec.
  destruct (for_from 1 (n - 1) (incgamma_pint_step x) _) as [[tmp tmp2] tmp_fak].
  cbn [fst snd] in H. destruct H as (_ & H1 & Hf).
  cbn. change (@mpfr_val (RealArith erfc euler)) with (@mpfr_val RA).
  rewrite H1, Hf. subst v. lra.
Qed.

(** The state of the loop of [_mppochammer_mpfr] after round [j = m]. *)
Lemma mppochammer_loop res a (m : nat) :
  let va : R := mpfr_val a in
  let st := for_from 1 (Z.of_nat m) (mppochammer_step a)
              (mpfr_set res a, mpfr_init2 (mpfr_prec a)) in
  mpfr_val (fst st) = Rpochhammer va (Z.of_nat m + 1).
Proof.
  intros va st. subst st. unfold Rpochhammer. induction m as [|m IH].
  - rewrite for_from_empty by lia. change (Z.of_nat 0 + 1 - 1) with 0.
    rewrite zrange_single. cbn. subst va. lra.
  - rewrite for_from_snoc by lia.
    replace (Z.of_nat (S m) - 1) with (Z.of_nat m) by lia.
    destruct (for_from 1 (Z.of_nat m) (mppochammer_step a) _) as [r t].
    cbn [fst] in IH.
    rewrite (zrange_snoc 0 (Z.of_nat (S m) + 1 - 1)) by lia. rewrite Rprod_snoc.
    replace (Z.of_nat (S m) + 1 - 1 - 1) with (Z.of_nat m + 1 - 1) by lia.
    rewrite <- IH. cbn -[of_int]. rewrite of_int_real.
    replace (Z.of_nat (S m) + 1 - 1) with (Z.of_nat (S m)) by lia.
    subst va. reflexivity.
Qed.

(** [_mppochammer_mpfr] computes the rising factorial for [0 <= k]. *)
Lemma mppochammer_closed_form res a (k : Z) :
  0 <= k ->
  mpfr_val (_mppochammer_mpfr res a k) = Rpochhammer (mpfr_val a) k.
Proof.
  intros Hk. unfold _mppochammer_mpfr. destruct (k =? 0) eqn:E.
  - apply Z.eqb_eq in E. subst k. cbn -[of_int]. rewrite of_int_real.
    reflexivity.
  - apply Z.eqb_neq in E. pose proof (mppochammer_loop res a (Z.to_nat (k - 1))) as H.
    cbv zeta in H. rewrite Z2Nat.id in H by lia.
    replace (k - 1 + 1) with k in H by lia. exact H.
Qed.


(** The first loop of [incgamma_phint_c] after [m] rounds
    ([j = 0, ..., m-1]): [summa] is the sum of
    [Pochhammer(1/2 - n, n-j-1) (-x)^j] and [tmp] is [(-x)^m]. *)
Lemma incgamma_phint_sum_loop half_m_n x (n : Z) (m : nat) term0 :
  Z.of_nat m <= n ->
  let p := mpfr_prec x in
  let v : R := mpfr_val x in
  let h : R := mpfr_val half_m_n in
  let st := for_from 0 (Z.of_nat m - 1) (incgamma_phint_step half_m_n x n)
              (term0, mpfr_set_ui (mpfr_init2 p) 0, mpfr_set_ui (mpfr_init2 p) 1) in
  mpfr_val (snd (fst st))
    = Rsum (zrange 0 (Z.of_nat m - 1))
        (fun j => (Rpochhammer h (n - j - 1) * Rpowz (- v) j)%R) /\
  mpfr_val (snd st) = Rpowz (- v) (Z.of_nat m).
Proof.
  intros Hm p v h st. subst st. induction m as [|m IH].
  - rewrite for_from_empty, zrange_empty by lia.
    cbn -[of_int]. rewrite !of_int_real. unfold Rpowz. simpl. split; lra.
  - rewrite for_from_snoc by lia.
    replace (Z.of_nat (S m) - 1 - 1) with (Z.of_nat m - 1) by lia.
    destruct (for_from 0 (Z.of_nat m - 1) _ _) as [[term summa] tmp].
    cbn [fst snd] in IH. destruct IH as [Hs Ht]; [lia|].
    rewrite (zrange_snoc 0 (Z.of_nat (S m) - 1)) by lia. rewrite Rsum_snoc.
    replace (Z.of_nat (S m) - 1 - 1) with (Z.of_nat m - 1) by lia.
    replace (Z.of_nat (S m) - 1) with (Z.of_nat m) by lia.
    replace (Z.of_nat (S m)) with (Z.of_nat m + 1) by lia.
    rewrite Rpowz_succ by lia.
    cbn [incgamma_phint_step fst snd mpfr_neg mpfr_mul mpfr_add assign mpfr_val
         mpfr_prec fl_neg fl_mul fl_add RA RealArith].
    rewrite mppochammer_closed_form by lia.
    change (@mpfr_val (RealArith erfc euler)) with (@mpfr_val RA).
    rewrite Hs, Ht. subst v h. split; lra.
Qed.

(** The second loop after [m] rounds: the product of the odd numbers
    [2j - 1], [j = 1, ..., m]. *)
Lemma incgamma_phint_odd_loop tmp0 (m : nat) :
  Z.of_nat m < 2 ^ 30 ->
  mpfr_val (for_from 1 (Z.of_nat m) incgamma_phint_odd_step tmp0)
  = (mpfr_val tmp0 * Rprod (zrange 1 (Z.of_nat m)) (fun j => IZR (2 * j - 1)))%R.
Proof.
  intros Hm. induction m as [|m IH].
  - rewrite for_from_empty, zrange_empty by lia. simpl. lra.
  - rewrite for_from_snoc by lia.
    replace (Z.of_nat (S m) - 1) with (Z.of_nat m) by lia.
    rewrite (zrange_snoc 1 (Z.of_nat (S m))) by lia. rewrite Rprod_snoc.
    replace (Z.of_nat (S m) - 1) with (Z.of_nat m) by lia.
    unfold incgamma_phint_odd_step at 1. rewrite c_int_small by lia.
    cbn -[of_int for_from]. rewrite of_int_real.
    change (@mpfr_val (RealArith erfc euler)) with (@mpfr_val RA).
    rewrite IH by lia. lra.
Qed.

(** [mpfr_sqpi_erfc_sqx] computes [sqrt(pi) erfc(sqrt(x))]. *)
Lemma mpfr_sqpi_erfc_sqx_closed_form res x :
  mpfr_val (mpfr_sqpi_erfc_sqx res x) = (erfc (sqrt (mpfr_val x)) * sqrt PI)%R.
Proof. reflexivity. Qed.

(** Where [2**n] does not overflow, [incgamma_phint_c] computes
    [prod_{j=1}^{n} (2j-1) * sqrt(pi) erfc(sqrt x) / 2^n
     + s exp(-x) sqrt(x) summa] with
    [summa = sum_{j=0}^{n-1} Pochhammer(1/2 - n, n-j-1) (-x)^j] and
    [s = -1] for even [n], [s = 1] for odd [n]. *)
Lemma incgamma_phint_c_closed_form res (n : Z) x :
  0 < n < 63 ->
  let v : R := mpfr_val x in
  let summa :=
    Rsum (zrange 0 (n - 1))
      (fun j => (Rpochhammer (/ 2 - IZR n) (n - j - 1) * Rpowz (- v) j)%R) in
  let s : R := if n mod 2 =? 0 then (-1)%R else 1%R in
  mpfr_val (incgamma_phint_c res n x)
  = (Rprod (zrange 1 n) (fun j => IZR (2 * j - 1))
       * (sqrt PI * erfc (sqrt v) / IZR (2 ^ n))
     + s * exp (- v) * sqrt v * summa)%R.
Proof.
  intros Hn v summa s. unfold incgamma_phint_c.
  replace (n <? 0) with false by (symmetry; apply Z.ltb_ge; lia).
  unfold mpfr_get_prec.
  set (half_m_n := mpfr_sub_si _ _ n).
  assert (mpfr_val half_m_n = (/ 2 - IZR n)%R) as Hh.
  { subst half_m_n. cbn -[of_int]. rewrite of_int_real.
    unfold R_of_dyadic. simpl. lra. }
  pose proof (incgamma_phint_sum_loop half_m_n x n (Z.to_nat n)
                (mpfr_set_ui (mpfr_init2 (mpfr_prec x)) 0)) as H.
  rewrite Z2Nat.id in H by lia. cbv zeta in H. specialize (H ltac:(lia)).
  destruct (for_from 0 (n - 1) _ _) as [[term summa'] tmp].
  cbn [fst snd] in H. destruct H as [Hs _]. rewrite Hh in Hs.
  pose proof (incgamma_phint_odd_loop (mpfr_set_ui tmp 1) (Z.to_nat n)) as Hp.
  rewrite Z2Nat.id in Hp by lia.
  assert (n < 2 ^ 30) as Hlt30 by (change (2 ^ 30) with 1073741824; lia).
  specialize (Hp Hlt30).
  rewrite pow_long_small by lia.
  remember (for_from 1 n incgamma_phint_odd_step (mpfr_set_ui tmp 1)) as prod.
  assert (mpfr_val prod
          = Rprod (zrange 1 n) (fun j => IZR (2 * j - 1))) as Hp'.
  { rewrite Hp. cbn -[of_int zrange]. rewrite of_int_real. lra. }
  clear Heqprod Hp.
  destruct (n mod 2 =? 0); subst s;
    cbn -[of_int zrange]; rewrite of_int_real;
    change (@mpfr_val (RealArith erfc euler)) with (@mpfr_val RA);
    rewrite Hp', Hs; subst v summa; lra.
Qed.


(** The Taylor loop of [Ei_ml_c]: after round [k] the term is
    [x^k / (k k!)] and the sum is [sum_{j=1}^{k} x^j / (j j!)]. *)
Lemma Ei_ml_rounds_closed_form x (i : nat) r :
  Ei_ml_rounds x !! i = Some r ->
  let v : R := mpfr_val x in
  let k := 2 + Z.of_nat i in
  mpfr_val (fst (fst r)) = (Rpowz v k / (IZR k * Zfact k))%R /\
  mpfr_val (snd (fst r))
    = Rsum (zrange 1 k) (fun j => (Rpowz v j / (IZR j * Zfact j))%R).
Proof.
  intros Hi v k. unfold Ei_ml_rounds, py_range, zrange in Hi.
  replace (nmax + 1 - 1 - 2 + 1) with (Z.of_nat (Z.to_nat (nmax - 1))) in Hi
    by (unfold nmax; lia).
  revert Hi.
  apply (rounds_invariant
           (fun (k : Z) (st : mpfr_t RA * mpfr_t RA) =>
              1 <= k /\
              @eq R (mpfr_val (fst st)) (Rpowz v k / (IZR k * Zfact k))%R /\
              @eq R (mpfr_val (snd st))
                (Rsum (zrange 1 k) (fun j => (Rpowz v j / (IZR j * Zfact j))%R)))).
  - split; [lia|]. change (2 - 1) with 1. rewrite zrange_single.
    cbn. unfold Rpowz, Zfact. simpl. change (@mpfr_val RA x) with v.
    split; as_R; field.
  - intros j [tmp summa] Hj (Hge & Ht & Hs). cbn [fst snd] in *.
    split; [lia|].
    rewrite (zrange_snoc 1 j) by lia. rewrite Rsum_snoc.
    assert (Zfact j = IZR j * Zfact (j - 1))%R as Hfj.
    { replace j with (j - 1 + 1) at 1 2 by lia. apply Zfact_succ. lia. }
    assert (Rpowz v j = Rpowz v (j - 1) * v)%R as Hpj.
    { replace j with (j - 1 + 1) at 1 by lia. apply Rpowz_succ. lia. }
    rewrite Hfj, Hpj.
    pose proof (Zfact_pos (j - 1)) as Hpos.
    assert (IZR j <> 0)%R as Hnz by (apply not_0_IZR; lia).
    assert (IZR (j - 1) <> 0)%R as Hnz1 by (apply not_0_IZR; lia).
    cbn [Ei_ml_step fst snd mpfr_mul mpfr_mul_ui mpfr_div_ui mpfr_add assign
         mpfr_val mpfr_prec fl_mul fl_div fl_add RA RealArith].
    rewrite !of_int_real, mult_IZR.
    change (@mpfr_val (RealArith erfc euler)) with (@mpfr_val RA).
    rewrite Ht, Hs. change (@mpfr_val RA x) with v.
    split; as_R; field; repeat split; auto; lra.
Qed.


End Real.

(** ** Binary floating point: evaluations *)

Lemma Forall_forallb {T : Type} (f : T -> bool) (l : list T) :
  forallb f l = true -> Forall (fun t => f t = true) l.
Proof.
  intros H. apply Forall_forall. intros t Ht.
  apply (proj1 (forallb_forall f l) H). now apply list_elem_of_In.
Qed.

(** The integer functions on binary rationals are the rational ones. *)
Lemma dy_floor_spec (d : dyadic) : dy_floor d = Qfloor (dval d).
Proof.
  unfold dy_floor, dval. destruct (0 <=? dexp d) eqn:E.
  - apply Z.leb_le in E. rewrite <- (Qfloor_Z (dmant d * 2 ^ dexp d)).
    apply Qfloor_comp. rewrite inject_Z_mult, Zpower_Qpower by lia.
    reflexivity.
  - apply Z.leb_gt in E. rewrite Z.shiftr_div_pow2 by lia.
    rewrite Zdiv_Qdiv. apply Qfloor_comp. unfold Qdiv.
    rewrite Zpower_Qpower by lia. rewrite <- Qpower_opp, Z.opp_involutive.
    reflexivity.
Qed.

Lemma dval_nonneg (d : dyadic) : 0 <= dmant d -> (0 <= dval d)%Q.
Proof.
  intros H. unfold dval. apply Qmult_le_0_compat.
  - change 0%Q with (inject_Z 0). now rewrite <- Zle_Qle.
  - apply Qpower_0_le. discriminate.
Qed.

Lemma dval_abs (d : dyadic) : (Qabs (dval d) == dval (dy_abs d))%Q.
Proof.
  unfold dval, dy_abs. cbn [dmant dexp]. rewrite Qabs_Qmult.
  rewrite (Qabs_pos (2 ^ dexp d)) by (apply Qpower_0_le; discriminate).
  reflexivity.
Qed.

(** [|integer part of x| = floor |x|] *)
Lemma dy_trunc_abs (d : dyadic) : Z.abs (dy_trunc d) = Qfloor (Qabs (dval d)).
Proof.
  rewrite (Qfloor_comp _ _ (dval_abs d)), <- dy_floor_spec.
  assert (0 <= dy_floor (dy_abs d)) as Hnn.
  { rewrite dy_floor_spec. change 0 with (Qfloor 0). apply Qfloor_resp_le.
    apply dval_nonneg. cbn. lia. }
  destruct d as [m e]. unfold dy_trunc, dy_ceil, dy_neg, dy_abs in *.
  cbn [dmant dexp] in *. destruct (0 <=? m) eqn:E.
  - apply Z.leb_le in E. rewrite (Z.abs_eq m) in * by lia. lia.
  - apply Z.leb_gt in E. rewrite (Z.abs_neq m) in * by lia. lia.
Qed.

Section Float.

Existing Instance FloatArith.

(** C1, at the failing input [ei_asymp(1.0)] in 53 bits: the terms are
    [k!], none is below [eps], and the routine returns. *)
Lemma ei_asymp_c_returns_truncated_sum_witness :
  let x := RealNumber_of 53 1 0 in
  Forall (fun t => 0 <= mpfr_cmpabs t (ei_asymp_eps x)) (ei_asymp_terms x) /\
  exists summa,
    last (ei_asymp_sums x) = Some summa /\
    ei_asymp_c (RF_int 53 0) x = Ok (mpfr_mul (RF_int 53 0) summa (ei_asymp_tmp2 x)).
Proof.
  intros x.
  assert (Forall (fun t => 0 <= mpfr_cmpabs t (ei_asymp_eps x)) (ei_asymp_terms x)) as H.
  { apply Forall_forall. intros t Ht. apply Z.leb_le. revert t Ht.
    apply Forall_forall, (Forall_forallb _).
    change (let eps := ei_asymp_eps x in
            forallb (fun t => 0 <=? mpfr_cmpabs t eps) (ei_asymp_terms x) = true).
    vm_compute. reflexivity. }
  split; [exact H|].
  exact (ei_asymp_c_returns_truncated_sum (RF_int 53 0) x H).
Defined.

(** *** The Taylor loop at high precision *)

Lemma f_cmpabs_zero (t : fnum) : 0 <= f_cmpabs t (FFin (Dy 0 0)).
Proof.
  destruct t as [|b|[m e]]; [cbn; lia|cbn; lia|].
  unfold f_cmpabs, f_magnitude, f_cmp, dy_cmp, dy_abs. cbn [dmant dexp].
  destruct m; cbv -[Z.le dy_top dy_add dy_neg]; lia.
Qed.

(** From 1055 bits on, [2.0 ** -(prec + 20)] underflows and [eps] is 0. *)
Lemma Ei_ml_eps_underflow (x : mpfr_t FloatArith) :
  1055 <= mpfr_prec x -> mpfr_val (Ei_ml_eps x) = FFin (Dy 0 0).
Proof.
  intros Hp. unfold Ei_ml_eps, RF_double, mpfr_set_d, mpfr_get_prec, pow_2_neg.
  replace (mpfr_prec x + 20 <=? 1074) with false
    by (symmetry; apply Z.leb_gt; lia).
  cbn. unfold f_round, rne. cbn. change (bitlen (Z.abs 0)) with 0.
  replace (0 - mpfr_prec x <=? 0) with true by (symmetry; apply Z.leb_le; lia).
  reflexivity.
Qed.

(** With [eps = 0] no term is below [eps]: every call at 1055 bits or more
    runs through all rounds and raises. *)
Lemma Ei_ml_c_raises_from_1055_bits (res x : mpfr_t FloatArith) :
  1055 <= mpfr_prec x ->
  exists tmp summa, Ei_ml_c res x = Raise (ArithmeticError tmp summa).
Proof.
  intros Hp. apply Ei_ml_c_raises_when_exhausted.
  apply Forall_forall. intros t _. unfold mpfr_cmpabs.
  rewrite (Ei_ml_eps_underflow x Hp). apply f_cmpabs_zero.
Qed.

(** C4 (the code departs from the claim), at the failing input
    [Ei_ml(x)] for [x = 1.0] in 1055 bits. The bound of the claim is
    [2^-(p+20) = 2^-1075]; the term of round [k = 177] is below it (the
    test [mpfr_cmpabs(tmp, 2^-1075) < 0] succeeds), but the code's [eps] is
    0, the loop does not stop there and the call raises
    [ArithmeticError]. *)
Theorem Ei_ml_c_misses_its_bound_at_1055_bits :
  let x := RealNumber_of 1055 1 0 in
  let bound : mpfr_t FloatArith := Mpfr 1055 (FFin (Dy 1 (- (1055 + 20)))) in
  mpfr_val (Ei_ml_eps x) = FFin (Dy 0 0) /\
  (exists t, Ei_ml_terms x !! 175%nat = Some t /\ mpfr_cmpabs t bound < 0) /\
  (exists tmp summa,
     Ei_ml_c (RF_int 1055 0) x = Raise (ArithmeticError tmp summa)).
Proof.
  intros x bound. split; [|split].
  - apply Ei_ml_eps_underflow. subst x. cbn. lia.
  - unfold Ei_ml_terms, Ei_ml_rounds. rewrite list_lookup_fmap.
    rewrite rounds_lookup_prefix.
    match goal with
    | |- exists t, ?f <$> ?r = Some t /\ _ =>
        assert (match r with
                | Some rd => mpfr_cmpabs (f rd) bound <? 0
                | None => false
                end = true) as H by (vm_compute; reflexivity);
        destruct r as [rd|]; [|discriminate]
    end.
    eexists. split; [reflexivity|]. now apply Z.ltb_lt.
  - apply Ei_ml_c_raises_from_1055_bits. subst x. cbn. lia.
Qed.

(** *** Concrete calls *)

(** C9 (the code departs from the claim), at the failing input
    [incgamma_int(0, x)] for [x = 1.0] in 53 bits: the call takes the
    Taylor path and the [mpfr_t] of the returned object has 75 bits, not
    the 53 of [x]. *)
Theorem incgamma_int_0_result_has_75_bits :
  let x := RealNumber_of 53 1 0 in
  exists r s' v,
    incgamma_int 0 0%nat (State [x] []) = (Ok r, s') /\
    heap s' !! r = Some v /\
    mpfr_prec v = 75 /\ mpfr_prec x = 53.
Proof.
  intros x.
  assert (match incgamma_int 0 0%nat (State [x] []) with
          | (Ok r, s') =>
              match heap s' !! r with
              | Some v => mpfr_prec v =? 75
              | None => false
              end
          | _ => false
          end = true) as H by (vm_compute; reflexivity).
  destruct (incgamma_int 0 0%nat (State [x] [])) as [[r|e] s']; [|discriminate].
  destruct (heap s' !! r) as [v|] eqn:Hv; [|discriminate].
  exists r, s', v. repeat split; [exact Hv|now apply Z.eqb_eq].
Qed.

(** C6 (the code departs from the claim), at the failing input
    [incgamma_phint(64, x)] for [x = 1.0] in 53 bits: [2**64] is 0 in
    [long] arithmetic, [sqrt(pi) erfc(sqrt x)] is divided by 0 and the
    result is [+Inf], not the finite value of the closed form. *)
Theorem incgamma_phint_64_is_infinite :
  let x := RealNumber_of 53 1 0 in
  pow_long 2 64 = 0 /\
  exists r s' v,
    incgamma_phint 64 0%nat (State [x] []) = (Ok r, s') /\
    heap s' !! r = Some v /\ mpfr_val v = FInf false.
Proof.
  intros x. split; [reflexivity|].
  assert (match incgamma_phint 64 0%nat (State [x] []) with
          | (Ok r, s') =>
              match heap s' !! r with
              | Some v =>
                  match mpfr_val v with
                  | FInf false => true
                  | _ => false
                  end
              | None => false
              end
          | _ => false
          end = true) as H by (vm_compute; reflexivity).
  destruct (incgamma_phint 64 0%nat (State [x] [])) as [[r|e] s']; [|discriminate].
  destruct (heap s' !! r) as [v|] eqn:Hv; [|discriminate].
  exists r, s', v. repeat split; [exact Hv|].
  destruct (mpfr_val v) as [|[|]|]; try discriminate. reflexivity.
Qed.

(** C8, counterexample: [pochammer(2.0, -1)] is not rejected. *)
Lemma pochammer_negative_k_is_not_rejected :
  ~ exists e s',
      pochammer 0%nat (-1) (State [RealNumber_of 53 2 0] []) = (Raise e, s').
Proof.
  intros (e & s' & H).
  assert (match pochammer 0%nat (-1) (State [RealNumber_of 53 2 0] []) with
          | (Ok _, _) => true
          | _ => false
          end = true) as E by (vm_compute; reflexivity).
  rewrite H in E. discriminate.
Qed.

(** C3, counterexample: at 53 bits [incgamma_int(3, 1.0)] is not within
    [10^-4] of [0.8609]. *)
Lemma incgamma_int_3_1_is_not_0_8609 :
  ~ exists r s' v q,
      incgamma_int 3 0%nat (State [RealNumber_of 53 1 0] []) = (Ok r, s') /\
      heap s' !! r = Some v /\ Q_of v = Some q /\
      (Qabs (q - (8609 # 10000)) <= 1 # 10000)%Q.
Proof.
  intros (r & s' & v & q & Hrun & Hv & Hq & Hle).
  assert (match incgamma_int 3 0%nat (State [RealNumber_of 53 1 0] []) with
          | (Ok r, s') =>
              match heap s' !! r ≫= Q_of with
              | Some q => negb (Qle_bool (Qabs (q - (8609 # 10000))) (1 # 10000))
              | None => false
              end
          | _ => false
          end = true) as E by (vm_compute; reflexivity).
  rewrite Hrun, Hv in E. cbn [mbind option_bind] in E. rewrite Hq in E.
  apply Qle_bool_iff in Hle. rewrite Hle in E. discriminate.
Qed.


(** *** The regime thresholds *)

(** For [4 <= p <= 4979], [RF_orig(wp*0.693).integer_part() + 10] is
    [floor(0.693 wp) + 10], and for [2 <= p <= 4979],
    [ceil(wp*0.693) + 10] is [ceil(0.693 wp) + 10] (checked precision by
    precision). *)
Lemma ei_rh_is_floor (p : Z) :
  4 <= p <= 4979 ->
  f_trunc (f_set p (FFin (double_mul_int (p + 20) d0693)))
  = Some (floor_rh (p + 20) - 10) /\
  - INT_MAX - 1 <= floor_rh (p + 20) <= INT_MAX.
Proof.
  intros Hp.
  assert (forallb
            (fun p =>
               match f_trunc (f_set p (FFin (double_mul_int (p + 20) d0693))) with
               | Some ip =>
                   (ip =? floor_rh (p + 20) - 10)
                   && (- INT_MAX - 1 <=? floor_rh (p + 20))
                   && (floor_rh (p + 20) <=? INT_MAX)
               | None => false
               end) (zrange 4 4979) = true) as H by (vm_compute; reflexivity).
  rewrite forallb_forall in H. specialize (H p).
  assert (In p (zrange 4 4979)) as Hin
    by now apply list_elem_of_In, elem_of_zrange.
  specialize (H Hin).
  destruct (f_trunc _) as [ip|]; [|discriminate].
  apply andb_prop in H. destruct H as [H H3].
  apply andb_prop in H. destruct H as [H1 H2].
  apply Z.eqb_eq in H1. apply Z.leb_le in H2, H3. subst ip. auto.
Qed.

Lemma nint_rh_is_ceiling (p : Z) :
  2 <= p <= 4979 ->
  c_ceil (double_mul_int (p + 20) d0693) + 10 = spec_rh (p + 20).
Proof.
  intros Hp.
  assert (forallb
            (fun p => c_ceil (double_mul_int (p + 20) d0693) + 10
                      =? spec_rh (p + 20)) (zrange 2 4979) = true) as H
    by (vm_compute; reflexivity).
  rewrite forallb_forall in H. apply Z.eqb_eq, H.
  now apply list_elem_of_In, elem_of_zrange.
Qed.

(** C2, as amended. For a finite [x] of precision [4 <= p <= 4979] with
    [|x| < 2^31], and [wp = p + 20]: [ei(x)] takes the asymptotic branch
    exactly when [floor |x| > floor(0.693 wp) + 10] (both sides are integer
    parts), and otherwise the Taylor branch at [wp + 2 floor |x|] bits. The
    threshold of the Gamma(0, x) path, which it compares [|x|] itself with,
    is [ceil(0.693 wp) + 10]. *)
Theorem ei_regime_selection (x : obj) (s : state FloatArith) xv d verbose :
  heap s !! x = Some xv ->
  mpfr_val xv = FFin d ->
  4 <= mpfr_prec xv <= 4979 ->
  (Qabs (dval d) < inject_Z (2 ^ 31))%Q ->
  let wp := mpfr_prec xv + 20 in
  let xabs := Qfloor (Qabs (dval d)) in
  ei x verbose s
  = (if floor_rh wp <? xabs then ei_asymp_branch xv wp verbose s
     else ei_taylor_branch xv wp xabs verbose s) /\
  nint_rh xv = spec_rh wp.
Proof.
  intros Hx Hd Hp Hlt wp xabs. split.
  - assert (0 <= xabs <= INT_MAX) as Hxabs.
    { subst xabs. split.
      - change 0 with (Qfloor 0). apply Qfloor_resp_le, Qabs_nonneg.
      - assert (Qfloor (Qabs (dval d)) < 2 ^ 31); [|unfold INT_MAX; lia].
        rewrite Zlt_Qlt. eapply Qle_lt_trans; [apply Qfloor_le|exact Hlt]. }
    destruct (ei_rh_is_floor _ Hp) as [Hrh Hrange].
    unfold ei. run_M. rewrite (get_value_in _ _ _ Hx).
    unfold ei_xabs, ei_rh, integer_part. run_M.
    rewrite Hd. cbn [num_trunc FloatArith f_trunc].
    rewrite dy_trunc_abs. fold xabs. run_M. unfold to_c_int.
    replace ((- INT_MAX - 1 <=? xabs) && (xabs <=? INT_MAX)) with true
      by (symmetry; apply andb_true_intro; split; apply Z.leb_le; lia).
    run_M.
    change (mpfr_val (RF_double (mpfr_prec xv)
                        (double_mul_int (ei_wp xv) d0693)))
      with (f_set (mpfr_prec xv)
              (FFin (double_mul_int (mpfr_prec xv + 20) d0693))).
    rewrite Hrh. fold wp. change (ei_wp xv) with wp.
    replace (floor_rh wp - 10 + 10) with (floor_rh wp) by lia.
    replace ((- INT_MAX - 1 <=? floor_rh wp) && (floor_rh wp <=? INT_MAX))
      with true
      by (symmetry; apply andb_true_intro; split; apply Z.leb_le; subst wp; lia).
    run_M. now destruct (floor_rh wp <? xabs).
  - unfold nint_rh, nint_wp, mpfr_get_prec. apply nint_rh_is_ceiling. lia.
Qed.

(** C2, counterexample: for [x = -61.0] in 53 bits, [wp = 73] and
    [ceil(0.693 * 73) + 10 = 61], so by the claim's rule [|x| > rh] fails
    and the Taylor expansion should be used; [ei] uses the asymptotic one
    (its [rh] is [floor(50.589) + 10 = 60]). *)
Lemma ei_regime_counterexample :
  let x := RealNumber_of 53 (-61) 0 in
  spec_use_asymp 53 (-61 # 1) = false /\
  stdout (snd (ei 0%nat 1 (State [x] []))) = ["can use asymptotic"%string].
Proof.
  intros x. split; [reflexivity|].
  assert (match stdout (snd (ei 0%nat 1 (State [x] []))) with
          | [line] => String.eqb line "can use asymptotic"
          | _ => false
          end = true) as H by (vm_compute; reflexivity).
  destruct (stdout _) as [|line [|]]; try discriminate.
  apply String.eqb_eq in H. now subst line.
Qed.


(** *** Instances of the theorems above *)

Lemma incgamma_int_nonpositive_parameter_witness :
  let s : state FloatArith := State [RealNumber_of 53 1 0] [] in
  heap s !! 0%nat = Some (RealNumber_of 53 1 0) /\
  -1 <= 0 /\
  exists s',
    incgamma_int (-1) 0%nat s
    = (Raise (NotImplementedError "Doesn't work right now..."), s').
Proof.
  intros s. split; [reflexivity|]. split; [lia|].
  assert (-1 <= 0) as Hle by lia. assert (-1 < 0) as Hlt by lia.
  pose proof (incgamma_int_nonpositive_parameter
                (-1) 0%nat s (RealNumber_of 53 1 0) eq_refl Hle) as H.
  cbv zeta in H. destruct H as [H _]. exact (H Hlt).
Defined.

Lemma incgamma_hint_0_is_sqpi_erfc_sqx_witness :
  let xv := RealNumber_of 53 1 0 in
  let s : state FloatArith := State [xv] [] in
  let p := mpfr_prec xv in
  let v := Mpfr p (fl_mul p (fl_erfc p (fl_sqrt p (mpfr_val xv)))
                            (fl_sqrt p (fl_const_pi p))) in
  heap s !! 0%nat = Some xv /\
  exists r s', incgamma_hint 0 0%nat s = (Ok r, s') /\ heap s' !! r = Some v.
Proof.
  intros xv s p v. split; [reflexivity|].
  pose proof (incgamma_hint_0_is_sqpi_erfc_sqx 0%nat s xv eq_refl) as H.
  cbv zeta in H. destruct H as [H _]. exact H.
Defined.

Lemma ei_taylor_overwrites_its_argument_witness :
  let xv := RealNumber_of 53 (-1) 0 in
  let s : state FloatArith := State [xv] [] in
  heap s !! 0%nat = Some xv /\
  mpfr_abs xv xv = RealNumber_of 53 1 0 /\
  exists r s',
    ei_taylor 0%nat s = (Ok r, s') /\
    heap s' !! 0%nat = Some (mpfr_abs xv xv).
Proof.
  intros xv s. split; [reflexivity|]. split; [reflexivity|].
  pose proof (ei_taylor_overwrites_its_argument 0%nat s xv eq_refl) as H.
  cbv zeta in H. destruct H as [H _].
  assert (match Ei_ml_c (RF_int (mpfr_prec xv) 0) xv with
          | Ok _ => true
          | Raise _ => false
          end = true) as E by (vm_compute; reflexivity).
  destruct (Ei_ml_c (RF_int (mpfr_prec xv) 0) xv) as [v|e]; [|discriminate].
  destruct H as (r & s' & H1 & H2 & _). exists r, s'. split; assumption.
Defined.

Lemma ei_regime_selection_witness :
  let xv := RealNumber_of 53 (-61) 0 in
  let s : state FloatArith := State [xv] [] in
  heap s !! 0%nat = Some xv /\
  mpfr_val xv = FFin (Dy (-61) 0) /\
  4 <= mpfr_prec xv <= 4979 /\
  (Qabs (dval (Dy (-61) 0)) < inject_Z (2 ^ 31))%Q /\
  floor_rh 73 = 60 /\ spec_rh 73 = 61 /\
  ei 0%nat 1 s = ei_asymp_branch xv 73 1 s /\
  nint_rh xv = 61.
Proof.
  intros xv s.
  assert (4 <= mpfr_prec xv <= 4979) as Hp by (cbn; lia).
  assert (Qabs (dval (Dy (-61) 0)) < inject_Z (2 ^ 31))%Q as Hlt
    by (vm_compute; reflexivity).
  pose proof (ei_regime_selection 0%nat s xv (Dy (-61) 0) 1
                eq_refl eq_refl Hp Hlt) as [H1 H2].
  split; [reflexivity|]. split; [reflexivity|]. split; [exact Hp|].
  split; [exact Hlt|]. split; [reflexivity|]. split; [reflexivity|].
  split; [exact H1|exact H2].
Defined.

End Float.


(** ** The entry points, in exact and in floating-point arithmetic *)

(** C3, as amended. In arithmetic without rounding, [incgamma_int(n, x)]
    for [n >= 1] returns, at the precision of [x],
    [exp(-x) (n-1)! (1 + sum_{j=1}^{n-1} x^j / j!)]; and in 53-bit floating
    point [incgamma_int(3, 1.0)] is within [10^-4] of [1.8394]
    ([= 2 exp(-1) (1 + 1 + 0.5)]). *)
Theorem incgamma_int_positive_closed_form :
  (forall (erfc : R -> R) (euler : R) (n : Z) (x : obj)
          (s : state (RealArith erfc euler)) (xv : mpfr_t (RealArith erfc euler)),
     heap s !! x = Some xv ->
     1 <= n ->
     exists r s' v,
       incgamma_int n x s = (Ok r, s') /\
       heap s' !! r = Some v /\
       mpfr_prec v = mpfr_prec xv /\
       let a : R := mpfr_val xv in
       @eq R (mpfr_val v)
         (exp (- a) * Zfact (n - 1)
          * (1 + Rsum (zrange 1 (n - 1)) (fun j => Rpowz a j / Zfact j)))%R) /\
  (exists r s' v q,
     incgamma_int (A := FloatArith) 3 0%nat (State [RealNumber_of 53 1 0] [])
     = (Ok r, s') /\
     heap s' !! r = Some v /\ Q_of v = Some q /\
     (Qabs (q - (18394 # 10000)) <= 1 # 10000)%Q).
Proof.
  split.
  - intros erfc euler n x s xv Hx Hn.
    destruct (incgamma_int_positive_returns n x s xv Hx ltac:(lia))
      as (r & s' & Hrun & Hr).
    exists r, s', (incgamma_pint_c (RF_int (mpfr_prec xv) 0) n xv).
    split; [exact Hrun|]. split; [exact Hr|]. split.
    + now rewrite incgamma_pint_c_prec.
    + apply incgamma_pint_c_closed_form. exact Hn.
  - assert (match incgamma_int (A := FloatArith) 3 0%nat
                    (State [RealNumber_of 53 1 0] []) with
            | (Ok r, s') =>
                match heap s' !! r ≫= Q_of with
                | Some q => Qle_bool (Qabs (q - (18394 # 10000))) (1 # 10000)
                | None => false
                end
            | _ => false
            end = true) as E by (vm_compute; reflexivity).
    destruct (incgamma_int 3 0%nat _) as [[r|e] s']; [|discriminate].
    destruct (heap s' !! r) as [v|] eqn:Hv; [|discriminate].
    cbn [mbind option_bind] in E.
    destruct (Q_of v) as [q|] eqn:Hq; [|discriminate].
    exists r, s', v, q. repeat split; try assumption; try reflexivity.
    now apply Qle_bool_iff.
Qed.

Lemma incgamma_int_positive_closed_form_witness :
  let xv := @Mpfr (RealArith (fun t => t) 0) 53 1%R in
  let s : state (RealArith (fun t => t) 0) := State [xv] [] in
  heap s !! 0%nat = Some xv /\
  1 <= 3 /\
  exists r s' v,
    incgamma_int 3 0%nat s = (Ok r, s') /\
    heap s' !! r = Some v /\
    mpfr_prec v = 53 /\
    @eq R (mpfr_val v)
      (exp (- 1) * Zfact (3 - 1)
       * (1 + Rsum (zrange 1 (3 - 1)) (fun j => Rpowz 1 j / Zfact j)))%R.
Proof.
  intros xv s. split; [reflexivity|]. split; [lia|].
  assert (1 <= 3) as Hn by lia.
  pose proof incgamma_int_positive_closed_form as [H _].
  exact (H (fun t => t) 0%R 3 0%nat s xv eq_refl Hn).
Defined.

(** C8, as amended. [pochammer(a, k)] rejects nothing: in every arithmetic
    it returns a new object at the precision of [a], which for [k < 0] is
    [a] copied into it and for [k = 0] is 1; for [k > 0] it is, up to
    rounding, the rising factorial [a (a+1) ... (a+k-1)]. *)
Theorem pochammer_by_cases :
  (forall (FA : Arith) (a : obj) (k : Z) (s : state FA) (av : mpfr_t FA),
     heap s !! a = Some av ->
     exists r s' v,
       pochammer a k s = (Ok r, s') /\
       heap s' !! r = Some v /\
       mpfr_prec v = mpfr_prec av /\
       (k < 0 -> v = mpfr_set (RF_int (mpfr_prec av) 0) av) /\
       (k = 0 -> v = mpfr_set_ui (RF_int (mpfr_prec av) 0) 1)) /\
  (forall (erfc : R -> R) (euler : R)
          (res a : mpfr_t (RealArith erfc euler)) (k : Z),
     0 < k ->
     @eq R (mpfr_val (_mppochammer_mpfr res a k))
       (Rprod (zrange 0 (k - 1)) (fun i => (mpfr_val a + IZR i)%R))).
Proof.
  split.
  - intros FA a k s av Ha.
    destruct (pochammer_returns a k s av Ha) as (r & s' & Hrun & Hr).
    exists r, s', (_mppochammer_mpfr (RF_int (mpfr_prec av) 0) av k).
    split; [exact Hrun|]. split; [exact Hr|]. split; [|split].
    + now rewrite mppochammer_prec.
    + intros Hk. now apply mppochammer_negative.
    + intros ->. apply mppochammer_zero.
  - intros erfc euler res a k Hk.
    apply (mppochammer_closed_form erfc euler res a k). lia.
Qed.

Lemma pochammer_by_cases_witness :
  let av : mpfr_t FloatArith := RealNumber_of 53 2 0 in
  let s : state FloatArith := State [av] [] in
  heap s !! 0%nat = Some av /\
  mpfr_set (RF_int 53 0) av = av /\
  exists r s' v,
    pochammer 0%nat (-1) s = (Ok r, s') /\
    heap s' !! r = Some v /\
    mpfr_prec v = mpfr_prec av /\
    (-1 < 0 -> v = mpfr_set (RF_int (mpfr_prec av) 0) av) /\
    (-1 = 0 -> v = mpfr_set_ui (RF_int (mpfr_prec av) 0) 1).
Proof.
  intros av s. split; [reflexivity|]. split; [reflexivity|].
  pose proof pochammer_by_cases as [H _].
  exact (H FloatArith 0%nat (-1) s av eq_refl).
Defined.


(** ** More on the loops *)

(** A loop either runs through its range with no round breaking, or stops
    at its first breaking round. *)
Lemma for_in_break_cases {S : Type} (ks : list Z) (body : Z -> S -> S * bool)
    (k : Z) (s : S) :
  (Forall (fun r => snd r = false) (rounds ks body s) /\
   for_in_break ks body k s
   = (default k (last ks), default s (fst <$> last (rounds ks body s)))) \/
  (exists (i : nat) ki si,
     ks !! i = Some ki /\
     rounds ks body s !! i = Some (si, true) /\
     Forall (fun r => snd r = false) (take i (rounds ks body s)) /\
     for_in_break ks body k s = (ki, si)).
Proof.
  revert k s. induction ks as [|k' ks IH]; intros k s.
  - left. split; [constructor|reflexivity].
  - simpl. destruct (body k' s) as [s' b] eqn:E. destruct b.
    + right. exists 0%nat, k', s'. simpl. repeat split. constructor.
    + destruct (IH k' s') as [[HF Hrun]|(i & ki & si & Hk & Hr & HF & Hrun)].
      * left. split; [constructor; [reflexivity|exact HF]|].
        rewrite Hrun, !last_cons. cbn [fst].
        destruct (last ks); destruct (last (rounds ks body s')); reflexivity.
      * right. exists (Datatypes.S i), ki, si. simpl. repeat split; try assumption.
        constructor; [reflexivity|exact HF].
Qed.

(** Every round is one application of the body. *)
Lemma rounds_lookup_step {S : Type} (ks : list Z) (body : Z -> S -> S * bool)
    (s : S) (i : nat) r :
  rounds ks body s !! i = Some r -> exists k st, r = body k st.
Proof.
  revert s i. induction ks as [|k ks IH]; intros s i Hi; [discriminate|].
  destruct i as [|i]; simpl in Hi.
  - injection Hi as <-. eauto.
  - eapply IH. exact Hi.
Qed.

Section Outcomes.

Context {FA : Arith}.

Implicit Types res x : mpfr_t FA.

Lemma Ei_ml_round_flag x (i : nat) r :
  Ei_ml_rounds x !! i = Some r ->
  snd r = (mpfr_cmpabs (fst (fst r)) (Ei_ml_eps x) <? 0).
Proof.
  intros Hi. apply rounds_lookup_step in Hi. destruct Hi as (k & st & ->).
  apply Ei_ml_step_stop.
Qed.

Lemma ei_asymp_round_flag x (i : nat) r :
  ei_asymp_rounds x !! i = Some r ->
  snd r = (mpfr_cmpabs (fst (fst r)) (ei_asymp_eps x) <? 0).
Proof.
  intros Hi. apply rounds_lookup_step in Hi. destruct Hi as (k & st & ->).
  apply ei_asymp_step_stop.
Qed.

Lemma no_stop_terms (rs : list (mpfr_t FA * mpfr_t FA * bool))
    (eps : mpfr_t FA) :
  (forall (i : nat) r, rs !! i = Some r ->
     snd r = (mpfr_cmpabs (fst (fst r)) eps <? 0)) ->
  Forall (fun r => snd r = false) rs ->
  Forall (fun t => 0 <= mpfr_cmpabs t eps) ((fun r => fst (fst r)) <$> rs).
Proof.
  intros Hflag HF. rewrite Forall_fmap. apply Forall_lookup. intros i r Hi.
  rewrite Forall_lookup in HF. specialize (HF i r Hi).
  rewrite (Hflag i r Hi) in HF. apply Z.ltb_ge in HF. exact HF.
Qed.

(** The two ways the loop of [Ei_ml_c] ends: at its first breaking round,
    when that is not the last round, or with [ArithmeticError]. *)
Lemma Ei_ml_c_cases res x :
  match Ei_ml_c res x with
  | Ok v =>
      exists (i : nat) tmp summa,
        Z.of_nat i < nmax - 2 /\
        Ei_ml_rounds x !! i = Some (tmp, summa, true) /\
        Forall (fun r => snd r = false) (take i (Ei_ml_rounds x)) /\
        v = mpfr_set res
              (mpfr_add summa summa
                 (mpfr_const_euler (mpfr_init2 (mpfr_prec x))))
  | Raise e =>
      Forall (fun r => snd r = false)
        (take (Z.to_nat (nmax - 2)) (Ei_ml_rounds x)) /\
      exists t sm, e = ArithmeticError t sm
  end.
Proof.
  unfold Ei_ml_c.
  match goal with
  | |- context [for_in_break ?ks ?body ?k0 ?s0] =>
      destruct (for_in_break_cases ks body k0 s0)
        as [[HF Hrun]|(i & ki & si & Hk & Hr & HF & Hrun)];
      rewrite Hrun; clear Hrun
  end.
  - rewrite py_range_2_nmax_last. destruct (default _ _) as [tmp summa].
    rewrite Z.leb_refl. split; [|eauto]. now apply Forall_take.
  - destruct si as [tmp summa].
    assert (ki = 2 + Z.of_nat i /\ Z.of_nat i < nmax - 1) as [-> Hi].
    { unfold py_range, zrange in Hk. apply lookup_seqZ in Hk. split; lia. }
    destruct (nmax <=? 2 + Z.of_nat i) eqn:E.
    + apply Z.leb_le in E. split; [|eauto].
      replace (Z.to_nat (nmax - 2)) with i by lia. exact HF.
    + apply Z.leb_gt in E. exists i, tmp, summa.
      split; [lia|]. split; [exact Hr|]. split; [exact HF|reflexivity].
Qed.

(** The loop of [ei_asymp_c] ends at its first breaking round or at its
    last round, and the routine returns in both cases. *)
Lemma ei_asymp_c_cases res x :
  exists (i : nat) tmp summa b,
    ei_asymp_rounds x !! i = Some (tmp, summa, b) /\
    Forall (fun r => snd r = false) (take i (ei_asymp_rounds x)) /\
    (b = true \/ Z.of_nat i = nmax - 2) /\
    ei_asymp_c res x = Ok (mpfr_mul res summa (ei_asymp_tmp2 x)).
Proof.
  unfold ei_asymp_c.
  match goal with
  | |- context [for_in_break ?ks ?body ?k0 ?s0] =>
      destruct (for_in_break_cases ks body k0 s0)
        as [[HF Hrun]|(i & ki & si & Hk & Hr & HF & Hrun)];
      rewrite Hrun; clear Hrun
  end.
  - fold (ei_asymp_rounds x) in *.
    assert (length (ei_asymp_rounds x) = Z.to_nat (nmax - 1)) as Hlen.
    { unfold ei_asymp_rounds. rewrite rounds_length. unfold py_range.
      rewrite zrange_length. reflexivity. }
    destruct (last (ei_asymp_rounds x)) as [[[tmp summa] b]|] eqn:Elast.
    2:{ apply last_None in Elast. rewrite Elast in Hlen. discriminate. }
    rewrite last_lookup in Elast. rewrite Hlen in Elast.
    replace (Init.Nat.pred (Z.to_nat (nmax - 1))) with (Z.to_nat (nmax - 2))
      in Elast by (unfold nmax; lia).
    exists (Z.to_nat (nmax - 2)), tmp, summa, b.
    split; [exact Elast|]. split; [now apply Forall_take|]. split.
    + right. unfold nmax. lia.
    + replace (default 0 (last (py_range 1 nmax))) with (nmax - 1)
        by (vm_compute; reflexivity).
      reflexivity.
  - fold (ei_asymp_rounds x) in *. destruct si as [tmp summa].
    assert (ki = 1 + Z.of_nat i /\ Z.of_nat i < nmax - 1) as [-> Hi].
    { unfold py_range, zrange in Hk. apply lookup_seqZ in Hk.
      unfold nmax in *. split; lia. }
    exists i, tmp, summa, true.
    split; [exact Hr|]. split; [exact HF|]. split; [now left|].
    replace (nmax <=? 1 + Z.of_nat i) with false
      by (symmetry; apply Z.leb_gt; lia).
    reflexivity.
Qed.

(** X1. What [ei_asymp_c] does, in every arithmetic. It never raises: it
    returns [summa * exp(x)/x] where [summa] is the partial sum of the
    first round whose term is below [eps] or, when there is none, of the
    last round [k = 9999]. *)
Theorem ei_asymp_c_outcome res x :
  exists (i : nat) t sm,
    ei_asymp_terms x !! i = Some t /\
    ei_asymp_sums x !! i = Some sm /\
    Forall (fun t' => 0 <= mpfr_cmpabs t' (ei_asymp_eps x))
      (take i (ei_asymp_terms x)) /\
    (mpfr_cmpabs t (ei_asymp_eps x) < 0 \/ Z.of_nat i = nmax - 2) /\
    ei_asymp_c res x = Ok (mpfr_mul res sm (ei_asymp_tmp2 x)).
Proof.
  destruct (ei_asymp_c_cases res x) as (i & tmp & summa & b & Hr & HF & Hb & Hrun).
  exists i, tmp, summa. unfold ei_asymp_terms, ei_asymp_sums.
  rewrite !list_lookup_fmap, Hr.
  split; [reflexivity|]. split; [reflexivity|]. split; [|split; [|exact Hrun]].
  - rewrite <- fmap_take. apply no_stop_terms; [|exact HF].
    intros j r Hj. apply (ei_asymp_round_flag x j r).
    apply lookup_take_Some in Hj. tauto.
  - destruct Hb as [->|Hlast]; [left|now right].
    pose proof (ei_asymp_round_flag x i _ Hr) as Hflag. cbn [fst snd] in Hflag.
    symmetry in Hflag. now apply Z.ltb_lt in Hflag.
Qed.

(** X2. What [Ei_ml_c] does, in every arithmetic. It returns exactly when
    some round [k = i + 2 <= 9999] has a term below [eps]; the result is
    then the partial sum of the first such round plus Euler's constant,
    rounded into [res]. Otherwise (no term below [eps] in the rounds up to
    [k = 9999], whatever round [k = 10000] does) it raises
    [ArithmeticError]. *)
Theorem Ei_ml_c_outcome res x :
  match Ei_ml_c res x with
  | Ok v =>
      exists (i : nat) t sm,
        Z.of_nat i < nmax - 2 /\
        Ei_ml_terms x !! i = Some t /\
        Ei_ml_sums x !! i = Some sm /\
        mpfr_cmpabs t (Ei_ml_eps x) < 0 /\
        Forall (fun t' => 0 <= mpfr_cmpabs t' (Ei_ml_eps x))
          (take i (Ei_ml_terms x)) /\
        v = mpfr_set res
              (mpfr_add sm sm (mpfr_const_euler (mpfr_init2 (mpfr_prec x))))
  | Raise e =>
      Forall (fun t' => 0 <= mpfr_cmpabs t' (Ei_ml_eps x))
        (take (Z.to_nat (nmax - 2)) (Ei_ml_terms x)) /\
      exists t sm, e = ArithmeticError t sm
  end.
Proof.
  assert (forall n : nat,
            Forall (fun r => snd r = false) (take n (Ei_ml_rounds x)) ->
            Forall (fun t' => 0 <= mpfr_cmpabs t' (Ei_ml_eps x))
              (take n (Ei_ml_terms x))) as Hterms.
  { intros n HF. unfold Ei_ml_terms. rewrite <- fmap_take.
    apply no_stop_terms; [|exact HF].
    intros j r Hj. apply (Ei_ml_round_flag x j r).
    apply lookup_take_Some in Hj. tauto. }
  pose proof (Ei_ml_c_cases res x) as H.
  destruct (Ei_ml_c res x) as [v|e].
  - destruct H as (i & tmp & summa & Hi & Hr & HF & ->).
    exists i, tmp, summa. split; [exact Hi|].
    unfold Ei_ml_terms at 1. unfold Ei_ml_sums.
    rewrite !list_lookup_fmap, Hr.
    split; [reflexivity|]. split; [reflexivity|]. split.
    + pose proof (Ei_ml_round_flag x i _ Hr) as Hflag.
      cbn [fst snd] in Hflag. symmetry in Hflag. now apply Z.ltb_lt in Hflag.
    + split; [now apply Hterms|reflexivity].
  - destruct H as [HF He]. split; [now apply Hterms|exact He].
Qed.

End Outcomes.

(** ** The entry points on the store *)

Ltac frame_step :=
  first
    [ apply keeps_new_bind; intros ? ?
    | apply keeps_bind; [|intros ?]
    | apply keeps_ret | apply keeps_raise | apply keeps_lift
    | apply keeps_print | apply keeps_get_value | apply keeps_new
    | apply keeps_set_value; congruence ].

Section EntryPoints.

Context {FA : Arith}.

Implicit Types res x xv a : mpfr_t FA.

(** A call that allocates its result, hands it to a total [cdef] routine
    and returns it. *)
Lemma ei_asymp_run (x : obj) s xv :
  heap s !! x = Some xv ->
  ei_asymp x s
  = match ei_asymp_c (RF_int (mpfr_prec xv) 0) xv with
    | Ok v => (Ok (length (heap s)), State (heap s ++ [v]) (stdout s))
    | Raise e =>
        (Raise e, State (heap s ++ [RF_int (mpfr_prec xv) 0]) (stdout s))
    end.
Proof.
  intros Hx. unfold ei_asymp. run_M. rewrite (get_value_in _ _ _ Hx). run_M.
  erewrite get_value_in by apply heap_new_lookup.
  destruct (ei_asymp_c _ _); run_M; [|reflexivity].
  now rewrite heap_new_overwrite.
Qed.

Lemma Ei_ml_run (x : obj) s xv :
  heap s !! x = Some xv ->
  Ei_ml x s
  = match Ei_ml_c (RF_int (mpfr_prec xv) 0) xv with
    | Ok v => (Ok (length (heap s)), State (heap s ++ [v]) (stdout s))
    | Raise e =>
        (Raise e, State (heap s ++ [RF_int (mpfr_prec xv) 0]) (stdout s))
    end.
Proof.
  intros Hx. unfold Ei_ml. run_M. rewrite (get_value_in _ _ _ Hx). run_M.
  erewrite get_value_in by apply heap_new_lookup.
  destruct (Ei_ml_c _ _); run_M; [|reflexivity].
  now rewrite heap_new_overwrite.
Qed.

Lemma ei_taylor_run (x : obj) s xv :
  heap s !! x = Some xv ->
  ei_taylor x s
  = match Ei_ml_c (RF_int (mpfr_prec xv) 0) xv with
    | Ok v =>
        (Ok (length (heap s)),
         State (<[x := mpfr_abs xv xv]>
                  (heap s ++ [mpfr_add v v (mpfr_log (mpfr_init2 (mpfr_prec xv))
                                              (mpfr_abs xv xv))]))
               (stdout s))
    | Raise e =>
        (Raise e, State (heap s ++ [RF_int (mpfr_prec xv) 0]) (stdout s))
    end.
Proof.
  intros Hx. unfold ei_taylor. run_M. rewrite (get_value_in _ _ _ Hx). run_M.
  erewrite get_value_in by apply heap_new_lookup. unfold ei_taylor_c.
  destruct (Ei_ml_c _ _); cbn [rbind]; run_M; [|reflexivity].
  now rewrite heap_new_overwrite.
Qed.


Lemma Ei_ml_c_raise_kind res x e :
  Ei_ml_c res x = Raise e -> exists t sm, e = ArithmeticError t sm.
Proof.
  intros E. pose proof (Ei_ml_c_cases res x) as H. rewrite E in H.
  now destruct H as [_ H].
Qed.

(** X3. [ei_asymp(x)] returns for every [x], in every arithmetic: the new
    object takes the next free address, has the precision of [x] and holds
    what [ei_asymp_c] computes; nothing else in the store changes and
    nothing is printed. *)
Theorem ei_asymp_returns (x : obj) s xv :
  heap s !! x = Some xv ->
  exists v,
    ei_asymp_c (RF_int (mpfr_prec xv) 0) xv = Ok v /\
    mpfr_prec v = mpfr_prec xv /\
    ei_asymp x s = (Ok (length (heap s)), State (heap s ++ [v]) (stdout s)).
Proof.
  intros Hx. rewrite (ei_asymp_run x s xv Hx).
  destruct (ei_asymp_c_never_raises (RF_int (mpfr_prec xv) 0) xv) as [v Hv].
  exists v. rewrite Hv. split; [reflexivity|]. split; [|reflexivity].
  apply ei_asymp_c_prec in Hv. exact Hv.
Qed.

(** X4. No entry point but [ei_taylor] writes to an object that exists
    when it is called: whatever the outcome (a result or an exception),
    every object [y] of the store holds afterwards what it held before. *)
Theorem entry_points_keep_the_store (x y : obj) (n verbose : Z) :
  keeps y (incgamma_int n x) /\
  keeps y (ei_asymp x) /\
  keeps y (Ei_ml x) /\
  keeps y (ei x verbose) /\
  keeps y (incgamma_hint n x) /\
  keeps y (incgamma_phint n x) /\
  keeps y (incgamma_nhint n x) /\
  keeps y (pochammer x n).
Proof.
  repeat split.
  - unfold incgamma_int.
    apply keeps_bind; [apply keeps_get_value|intros xv].
    apply keeps_new_bind; intros res Hres.
    apply keeps_bind; [apply keeps_get_value|intros resv].
    destruct (0 <? n); repeat frame_step.
  - unfold ei_asymp. repeat frame_step.
  - unfold Ei_ml. repeat frame_step.
  - unfold ei, ei_xabs, ei_rh, integer_part, to_c_int.
    frame_step; [frame_step|].
    frame_step.
    { frame_step; [destruct (num_trunc _); frame_step|].
      destruct (_ && _); frame_step. }
    frame_step.
    { frame_step; [destruct (num_trunc _); frame_step|].
      destruct (_ && _); frame_step. }
    destruct (_ <? _).
    + unfold ei_asymp_branch.
      frame_step; [destruct (0 <? verbose); frame_step|].
      frame_step. frame_step; [apply ei_asymp_keeps|]. repeat frame_step.
    + unfold ei_taylor_branch.
      frame_step; [destruct (0 <? verbose); frame_step|].
      frame_step. frame_step; [now apply ei_taylor_keeps|]. repeat frame_step.
  - unfold incgamma_hint. repeat frame_step.
  - unfold incgamma_phint. repeat frame_step.
  - unfold incgamma_nhint. repeat frame_step.
  - unfold pochammer. repeat frame_step.
Qed.

(** *** The half-integer entry points *)

(** What [incgamma_phint_c] and [incgamma_nhint_c] leave in [res] for
    [n >= 0] depends on the precision of [res] only, not on what it
    held. *)
Lemma incgamma_phint_c_overwrites res res' (n : Z) x :
  0 <= n -> mpfr_prec res = mpfr_prec res' ->
  incgamma_phint_c res n x = incgamma_phint_c res' n x.
Proof.
  intros Hn Hp. unfold incgamma_phint_c.
  replace (n <? 0) with false by (symmetry; apply Z.ltb_ge; lia).
  destruct (for_from _ _ _ _) as [[term summa] tmp].
  unfold mpfr_set, assign. now rewrite Hp.
Qed.

Lemma incgamma_nhint_c_overwrites res res' (n : Z) x :
  0 <= n -> mpfr_prec res = mpfr_prec res' ->
  incgamma_nhint_c res n x = incgamma_nhint_c res' n x.
Proof.
  intros Hn Hp. unfold incgamma_nhint_c.
  replace (n <? 0) with false by (symmetry; apply Z.ltb_ge; lia).
  destruct (for_from _ _ _ _) as [[tmp2 summa] tmp].
  unfold mpfr_set, assign. now rewrite Hp.
Qed.

Lemma hint_run (f : mpfr_t FA -> Z -> mpfr_t FA -> mpfr_t FA) (k n : Z)
    (x : obj) s xv :
  heap s !! x = Some xv ->
  (xv0 ← get_value x;
   res ← new_RealNumber (RF_int (mpfr_prec xv0) k);
   resv ← get_value res;
   set_value res (f resv n xv0);; mret res) s
  = (Ok (length (heap s)),
     State (heap s ++ [f (RF_int (mpfr_prec xv) k) n xv]) (stdout s)).
Proof.
  intros Hx. run_M. rewrite (get_value_in _ _ _ Hx). run_M.
  erewrite get_value_in by apply heap_new_lookup. run_M.
  now rewrite heap_new_overwrite.
Qed.

(** X5. [incgamma_hint(n, x)] returns for every [n] of the C [int] range
    above [INT_MIN], in every arithmetic, a new object of the precision of
    [x], and nothing else in the store changes. For [n > 0] it is the
    object [incgamma_phint(n, x)] returns, for [n < 0] the one
    [incgamma_nhint(-n, x)] returns, although those two start from a result
    holding 1 and [incgamma_hint] from one holding 0. *)
Theorem incgamma_hint_dispatch (n : Z) (x : obj) s xv :
  heap s !! x = Some xv ->
  - INT_MAX <= n <= INT_MAX ->
  exists v,
    mpfr_prec v = mpfr_prec xv /\
    incgamma_hint n x s
    = (Ok (length (heap s)), State (heap s ++ [v]) (stdout s)) /\
    (0 < n -> incgamma_phint n x s = incgamma_hint n x s) /\
    (n < 0 -> incgamma_nhint (- n) x s = incgamma_hint n x s).
Proof.
  intros Hx Hn. unfold incgamma_hint, incgamma_phint, incgamma_nhint.
  rewrite (hint_run incgamma_hint_c 0 n x s xv Hx).
  rewrite (hint_run incgamma_phint_c 1 n x s xv Hx).
  rewrite (hint_run incgamma_nhint_c 1 (- n) x s xv Hx).
  eexists. split; [|split; [reflexivity|split]].
  - rewrite incgamma_hint_c_prec. reflexivity.
  - intros Hpos. do 4 f_equal. unfold incgamma_hint_c.
    replace (0 <? n) with true by (symmetry; apply Z.ltb_lt; lia).
    apply incgamma_phint_c_overwrites; [lia|reflexivity].
  - intros Hneg. do 4 f_equal. unfold incgamma_hint_c.
    replace (0 <? n) with false by (symmetry; apply Z.ltb_ge; lia).
    replace (n <? 0) with true by (symmetry; apply Z.ltb_lt; lia).
    rewrite c_int_small by (unfold INT_MAX in Hn; lia).
    apply incgamma_nhint_c_overwrites; [lia|reflexivity].
Qed.

(** X6. [incgamma_phint(n, x)] and [incgamma_nhint(n, x)] with [n < 0]: the
    [assert n>=0] of the [cdef void] routine fails, the routine returns
    without an exception reaching the caller, and the call returns the
    object it was allocated with, which holds 1. *)
Theorem half_integer_routines_ignore_negative_n (n : Z) (x : obj) s xv :
  heap s !! x = Some xv ->
  n < 0 ->
  let one := RF_int (mpfr_prec xv) 1 in
  incgamma_phint n x s
  = (Ok (length (heap s)), State (heap s ++ [one]) (stdout s)) /\
  incgamma_nhint n x s
  = (Ok (length (heap s)), State (heap s ++ [one]) (stdout s)).
Proof.
  intros Hx Hn one. unfold incgamma_phint, incgamma_nhint.
  rewrite (hint_run incgamma_phint_c 1 n x s xv Hx).
  rewrite (hint_run incgamma_nhint_c 1 n x s xv Hx).
  unfold incgamma_phint_c, incgamma_nhint_c.
  replace (n <? 0) with true by (symmetry; apply Z.ltb_lt; lia).
  split; reflexivity.
Qed.

(** *** [_mppochammer_mpfr] *)

Lemma mppochammer_loop_tmp res a (k : Z) :
  mpfr_prec (snd (for_from 1 k (mppochammer_step a)
                    (mpfr_set res a, mpfr_init2 (mpfr_prec a))))
  = mpfr_prec a.
Proof.
  apply (for_from_invariant (fun st => mpfr_prec (snd st) = mpfr_prec a)).
  - reflexivity.
  - intros j [r t] _ H. exact H.
Qed.

(** X7. The recurrence of the rising factorial, in every arithmetic: for
    [k >= 1], [_mppochammer_mpfr(res, a, k + 1)] is
    [_mppochammer_mpfr(res, a, k)] multiplied by [a + k], the sum rounded
    to the precision of [a] and the product to that of [res]. *)
Theorem mppochammer_recurrence res a (k : Z) :
  1 <= k ->
  let r := _mppochammer_mpfr res a k in
  _mppochammer_mpfr res a (k + 1)
  = mpfr_mul r r (mpfr_add_ui (mpfr_init2 (mpfr_prec a)) a k).
Proof.
  intros Hk r. subst r. unfold _mppochammer_mpfr, mpfr_get_prec.
  replace (k + 1 =? 0) with false by (symmetry; apply Z.eqb_neq; lia).
  replace (k =? 0) with false by (symmetry; apply Z.eqb_neq; lia).
  replace (k + 1 - 1) with k by lia. rewrite (for_from_snoc 1 k) by lia.
  pose proof (mppochammer_loop_tmp res a (k - 1)) as Ht.
  destruct (for_from 1 (k - 1) _ _) as [r [pt vt]]. cbn [fst snd mpfr_prec] in Ht.
  subst pt. reflexivity.
Qed.

(** *** [ei] *)

Lemma ei_xabs_run xv s :
  exists out,
    ei_xabs xv s = (out, s) /\
    match out with
    | Ok _ => True
    | Raise e => e = ValueError \/ e = OverflowError
    end.
Proof.
  unfold ei_xabs, integer_part, to_c_int. run_M.
  destruct (num_trunc _) as [ip|]; run_M.
  - destruct (_ && _); run_M; eexists; (split; [reflexivity|cbn; auto]).
  - eexists; (split; [reflexivity|cbn; auto]).
Qed.

Lemma ei_rh_run xv s :
  exists out,
    ei_rh xv s = (out, s) /\
    match out with
    | Ok _ => True
    | Raise e => e = ValueError \/ e = OverflowError
    end.
Proof.
  unfold ei_rh, integer_part, to_c_int. run_M.
  destruct (num_trunc _) as [ip|]; run_M.
  - destruct (_ && _); run_M; eexists; (split; [reflexivity|cbn; auto]).
  - eexists; (split; [reflexivity|cbn; auto]).
Qed.

Lemma ei_asymp_branch_run xv (wp verbose : Z) s :
  exists r s' v,
    ei_asymp_branch xv wp verbose s = (Ok r, s') /\
    heap s `prefix_of` heap s' /\
    (length (heap s) <= r)%nat /\
    heap s' !! r = Some v /\
    mpfr_prec v = mpfr_prec xv.
Proof.
  unfold ei_asymp_branch.
  destruct (0 <? verbose); run_M; unfold print; cbn [heap stdout];
    (erewrite ei_asymp_run by apply heap_new_lookup);
    match goal with
    | |- context [ei_asymp_c ?res ?c] =>
        destruct (ei_asymp_c_never_raises res c) as [v Hv]; rewrite Hv
    end;
    cbn [heap stdout];
    (erewrite get_value_in by apply heap_new_lookup);
    do 3 eexists; (split; [reflexivity|]); cbn [heap];
    (split; [eexists; rewrite <- !app_assoc; reflexivity|]);
    (split; [rewrite !length_app; lia|]);
    (split; [apply heap_new_lookup|reflexivity]).
Qed.

Lemma ei_taylor_branch_run xv (wp xabs verbose : Z) s :
  match ei_taylor_branch xv wp xabs verbose s with
  | (Ok r, s') =>
      heap s `prefix_of` heap s' /\
      (length (heap s) <= r)%nat /\
      exists v, heap s' !! r = Some v /\ mpfr_prec v = mpfr_prec xv
  | (Raise e, s') =>
      heap s `prefix_of` heap s' /\ exists t sm, e = ArithmeticError t sm
  end.
Proof.
  unfold ei_taylor_branch.
  destruct (0 <? verbose); run_M; unfold print; cbn [heap stdout];
    (erewrite ei_taylor_run by apply heap_new_lookup);
    match goal with
    | |- context [Ei_ml_c ?res ?c] =>
        destruct (Ei_ml_c res c) as [v|e] eqn:E
    end;
    cbn [heap stdout].
  all: try (split; [eexists; rewrite <- !app_assoc; reflexivity|];
            eapply Ei_ml_c_raise_kind; exact E).
  all: match goal with
       | |- context [<[length ?h := ?a]> ((?h ++ [?c]) ++ [?w])] =>
           rewrite (insert_app_l (h ++ [c]) [w])
             by (rewrite length_app; cbn; lia);
           rewrite heap_new_overwrite;
           replace (length (h ++ [c])) with (length (h ++ [a]))
             by (rewrite !length_app; reflexivity)
       end;
    (erewrite get_value_in by apply heap_new_lookup);
    cbn [heap];
    (split; [eexists; rewrite <- !app_assoc; reflexivity|]);
    (split; [rewrite !length_app; lia|]);
    eexists; (split; [apply heap_new_lookup|reflexivity]).
Qed.

Lemma ei_asymp_branch_value xv (wp verbose : Z) s :
  exists r s' v0,
    ei_asymp_branch xv wp verbose s = (Ok r, s') /\
    ei_asymp_c (RF_int wp 0) (RF_real wp xv) = Ok v0 /\
    heap s' !! r = Some (RF_real (mpfr_prec xv) v0).
Proof.
  unfold ei_asymp_branch.
  destruct (ei_asymp_c_never_raises (RF_int wp 0) (RF_real wp xv)) as [v Hv].
  destruct (0 <? verbose); run_M; unfold print; cbn [heap stdout];
    (erewrite ei_asymp_run by apply heap_new_lookup);
    change (mpfr_prec (RF_real wp xv)) with wp; rewrite Hv;
    cbn [heap stdout];
    (erewrite get_value_in by apply heap_new_lookup);
    do 3 eexists; (split; [reflexivity|]); (split; [reflexivity|]);
    cbn [heap]; apply heap_new_lookup.
Qed.

Lemma ei_taylor_branch_value xv (wp xabs verbose : Z) s :
  let p' := c_int (wp + 2 * xabs) in
  let xc := RF_real p' xv in
  match Ei_ml_c (RF_int p' 0) xc with
  | Ok v0 =>
      exists r s',
        ei_taylor_branch xv wp xabs verbose s = (Ok r, s') /\
        heap s' !! r
        = Some (RF_real (mpfr_prec xv)
                  (mpfr_add v0 v0 (mpfr_log (mpfr_init2 p') (mpfr_abs xc xc))))
  | Raise e => exists s', ei_taylor_branch xv wp xabs verbose s = (Raise e, s')
  end.
Proof.
  intros p' xc. unfold ei_taylor_branch. fold p'. fold xc.
  destruct (Ei_ml_c (RF_int p' 0) xc) as [v0|e] eqn:E;
    destruct (0 <? verbose); run_M; unfold print; cbn [heap stdout];
    (erewrite ei_taylor_run by apply heap_new_lookup);
    change (mpfr_prec xc) with p'; rewrite E; cbn [heap stdout].
  3,4: eexists; reflexivity.
  all: match goal with
       | |- context [<[length ?h := ?a]> ((?h ++ [?c]) ++ [?w])] =>
           rewrite (insert_app_l (h ++ [c]) [w])
             by (rewrite length_app; cbn; lia);
           rewrite heap_new_overwrite;
           replace (length (h ++ [c])) with (length (h ++ [a]))
             by (rewrite !length_app; reflexivity)
       end;
    (erewrite get_value_in by apply heap_new_lookup);
    do 2 eexists; (split; [reflexivity|]); cbn [heap]; apply heap_new_lookup.
Qed.

(** X8. What a call of [ei] can do, in every arithmetic. It returns a new
    object of the precision of [x], or raises [ValueError] or
    [OverflowError] (from the conversions to C [int]) or [ArithmeticError]
    (from the Taylor loop) and nothing else; either way the objects that
    existed before the call are as they were. *)
Theorem ei_outcome (x : obj) (verbose : Z) s xv :
  heap s !! x = Some xv ->
  match ei x verbose s with
  | (Ok r, s') =>
      heap s `prefix_of` heap s' /\
      (length (heap s) <= r)%nat /\
      exists v, heap s' !! r = Some v /\ mpfr_prec v = mpfr_prec xv
  | (Raise e, s') =>
      heap s `prefix_of` heap s' /\
      (e = ValueError \/ e = OverflowError \/
       exists t sm, e = ArithmeticError t sm)
  end.
Proof.
  intros Hx. unfold ei. run_M. rewrite (get_value_in _ _ _ Hx).
  destruct (ei_xabs_run xv s) as ([xabs|e1] & E1 & K1); rewrite E1.
  2:{ split; [reflexivity|tauto]. }
  destruct (ei_rh_run xv s) as ([rh|e2] & E2 & K2); rewrite E2.
  2:{ split; [reflexivity|tauto]. }
  destruct (rh <? xabs).
  - destruct (ei_asymp_branch_run xv (ei_wp xv) verbose s)
      as (r & s' & v & -> & H1 & H2 & H3 & H4).
    eauto.
  - pose proof (ei_taylor_branch_run xv (ei_wp xv) xabs verbose s) as H.
    destruct (ei_taylor_branch xv (ei_wp xv) xabs verbose s) as [[r|e] s'].
    + exact H.
    + destruct H as [H1 H2]. split; [exact H1|]. right. right. exact H2.
Qed.

(** X9. [ei] converts the integer part of [x] to a C [int] before it
    chooses a regime: for an [x] that has no integer part (NaN or an
    infinity) it raises [ValueError], for one whose integer part exceeds
    [INT_MAX] in magnitude it raises [OverflowError]; in both cases nothing
    is allocated or printed. *)
Theorem ei_rejects_what_is_no_c_int (x : obj) (verbose : Z) s xv :
  heap s !! x = Some xv ->
  match num_trunc (mpfr_val xv) with
  | None => ei x verbose s = (Raise ValueError, s)
  | Some ip => INT_MAX < Z.abs ip -> ei x verbose s = (Raise OverflowError, s)
  end.
Proof.
  intros Hx. unfold ei, ei_xabs, integer_part, to_c_int. run_M.
  rewrite (get_value_in _ _ _ Hx).
  destruct (num_trunc (mpfr_val xv)) as [ip|]; run_M; [|reflexivity].
  intros Hbig.
  replace (Z.abs ip <=? INT_MAX) with false by (symmetry; apply Z.leb_gt; lia).
  rewrite andb_false_r. reflexivity.
Qed.


End EntryPoints.

(** ** The series in arithmetic without rounding *)

Lemma R_cmp_lt (a b : R) : R_cmp a b < 0 -> (a < b)%R.
Proof.
  unfold R_cmp. destruct (Rlt_dec a b); [auto|].
  destruct (Rlt_dec b a); lia.
Qed.

Section RealSeries.

Variable erfc : R -> R.
Variable euler : R.

Let RA : Arith := RealArith erfc euler.
#[local] Existing Instance RA.

Implicit Types res x a : mpfr_t RA.

Lemma of_int_IZR (k : Z) : of_int k = IZR k.
Proof. apply R_of_dyadic_int. Qed.

(** The asymptotic loop of [ei_asymp_c]: after round [k] the term is
    [k! / x^k] and the sum is [sum_{j=0}^{k} j! / x^j]. *)
Lemma ei_asymp_rounds_closed_form x (i : nat) r :
  ei_asymp_rounds x !! i = Some r ->
  let v : R := mpfr_val x in
  let k := 1 + Z.of_nat i in
  mpfr_val (fst (fst r)) = (Zfact k * Rpowz (/ v) k)%R /\
  mpfr_val (snd (fst r))
    = Rsum (zrange 0 k) (fun j => (Zfact j * Rpowz (/ v) j)%R).
Proof.
  intros Hi v k. unfold ei_asymp_rounds, py_range, zrange in Hi.
  replace (nmax - 1 - 1 + 1) with (Z.of_nat (Z.to_nat (nmax - 1))) in Hi
    by (unfold nmax; lia).
  revert Hi.
  apply (rounds_invariant
           (fun (k : Z) (st : mpfr_t RA * mpfr_t RA) =>
              0 <= k /\
              @eq R (mpfr_val (fst st)) (Zfact k * Rpowz (/ v) k)%R /\
              @eq R (mpfr_val (snd st))
                (Rsum (zrange 0 k) (fun j => (Zfact j * Rpowz (/ v) j)%R)))).
  - split; [lia|]. change (1 - 1) with 0. rewrite zrange_single.
    cbn -[of_int]. rewrite of_int_IZR. unfold Rpowz, Zfact. simpl.
    split; as_R; lra.
  - intros j [tmp summa] Hj (Hge & Ht & Hs). cbn [fst snd] in *.
    split; [lia|].
    rewrite (zrange_snoc 0 j) by lia. rewrite Rsum_snoc.
    assert (Zfact j = IZR j * Zfact (j - 1))%R as Hfj.
    { replace j with (j - 1 + 1) at 1 2 by lia. apply Zfact_succ. lia. }
    assert (Rpowz (/ v) j = Rpowz (/ v) (j - 1) * / v)%R as Hpj.
    { replace j with (j - 1 + 1) at 1 by lia. apply Rpowz_succ. lia. }
    rewrite Hfj, Hpj.
    cbn [ei_asymp_step ei_asymp_r RF_int mpfr_set_si mpfr_init2 mpfr_get_prec
         fst snd mpfr_mul mpfr_mul_ui mpfr_div mpfr_add assign
         mpfr_val mpfr_prec fl_mul fl_div fl_add fl_set RA RealArith].
    rewrite !of_int_IZR.
    change (@mpfr_val (RealArith erfc euler)) with (@mpfr_val RA).
    rewrite Ht, Hs. change (@mpfr_val RA x) with v.
    split; as_R; unfold Rdiv; ring.
Qed.

(** X11. In arithmetic without rounding the Taylor loop of [Ei_ml_c] holds,
    at every round [k = 2, ..., 10000], the term [x^k / (k k!)] and the
    partial sum [sum_{j=1}^{k} x^j / (j j!)]. *)
Theorem Ei_ml_series_closed_form x (i : nat) :
  Z.of_nat i < nmax - 1 ->
  let v : R := mpfr_val x in
  let k := 2 + Z.of_nat i in
  exists t sm,
    Ei_ml_terms x !! i = Some t /\
    Ei_ml_sums x !! i = Some sm /\
    mpfr_val t = (Rpowz v k / (IZR k * Zfact k))%R /\
    mpfr_val sm = Rsum (zrange 1 k) (fun j => (Rpowz v j / (IZR j * Zfact j))%R).
Proof.
  intros Hi v k.
  destruct (lookup_lt_is_Some_2 (Ei_ml_rounds x) i) as [r Hr].
  { rewrite Ei_ml_rounds_length. lia. }
  pose proof (Ei_ml_rounds_closed_form erfc euler x i r Hr) as [Ht Hs].
  exists (fst (fst r)), (snd (fst r)). unfold Ei_ml_terms, Ei_ml_sums.
  rewrite !list_lookup_fmap, Hr. repeat split; assumption.
Qed.

(** The values [Ei_ml_c] and [ei_taylor_c] return. *)
Lemma taylor_routines_value res x :
  let v : R := mpfr_val x in
  let series (k : Z) : R :=
    Rsum (zrange 1 k) (fun j => (Rpowz v j / (IZR j * Zfact j))%R) in
  match Ei_ml_c res x with
  | Ok r =>
      exists k,
        2 <= k < nmax /\
        (Rabs (Rpowz v k / (IZR k * Zfact k))
         < Rabs (mpfr_val (Ei_ml_eps x)))%R /\
        mpfr_val r = (series k + euler)%R /\
        exists r' x',
          ei_taylor_c res x = Ok (r', x') /\
          mpfr_val r' = (series k + euler + ln (Rabs v))%R /\
          mpfr_val x' = Rabs v
  | Raise e => ei_taylor_c res x = Raise e
  end.
Proof.
  intros v series. unfold ei_taylor_c.
  pose proof (Ei_ml_c_cases res x) as H.
  destruct (Ei_ml_c res x) as [r|e]; [|reflexivity].
  destruct H as (i & tmp & summa & Hi & Hr & _ & ->).
  pose proof (Ei_ml_round_flag x i _ Hr) as Hlt. cbn [fst snd] in Hlt.
  symmetry in Hlt. apply Z.ltb_lt in Hlt.
  remember (tmp, summa, true) as rd eqn:Hrd.
  assert (tmp = fst (fst rd) /\ summa = snd (fst rd)) as [-> ->]
    by (subst rd; split; reflexivity).
  clear Hrd.
  pose proof (Ei_ml_rounds_closed_form erfc euler x i rd Hr) as [Et Es].
  assert (@eq R (mpfr_val (fst (fst rd)))
            (Rpowz v (2 + Z.of_nat i)
             / (IZR (2 + Z.of_nat i) * Zfact (2 + Z.of_nat i)))%R) as Et'
    by exact Et.
  assert (@eq R (mpfr_val (snd (fst rd))) (series (2 + Z.of_nat i))) as Es'
    by exact Es.
  clear Et Es.
  exists (2 + Z.of_nat i). split; [unfold nmax in *; lia|]. split; [|split].
  - assert (Rabs (mpfr_val (fst (fst rd))) < Rabs (mpfr_val (Ei_ml_eps x)))%R
      as Hlt' by (apply R_cmp_lt; exact Hlt).
    rewrite Et' in Hlt'. exact Hlt'.
  - rewrite <- Es'. reflexivity.
  - do 2 eexists. split; [reflexivity|]. rewrite <- Es'. split; reflexivity.
Qed.

(** The value [ei_asymp_c] returns. *)
Lemma ei_asymp_c_value res x :
  let v : R := mpfr_val x in
  exists k r,
    1 <= k < nmax /\
    ei_asymp_c res x = Ok r /\
    mpfr_val r
    = (Rsum (zrange 0 k) (fun j => (Zfact j * Rpowz (/ v) j)%R)
       * (exp v * / v))%R.
Proof.
  intros v.
  destruct (ei_asymp_c_cases res x) as (i & tmp & summa & b & Hr & _ & _ & Hrun).
  remember (tmp, summa, b) as rd eqn:Hrd.
  assert (summa = snd (fst rd)) as -> by (subst rd; reflexivity).
  clear Hrd.
  pose proof (ei_asymp_rounds_closed_form x i rd Hr) as [_ Es].
  cbv zeta in Es. fold v in Es.
  assert (i < Z.to_nat (nmax - 1))%nat as Hi.
  { apply lookup_lt_Some in Hr. unfold ei_asymp_rounds in Hr.
    rewrite rounds_length in Hr. unfold py_range in Hr.
    rewrite zrange_length in Hr. exact Hr. }
  exists (1 + Z.of_nat i), (mpfr_mul res (snd (fst rd)) (ei_asymp_tmp2 x)).
  split; [unfold nmax in *; lia|]. split; [exact Hrun|].
  cbn -[of_int]. rewrite of_int_IZR.
  change (@mpfr_val (RealArith erfc euler)) with (@mpfr_val RA).
  rewrite Es. change (@mpfr_val RA x) with v. unfold Rdiv. as_R. lra.
Qed.

(** The loop of [incgamma_nhint_c] after [m] rounds ([j = 0, ..., m-1]):
    [summa] is the sum of [tmp0 x^j / Pochhammer(1/2 - n, j + 1)] and
    [tmp] is [tmp0 x^m]. *)
Lemma incgamma_nhint_loop half_m_n x (m : nat) tmp20 tmp0 :
  let p := mpfr_prec x in
  let v : R := mpfr_val x in
  let h : R := mpfr_val half_m_n in
  let t0 : R := mpfr_val tmp0 in
  let st := for_from 0 (Z.of_nat m - 1) (incgamma_nhint_step half_m_n x)
              (tmp20, mpfr_set_si (mpfr_init2 p) 0, tmp0) in
  mpfr_val (snd (fst st))
    = Rsum (zrange 0 (Z.of_nat m - 1))
        (fun j => (t0 * Rpowz v j / Rpochhammer h (j + 1))%R) /\
  mpfr_val (snd st) = (t0 * Rpowz v (Z.of_nat m))%R.
Proof.
  intros p v h t0 st. subst st. induction m as [|m IH].
  - rewrite for_from_empty, zrange_empty by lia.
    cbn -[of_int]. rewrite !of_int_IZR. unfold Rpowz. simpl.
    subst t0. split; as_R; lra.
  - rewrite for_from_snoc by lia.
    replace (Z.of_nat (S m) - 1 - 1) with (Z.of_nat m - 1) by lia.
    destruct (for_from 0 (Z.of_nat m - 1) _ _) as [[tmp2 summa] tmp].
    cbn [fst snd] in IH. destruct IH as [Hs Ht].
    rewrite (zrange_snoc 0 (Z.of_nat (S m) - 1)) by lia. rewrite Rsum_snoc.
    replace (Z.of_nat (S m) - 1 - 1) with (Z.of_nat m - 1) by lia.
    replace (Z.of_nat (S m) - 1) with (Z.of_nat m) by lia.
    replace (Z.of_nat (S m)) with (Z.of_nat m + 1) by lia.
    rewrite Rpowz_succ by lia.
    cbn [incgamma_nhint_step fst snd mpfr_div mpfr_mul mpfr_add assign mpfr_val
         mpfr_prec fl_div fl_mul fl_add RA RealArith].
    rewrite (mppochammer_closed_form erfc euler) by lia.
    change (@mpfr_val (RealArith erfc euler)) with (@mpfr_val RA).
    rewrite Hs, Ht. subst v h t0. split; as_R; lra.
Qed.

(** What [incgamma_nhint_c] computes for [n >= 0]. *)
Lemma incgamma_nhint_c_value res (n : Z) x :
  0 <= n ->
  let v : R := mpfr_val x in
  let h : R := (/ 2 - IZR n)%R in
  let summa :=
    Rsum (zrange 0 (n - 1))
      (fun j => (Rpower v h * Rpowz v j / Rpochhammer h (j + 1))%R) in
  let s : R := if n mod 2 =? 1 then (-1)%R else 1%R in
  mpfr_val (incgamma_nhint_c res n x)
  = (s * (sqrt PI * erfc (sqrt v)) / Rpochhammer (/ 2) n
     - exp (- v) * summa)%R.
Proof.
  intros Hn v h summa s. unfold incgamma_nhint_c.
  replace (n <? 0) with false by (symmetry; apply Z.ltb_ge; lia).
  unfold mpfr_get_prec.
  set (half := mpfr_div_ui _ _ 2).
  set (half_m_n := mpfr_sub_si _ half n).
  assert (mpfr_val half = (/ 2)%R) as Hhalf.
  { subst half. cbn -[of_int]. rewrite !of_int_IZR. as_R. lra. }
  assert (mpfr_val half_m_n = h) as Hh.
  { subst half_m_n. cbn -[of_int half]. rewrite of_int_IZR.
    change (@mpfr_val (RealArith erfc euler)) with (@mpfr_val RA).
    rewrite Hhalf. reflexivity. }
  set (tmp0 := mpfr_pow _ x half_m_n).
  assert (mpfr_val tmp0 = Rpower v h) as Ht0.
  { subst tmp0. cbn -[half_m_n].
    change (@mpfr_val (RealArith erfc euler)) with (@mpfr_val RA).
    rewrite Hh. reflexivity. }
  pose proof (incgamma_nhint_loop half_m_n x (Z.to_nat n)
                (mpfr_init2 (mpfr_prec x)) tmp0) as H.
  rewrite Z2Nat.id in H by lia. cbv zeta in H.
  destruct (for_from 0 (n - 1) _ _) as [[tmp2 summa'] tmp].
  cbn [fst snd] in H. destruct H as [Hs _]. rewrite Hh, Ht0 in Hs.
  assert (@eq R (mpfr_val (_mppochammer_mpfr tmp2 half n))
            (Rpochhammer (/ 2) n)) as Hp.
  { rewrite <- Hhalf. exact (mppochammer_closed_form erfc euler tmp2 half n Hn). }
  remember (_mppochammer_mpfr tmp2 half n) as pn.
  clear Heqpn.
  destruct (n mod 2 =? 1); subst s;
    cbn -[zrange];
    change (@mpfr_val (RealArith erfc euler)) with (@mpfr_val RA);
    rewrite Hp, Hs; subst v summa; unfold Rdiv; lra.
Qed.

(** X14. In arithmetic without rounding, [incgamma_nhint(n, x)] for
    [n >= 0] returns a new object of the precision of [x] holding
    [s sqrt(pi) erfc(sqrt x) / Pochhammer(1/2, n)
     - exp(-x) sum_{j=0}^{n-1} x^(1/2 - n) x^j / Pochhammer(1/2 - n, j + 1)]
    with [s = -1] for odd [n] and [s = 1] for even [n]. *)
Theorem incgamma_nhint_exact (n : Z) (x : obj) (s : state RA) xv :
  heap s !! x = Some xv ->
  0 <= n ->
  let v : R := mpfr_val xv in
  let h : R := (/ 2 - IZR n)%R in
  let summa :=
    Rsum (zrange 0 (n - 1))
      (fun j => (Rpower v h * Rpowz v j / Rpochhammer h (j + 1))%R) in
  let sg : R := if n mod 2 =? 1 then (-1)%R else 1%R in
  exists r s' rv,
    incgamma_nhint n x s = (Ok r, s') /\
    heap s' !! r = Some rv /\
    mpfr_prec rv = mpfr_prec xv /\
    mpfr_val rv
    = (sg * (sqrt PI * erfc (sqrt v)) / Rpochhammer (/ 2) n
       - exp (- v) * summa)%R.
Proof.
  intros Hx Hn v h summa sg. unfold incgamma_nhint.
  rewrite (hint_run incgamma_nhint_c 1 n x s xv Hx).
  do 3 eexists. split; [reflexivity|]. cbn [heap].
  split; [apply heap_new_lookup|]. split.
  - rewrite incgamma_nhint_c_prec. reflexivity.
  - apply incgamma_nhint_c_value. exact Hn.
Qed.

(** X15. In arithmetic without rounding, where [2**n] does not overflow
    ([0 < n < 63]), [incgamma_phint(n, x)] returns a new object of the
    precision of [x] holding
    [prod_{j=1}^{n} (2j-1) * sqrt(pi) erfc(sqrt x) / 2^n
     + s exp(-x) sqrt(x) sum_{j=0}^{n-1} Pochhammer(1/2 - n, n-j-1) (-x)^j]
    with [s = -1] for even [n] and [s = 1] for odd [n]. *)
Theorem incgamma_phint_exact (n : Z) (x : obj) (s : state RA) xv :
  heap s !! x = Some xv ->
  0 < n < 63 ->
  let v : R := mpfr_val xv in
  let summa :=
    Rsum (zrange 0 (n - 1))
      (fun j => (Rpochhammer (/ 2 - IZR n) (n - j - 1) * Rpowz (- v) j)%R) in
  let sg : R := if n mod 2 =? 0 then (-1)%R else 1%R in
  exists r s' rv,
    incgamma_phint n x s = (Ok r, s') /\
    heap s' !! r = Some rv /\
    mpfr_prec rv = mpfr_prec xv /\
    mpfr_val rv
    = (Rprod (zrange 1 n) (fun j => IZR (2 * j - 1))
         * (sqrt PI * erfc (sqrt v) / IZR (2 ^ n))
       + sg * exp (- v) * sqrt v * summa)%R.
Proof.
  intros Hx Hn v summa sg. unfold incgamma_phint.
  rewrite (hint_run incgamma_phint_c 1 n x s xv Hx).
  do 3 eexists. split; [reflexivity|]. cbn [heap].
  split; [apply heap_new_lookup|]. split.
  - rewrite incgamma_phint_c_prec. reflexivity.
  - apply (incgamma_phint_c_closed_form erfc euler). exact Hn.
Qed.

(** X12. In arithmetic without rounding, a call [Ei_ml(x)] that returns
    has stopped at some round [k = 2, ..., 9999] whose term [x^k / (k k!)]
    is below [eps] in magnitude; its result holds
    [gamma + sum_{j=1}^{k} x^j / (j j!)] and [x] is as it was.
    [ei_taylor(x)] then returns as well: its result holds that value plus
    [ln |x|], and [x] holds [|x|] afterwards. A call that does not return
    raises [ArithmeticError], and so does [ei_taylor(x)]. *)
Theorem taylor_entry_points_exact (x : obj) (s : state RA) xv :
  heap s !! x = Some xv ->
  let v : R := mpfr_val xv in
  let series (k : Z) : R :=
    Rsum (zrange 1 k) (fun j => (Rpowz v j / (IZR j * Zfact j))%R) in
  match Ei_ml x s with
  | (Ok r, s') =>
      exists k rv,
        2 <= k < nmax /\
        (Rabs (Rpowz v k / (IZR k * Zfact k))
         < Rabs (mpfr_val (Ei_ml_eps xv)))%R /\
        heap s' !! r = Some rv /\
        mpfr_val rv = (series k + euler)%R /\
        heap s' !! x = Some xv /\
        exists r' s'' rv' xv',
          ei_taylor x s = (Ok r', s'') /\
          heap s'' !! r' = Some rv' /\
          mpfr_val rv' = (series k + euler + ln (Rabs v))%R /\
          heap s'' !! x = Some xv' /\
          mpfr_val xv' = Rabs v
  | (Raise e, s') =>
      (exists t sm, e = ArithmeticError t sm) /\
      exists s'', ei_taylor x s = (Raise e, s'')
  end.
Proof.
  intros Hx v series. pose proof (lookup_lt_Some _ _ _ Hx) as Hlt.
  rewrite (Ei_ml_run x s xv Hx), (ei_taylor_run x s xv Hx).
  pose proof (taylor_routines_value (RF_int (mpfr_prec xv) 0) xv) as H.
  cbv zeta in H.
  destruct (Ei_ml_c (RF_int (mpfr_prec xv) 0) xv) as [rv|e] eqn:E.
  - destruct H as (k & Hk & Hstop & Hval & _).
    exists k, rv. split; [exact Hk|]. split; [exact Hstop|]. cbn [heap].
    split; [apply heap_new_lookup|]. split; [exact Hval|].
    split; [now apply heap_old_lookup|].
    do 4 eexists. split; [reflexivity|]. cbn [heap].
    split; [|split; [|split]].
    + rewrite list_lookup_insert_ne by lia. apply heap_new_lookup.
    + cbn [mpfr_add mpfr_log mpfr_abs mpfr_init2 assign mpfr_val mpfr_prec
           fl_add fl_log fl_abs RA RealArith].
      as_R. f_equal. exact Hval.
    + apply list_lookup_insert_eq. rewrite length_app. cbn [length]. lia.
    + reflexivity.
  - split; [eapply Ei_ml_c_raise_kind; exact E|]. eexists. reflexivity.
Qed.

(** X13. In arithmetic without rounding, [ei_asymp(x)] returns a new object
    of the precision of [x] holding [exp(x)/x * sum_{j=0}^{k} j! / x^j],
    where [k = 1, ..., 9999] is the round at which the loop of
    [ei_asymp_c] ended; [x] is as it was. *)
Theorem ei_asymp_exact (x : obj) (s : state RA) xv :
  heap s !! x = Some xv ->
  let v : R := mpfr_val xv in
  exists k r s' rv,
    1 <= k < nmax /\
    ei_asymp x s = (Ok r, s') /\
    heap s' !! r = Some rv /\
    mpfr_prec rv = mpfr_prec xv /\
    mpfr_val rv
    = (Rsum (zrange 0 k) (fun j => (Zfact j * Rpowz (/ v) j)%R)
       * (exp v * / v))%R /\
    heap s' !! x = Some xv.
Proof.
  intros Hx v. rewrite (ei_asymp_run x s xv Hx).
  destruct (ei_asymp_c_value (RF_int (mpfr_prec xv) 0) xv)
    as (k & rv & Hk & Hrun & Hval).
  pose proof (ei_asymp_c_prec _ _ _ Hrun) as Hprec.
  rewrite Hrun. exists k. do 3 eexists. split; [exact Hk|].
  split; [reflexivity|]. cbn [heap]. split; [apply heap_new_lookup|].
  split; [exact Hprec|]. split; [exact Hval|]. now apply heap_old_lookup.
Qed.

(** X20. In arithmetic without rounding, a call [incgamma_nint_c(res, 0, x)]
    that returns has computed [-Ei(-x)] by one of the two series at the
    argument [-x]: for [|x| > rh] the asymptotic one,
    [-(exp(-x)/(-x)) sum_{j=0}^{k} j! / (-x)^j], otherwise the Taylor one,
    [-(gamma + ln|-x| + sum_{j=1}^{k} (-x)^j / (j j!))], where [k] is the
    round at which the loop ended. *)
Theorem incgamma_nint_c_exact res x :
  let v : R := mpfr_val x in
  match incgamma_nint_c res 0 x with
  | Ok r =>
      exists k,
        1 <= k < nmax /\
        mpfr_val r
        = if 0 <? mpfr_cmp_ui (nint_xabs_t x) (nint_rh x)
          then (- (Rsum (zrange 0 k) (fun j => (Zfact j * Rpowz (/ - v) j)%R)
                   * (exp (- v) * / - v)))%R
          else (- (Rsum (zrange 1 k)
                     (fun j => (Rpowz (- v) j / (IZR j * Zfact j))%R)
                   + euler + ln (Rabs (- v))))%R
  | Raise e => True
  end.
Proof.
  intros v. unfold incgamma_nint_c. cbn [Z.eqb negb].
  destruct (0 <? mpfr_cmp_ui (nint_xabs_t x) (nint_rh x)).
  - match goal with
    | |- context [ei_asymp_c ?r ?c] =>
        destruct (ei_asymp_c_value r c) as (k & rv & Hk & Hrun & Hval);
        rewrite Hrun
    end.
    cbn [rbind]. exists k. split; [exact Hk|].
    cbn [mpfr_neg assign mpfr_val fl_neg RA RealArith]. as_R.
    f_equal. exact Hval.
  - match goal with
    | |- context [ei_taylor_c ?r ?c] =>
        pose proof (taylor_routines_value r c) as H;
        destruct (Ei_ml_c r c) as [rv|e] eqn:E
    end.
    + cbv zeta in H. destruct H as (k & Hk & _ & _ & r' & x' & Hrun & Hval & _).
      rewrite Hrun. cbn [rbind rmap fst]. exists k. split; [lia|].
      cbn [mpfr_neg assign mpfr_val fl_neg RA RealArith]. as_R.
      f_equal. exact Hval.
    + rewrite H. cbn [rbind rmap]. exact I.
Qed.

End RealSeries.

(** ** The recurrence of the incomplete gamma function

    [Gamma(a + 1, x) = a Gamma(a, x) + x^a exp(-x)]: what the routines
    compute, in arithmetic without rounding, satisfies it from one parameter
    to the next. *)

Lemma Rsum_ext (js : list Z) (f g : Z -> R) :
  Forall (fun j => f j = g j) js -> Rsum js f = Rsum js g.
Proof.
  unfold Rsum. induction 1 as [|j js Hj _ IH]; simpl; [reflexivity|].
  now rewrite Hj, IH.
Qed.

Lemma Rsum_scale (js : list Z) (c : R) (f : Z -> R) :
  Rsum js (fun j => (c * f j)%R) = (c * Rsum js f)%R.
Proof.
  unfold Rsum. induction js as [|j js IH]; simpl; [lra|]. rewrite IH. lra.
Qed.

Lemma Rpochhammer_0 (a : R) : Rpochhammer a 0 = 1%R.
Proof. unfold Rpochhammer. now rewrite zrange_empty by lia. Qed.

Lemma Rpochhammer_succ (a : R) (k : Z) :
  0 <= k -> Rpochhammer a (k + 1) = (Rpochhammer a k * (a + IZR k))%R.
Proof.
  intros Hk. unfold Rpochhammer. rewrite (zrange_snoc 0 (k + 1 - 1)) by lia.
  rewrite Rprod_snoc. replace (k + 1 - 1 - 1) with (k - 1) by lia.
  now replace (k + 1 - 1) with k by lia.
Qed.

Lemma Rpochhammer_front (a : R) (k : Z) :
  0 <= k -> Rpochhammer (a - 1) (k + 1) = ((a - 1) * Rpochhammer a k)%R.
Proof.
  intros Hk. rewrite <- (Z2Nat.id k Hk). clear Hk.
  induction (Z.to_nat k) as [|m IH].
  - change (Z.of_nat 0) with 0. rewrite Rpochhammer_succ, !Rpochhammer_0 by lia.
    lra.
  - replace (Z.of_nat (S m)) with (Z.of_nat m + 1) by lia.
    rewrite (Rpochhammer_succ (a - 1) (Z.of_nat m + 1)) by lia.
    rewrite IH, (Rpochhammer_succ a (Z.of_nat m)) by lia.
    rewrite plus_IZR. lra.
Qed.

(** [s (-v)^n = - v^n] for [s = -1] at even [n] and [s = 1] at odd [n]. *)
Lemma alternating_sign (v : R) (n : Z) :
  0 <= n ->
  ((if n mod 2 =? 0 then -1 else 1) * Rpowz (- v) n = - Rpowz v n)%R.
Proof.
  intros Hn. rewrite <- (Z2Nat.id n Hn). clear Hn.
  induction (Z.to_nat n) as [|m IH].
  - unfold Rpowz. simpl. lra.
  - replace (Z.of_nat (S m)) with (Z.of_nat m + 1) by lia.
    rewrite !Rpowz_succ by lia.
    destruct (Z.of_nat m mod 2 =? 0) eqn:E.
    + apply Z.eqb_eq in E.
      replace ((Z.of_nat m + 1) mod 2 =? 0) with false
        by (symmetry; apply Z.eqb_neq; Z.div_mod_to_equations; lia).
      replace (Rpowz (- v) (Z.of_nat m)) with (Rpowz v (Z.of_nat m)) by lra.
      lra.
    + apply Z.eqb_neq in E.
      replace ((Z.of_nat m + 1) mod 2 =? 0) with true
        by (symmetry; apply Z.eqb_eq; Z.div_mod_to_equations; lia).
      replace (Rpowz (- v) (Z.of_nat m)) with (- Rpowz v (Z.of_nat m))%R by lra.
      lra.
Qed.

Lemma Rsum_fmap (g : Z -> Z) (js : list Z) (f : Z -> R) :
  Rsum (g <$> js) f = Rsum js (fun j => f (g j)).
Proof.
  unfold Rsum. induction js as [|j js IH]; simpl; [reflexivity|].
  now rewrite <- IH.
Qed.

Lemma Rsum_from_0 (n : Z) (f : Z -> R) :
  0 <= n ->
  Rsum (zrange 0 n) f
  = (f 0%Z + Rsum (zrange 0 (n - 1)) (fun j => f (j + 1)%Z))%R.
Proof.
  intros Hn. unfold zrange. rewrite (seqZ_cons 0 (n - 0 + 1)) by lia.
  replace (Z.succ 0) with (1 + 0) by lia. rewrite <- (fmap_add_seqZ 1 0).
  transitivity (f 0%Z + Rsum (Z.add 1 <$> seqZ 0 (Z.pred (n - 0 + 1))) f)%R;
    [reflexivity|].
  f_equal. rewrite Rsum_fmap.
  replace (Z.pred (n - 0 + 1)) with (n - 1 - 0 + 1) by lia.
  apply Rsum_ext. apply Forall_forall. intros j _. f_equal. lia.
Qed.

Section RealRecurrences.

Variable erfc : R -> R.
Variable euler : R.

Let RA : Arith := RealArith erfc euler.
#[local] Existing Instance RA.

Implicit Types res x a : mpfr_t RA.

(** X16. In arithmetic without rounding, [incgamma_pint_c(res, 1, x)] is
    [exp(-x)] and, for [n >= 1], the value for [n + 1] is [n] times the
    value for [n] plus [x^n exp(-x)]: the routine computes
    [Gamma(n, x)]. *)
Theorem incgamma_pint_c_recurrence res res' (n : Z) x :
  1 <= n ->
  let v : R := mpfr_val x in
  mpfr_val (incgamma_pint_c res 1 x) = exp (- v) /\
  mpfr_val (incgamma_pint_c res (n + 1) x)
  = (IZR n * mpfr_val (incgamma_pint_c res' n x) + Rpowz v n * exp (- v))%R.
Proof.
  intros Hn v.
  assert (forall r m, 1 <= m ->
            @eq R (mpfr_val (incgamma_pint_c r m x))
              (exp (- v) * Zfact (m - 1)
               * (1 + Rsum (zrange 1 (m - 1))
                        (fun j => Rpowz v j / Zfact j)))%R) as Hcf.
  { intros r m Hm. exact (incgamma_pint_c_closed_form erfc euler r m x Hm). }
  split.
  - as_R. rewrite (Hcf res 1) by lia. change (1 - 1) with 0.
    rewrite zrange_empty by lia. unfold Zfact, Rsum. simpl. lra.
  - as_R. rewrite (Hcf res (n + 1)), (Hcf res' n) by lia.
    replace (n + 1 - 1) with n by lia.
    rewrite (zrange_snoc 1 n) by lia. rewrite Rsum_snoc.
    assert (Zfact n = IZR n * Zfact (n - 1))%R as Hf.
    { replace n with (n - 1 + 1) at 1 2 by lia. apply Zfact_succ. lia. }
    pose proof (Zfact_pos n) as Hpos.
    set (S0 := Rsum (zrange 1 (n - 1)) _).
    transitivity (exp (- v) * Zfact n * (1 + S0)
                  + exp (- v) * (Zfact n * (Rpowz v n / Zfact n)))%R; [lra|].
    replace (Zfact n * (Rpowz v n / Zfact n))%R with (Rpowz v n)
      by (field; lra).
    rewrite Hf. lra.
Qed.

Lemma incgamma_phint_c_0 res x :
  mpfr_val (incgamma_phint_c res 0 x)
  = (sqrt PI * erfc (sqrt (mpfr_val x)))%R.
Proof.
  unfold incgamma_phint_c. cbn [Z.ltb Z.compare]. unfold mpfr_get_prec.
  rewrite !for_from_empty by lia.
  change (0 mod 2 =? 0) with true. change (pow_long 2 0) with 1.
  cbn -[of_int]. rewrite !(of_int_IZR erfc euler). as_R. lra.
Qed.

(** X17. In arithmetic without rounding, [incgamma_phint_c(res, 0, x)] is
    [sqrt(pi) erfc(sqrt x)] and, for [0 <= n < 62], the value for [n + 1]
    is [n + 1/2] times the value for [n] plus [x^n sqrt(x) exp(-x)]: where
    [2**n] does not overflow, the routine computes [Gamma(n + 1/2, x)]. *)
Theorem incgamma_phint_c_recurrence res res' (n : Z) x :
  0 <= n < 62 ->
  let v : R := mpfr_val x in
  mpfr_val (incgamma_phint_c res 0 x) = (sqrt PI * erfc (sqrt v))%R /\
  mpfr_val (incgamma_phint_c res (n + 1) x)
  = ((IZR n + / 2) * mpfr_val (incgamma_phint_c res' n x)
     + Rpowz v n * sqrt v * exp (- v))%R.
Proof.
  intros Hn v. split; [apply incgamma_phint_c_0|].
  pose (P := fun m : Z => Rprod (zrange 1 m) (fun j => IZR (2 * j - 1))).
  pose (S0 := fun m : Z =>
    Rsum (zrange 0 (m - 1))
      (fun j => (Rpochhammer (/ 2 - IZR m) (m - j - 1) * Rpowz (- v) j)%R)).
  pose (sg := fun m : Z => if m mod 2 =? 0 then (-1)%R else 1%R).
  pose (E := (sqrt PI * erfc (sqrt v))%R).
  assert (forall r m, 0 <= m < 63 ->
            @eq R (mpfr_val (incgamma_phint_c r m x))
              (P m * (E / IZR (2 ^ m)) + sg m * exp (- v) * sqrt v * S0 m)%R)
    as Hcf.
  { intros r m Hm. destruct (Z.eq_dec m 0) as [->|Hm0].
    - rewrite incgamma_phint_c_0. unfold P, S0, sg, E.
      rewrite !zrange_empty by lia. unfold Rprod, Rsum. simpl. fold v. lra.
    - exact (incgamma_phint_c_closed_form erfc euler r m x ltac:(lia)). }
  as_R. rewrite (Hcf res (n + 1)), (Hcf res' n) by lia.
  assert (P (n + 1)%Z = P n * IZR (2 * n + 1))%R as HP.
  { unfold P. rewrite (zrange_snoc 1 (n + 1)) by lia. rewrite Rprod_snoc.
    replace (n + 1 - 1) with n by lia.
    now replace (2 * (n + 1) - 1) with (2 * n + 1) by lia. }
  assert (IZR (2 ^ (n + 1)) = 2 * IZR (2 ^ n))%R as H2.
  { rewrite Z.pow_add_r by lia. rewrite mult_IZR. simpl. lra. }
  assert (0 < IZR (2 ^ n))%R as H2pos.
  { apply IZR_lt. apply Z.pow_pos_nonneg; lia. }
  assert (S0 (n + 1)%Z = (- / 2 - IZR n) * S0 n + Rpowz (- v) n)%R as HS.
  { unfold S0. replace (n + 1 - 1) with n by lia.
    rewrite (zrange_snoc 0 n) by lia. rewrite Rsum_snoc.
    replace (n + 1 - n - 1) with 0 by lia. rewrite Rpochhammer_0.
    rewrite <- Rsum_scale. rewrite Rmult_1_l. f_equal.
    apply Rsum_ext. apply Forall_forall. intros j Hj.
    apply elem_of_zrange in Hj.
    replace (n + 1 - j - 1) with ((n - j - 1) + 1) by lia.
    replace (/ 2 - IZR (n + 1))%R with ((/ 2 - IZR n) - 1)%R
      by (rewrite plus_IZR; lra).
    rewrite Rpochhammer_front by lia. lra. }
  assert (sg (n + 1)%Z = - sg n)%R as Hsg.
  { unfold sg. destruct (n mod 2 =? 0) eqn:E0.
    - apply Z.eqb_eq in E0.
      replace ((n + 1) mod 2 =? 0) with false
        by (symmetry; apply Z.eqb_neq; Z.div_mod_to_equations; lia).
      lra.
    - apply Z.eqb_neq in E0.
      replace ((n + 1) mod 2 =? 0) with true
        by (symmetry; apply Z.eqb_eq; Z.div_mod_to_equations; lia).
      lra. }
  pose proof (alternating_sign v n ltac:(lia)) as Halt. fold (sg n) in Halt.
  rewrite HP, H2, HS, Hsg, plus_IZR, mult_IZR.
  transitivity
    ((IZR n + / 2) * (P n * (E / IZR (2 ^ n)) + sg n * exp (- v) * sqrt v * S0 n)
     - exp (- v) * sqrt v * (sg n * Rpowz (- v) n))%R.
  - field. lra.
  - rewrite Halt. lra.
Qed.

(** X18. In arithmetic without rounding and for [x > 0],
    [incgamma_nhint_c(res, 0, x)] is [sqrt(pi) erfc(sqrt x)] and, for
    [n >= 0], the value for [n] is [-1/2 - n] times the value for [n + 1]
    plus [x^(-1/2 - n) exp(-x)]: the routine computes
    [Gamma(1/2 - n, x)]. *)
Theorem incgamma_nhint_c_recurrence res res' (n : Z) x :
  0 <= n ->
  (0 < mpfr_val x)%R ->
  let v : R := mpfr_val x in
  let a : R := (- / 2 - IZR n)%R in
  mpfr_val (incgamma_nhint_c res 0 x) = (sqrt PI * erfc (sqrt v))%R /\
  mpfr_val (incgamma_nhint_c res' n x)
  = (a * mpfr_val (incgamma_nhint_c res (n + 1) x) + Rpower v a * exp (- v))%R.
Proof.
  intros Hn Hv v a.
  pose (E := (sqrt PI * erfc (sqrt v))%R).
  pose (sg := fun m : Z => if m mod 2 =? 1 then (-1)%R else 1%R).
  pose (S0 := fun m : Z =>
    Rsum (zrange 0 (m - 1))
      (fun j => (Rpower v (/ 2 - IZR m) * Rpowz v j
                 / Rpochhammer (/ 2 - IZR m) (j + 1))%R)).
  assert (forall r m, 0 <= m ->
            @eq R (mpfr_val (incgamma_nhint_c r m x))
              (sg m * E / Rpochhammer (/ 2) m - exp (- v) * S0 m)%R) as Hcf.
  { intros r m Hm. exact (incgamma_nhint_c_value erfc euler r m x Hm). }
  split.
  - as_R. rewrite (Hcf res 0) by lia. unfold sg, S0, E.
    rewrite Rpochhammer_0, zrange_empty by lia.
    change (0 mod 2 =? 1) with false. unfold Rsum. simpl. lra.
  - as_R. rewrite (Hcf res (n + 1)), (Hcf res' n) by lia.
    assert (/ 2 - IZR (n + 1) = a)%R as Ha by (rewrite plus_IZR; subst a; lra).
    assert (/ 2 - IZR n = a + 1)%R as Ha1 by (subst a; lra).
    assert (a <> 0)%R as Hane.
    { pose proof (IZR_le 0 n Hn) as H0. subst a. lra. }
    assert (sg (n + 1)%Z = - sg n)%R as Hsg.
    { unfold sg. destruct (n mod 2 =? 1) eqn:E0.
      - apply Z.eqb_eq in E0.
        replace ((n + 1) mod 2 =? 1) with false
          by (symmetry; apply Z.eqb_neq; Z.div_mod_to_equations; lia).
        lra.
      - apply Z.eqb_neq in E0.
        replace ((n + 1) mod 2 =? 1) with true
          by (symmetry; apply Z.eqb_eq; Z.div_mod_to_equations; lia).
        lra. }
    assert (Rpochhammer (/ 2) (n + 1) = Rpochhammer (/ 2) n * - a)%R as HP.
    { rewrite Rpochhammer_succ by lia. subst a. f_equal. lra. }
    assert (Rpower v (a + 1) = Rpower v a * v)%R as HT.
    { rewrite Rpower_plus, Rpower_1 by exact Hv. reflexivity. }
    assert (a * S0 (n + 1)%Z = Rpower v a + S0 n)%R as HS.
    { unfold S0. replace (n + 1 - 1) with n by lia. rewrite Ha, Ha1.
      rewrite <- Rsum_scale. rewrite (Rsum_from_0 n) by lia.
      change (0 + 1) with 1.
      replace (Rpochhammer a 1) with a.
      2:{ change 1 with (0 + 1). rewrite Rpochhammer_succ, Rpochhammer_0 by lia.
          simpl. lra. }
      f_equal.
      - unfold Rpowz. simpl. field. exact Hane.
      - apply Rsum_ext. apply Forall_forall. intros j Hj.
        apply elem_of_zrange in Hj.
        replace a with ((a + 1) - 1)%R at 3 by lra.
        replace (j + 1 + 1) with ((j + 1) + 1) by lia.
        rewrite Rpochhammer_front by lia.
        replace (a + 1 - 1)%R with a by lra.
        rewrite HT, Rpowz_succ by lia.
        unfold Rdiv. rewrite Rinv_mult.
        generalize (/ Rpochhammer (a + 1) (j + 1))%R. intros iP.
        field. exact Hane. }
    rewrite Hsg, HP. unfold Rdiv. rewrite Rinv_mult.
    replace (/ - a)%R with (- / a)%R by (field; exact Hane).
    transitivity (sg n * E * / Rpochhammer (/ 2) n * (a * / a)
                  - exp (- v) * (a * S0 (n + 1)%Z) + Rpower v a * exp (- v))%R.
    + rewrite HS, Rinv_r by exact Hane. lra.
    + lra.
Qed.

End RealRecurrences.

(** ** [ei] in arithmetic without rounding *)

Section RealEi.

Variable erfc : R -> R.
Variable euler : R.

Let RA : Arith := RealArith erfc euler.
#[local] Existing Instance RA.

Implicit Types xv : mpfr_t RA.

Lemma ei_xabs_real xv (s : state RA) :
  let t := Z.abs (R_trunc (mpfr_val xv)) in
  ei_xabs xv s
  = (if (- INT_MAX - 1 <=? t) && (t <=? INT_MAX) then Ok t
     else Raise OverflowError, s).
Proof.
  intros t. unfold ei_xabs, integer_part, to_c_int.
  cbn [num_trunc RA RealArith]. run_M. fold t.
  destruct (_ && _); reflexivity.
Qed.

Lemma ei_rh_real xv (s : state RA) :
  let t := R_trunc (R_of_dyadic (double_mul_int (ei_wp xv) d0693)) + 10 in
  ei_rh xv s
  = (if (- INT_MAX - 1 <=? t) && (t <=? INT_MAX) then Ok t
     else Raise OverflowError, s).
Proof.
  intros t. unfold ei_rh, integer_part, to_c_int.
  cbn [num_trunc RA RealArith RF_double mpfr_set_d mpfr_init2 assign mpfr_val
       mpfr_prec fl_set exact]. run_M. fold t.
  destruct (_ && _); reflexivity.
Qed.

(** X21. In arithmetic without rounding, a call of [ei] that returns has
    computed, at the precision of [x], one of the two series for [Ei(x)]:
    the asymptotic one, [exp(x)/x * sum_{j=0}^{k} j! / x^j], when the
    integer part of [|x|] exceeds [rh = int(0.693 wp) + 10], and the Taylor
    one, [gamma + ln|x| + sum_{j=1}^{k} x^j / (j j!)], otherwise; [k] is
    the round at which the loop ended. *)
Theorem ei_exact (x : obj) (verbose : Z) (s : state RA) xv :
  heap s !! x = Some xv ->
  let v : R := mpfr_val xv in
  let xabs := Z.abs (R_trunc v) in
  let rh := R_trunc (R_of_dyadic (double_mul_int (ei_wp xv) d0693)) + 10 in
  match ei x verbose s with
  | (Ok r, s') =>
      exists rv k,
        heap s' !! r = Some rv /\
        mpfr_prec rv = mpfr_prec xv /\
        1 <= k < nmax /\
        mpfr_val rv
        = if rh <? xabs
          then (Rsum (zrange 0 k) (fun j => (Zfact j * Rpowz (/ v) j)%R)
                * (exp v * / v))%R
          else (Rsum (zrange 1 k)
                  (fun j => (Rpowz v j / (IZR j * Zfact j))%R)
                + euler + ln (Rabs v))%R
  | (Raise e, s') => True
  end.
Proof.
  intros Hx v xabs rh. unfold ei. run_M. rewrite (get_value_in _ _ _ Hx).
  rewrite ei_xabs_real. cbv zeta. fold v. fold xabs.
  destruct (_ && _); [|exact I].
  rewrite ei_rh_real. cbv zeta. fold rh.
  destruct (_ && _); [|exact I].
  destruct (rh <? xabs).
  - destruct (ei_asymp_branch_value xv (ei_wp xv) verbose s)
      as (r & s' & v0 & -> & Hc & Hr).
    destruct (ei_asymp_c_value erfc euler (RF_int (ei_wp xv) 0)
                (RF_real (ei_wp xv) xv)) as (k & rv & Hk & Hrun & Hval).
    assert (Ok (E := exn (mpfr_t RA)) v0 = Ok rv) as Heq
      by (rewrite <- Hc; exact Hrun).
    injection Heq as ->.
    exists (RF_real (mpfr_prec xv) rv), k.
    split; [exact Hr|]. split; [reflexivity|]. split; [exact Hk|].
    exact Hval.
  - pose proof (ei_taylor_branch_value xv (ei_wp xv) xabs verbose s) as H.
    cbv zeta in H.
    pose proof (taylor_routines_value erfc euler
                  (RF_int (c_int (ei_wp xv + 2 * xabs)) 0)
                  (RF_real (c_int (ei_wp xv + 2 * xabs)) xv)) as Hv.
    cbv zeta in Hv.
    destruct (Ei_ml_c _ _) as [v0|e].
    + destruct H as (r & s' & -> & Hr).
      destruct Hv as (k & Hk & _ & Hval & _).
      eexists _, k. split; [exact Hr|]. split; [reflexivity|].
      split; [lia|].
      cbn [RF_real mpfr_set mpfr_init2 mpfr_add mpfr_log mpfr_abs assign
           mpfr_val mpfr_prec fl_set fl_add fl_log fl_abs RA RealArith].
      as_R. f_equal. exact Hval.
    + destruct H as [s' ->]. exact I.
Qed.

End RealEi.

(** ** Binary floating point: the Taylor routines at high precision *)

Section FloatEntryPoints.

Existing Instance FloatArith.

(** X19. In binary floating point, [Ei_ml(x)] and [ei_taylor(x)] raise
    [ArithmeticError] for every [x] of 1055 bits or more ([eps] has
    underflowed to 0 and no term is below it), and [x] is then as it was:
    [ei_taylor] has not reached the statement that overwrites it. *)
Theorem taylor_entry_points_raise_from_1055_bits (x : obj) s xv :
  heap s !! x = Some xv ->
  1055 <= mpfr_prec xv ->
  (exists t sm s',
     Ei_ml x s = (Raise (ArithmeticError t sm), s') /\
     heap s' !! x = Some xv) /\
  (exists t sm s',
     ei_taylor x s = (Raise (ArithmeticError t sm), s') /\
     heap s' !! x = Some xv).
Proof.
  intros Hx Hp. rewrite (Ei_ml_run x s xv Hx), (ei_taylor_run x s xv Hx).
  destruct (Ei_ml_c_raises_from_1055_bits (RF_int (mpfr_prec xv) 0) xv Hp)
    as (t & sm & E).
  rewrite E. split; exists t, sm; eexists; (split; [reflexivity|]);
    cbn [heap]; now apply heap_old_lookup.
Qed.

(** *** Instances of the theorems above *)

Lemma taylor_entry_points_raise_from_1055_bits_witness :
  let xv := RealNumber_of 1055 1 0 in
  let s : state FloatArith := State [xv] [] in
  heap s !! 0%nat = Some xv /\
  1055 <= mpfr_prec xv /\
  exists t sm s',
    Ei_ml 0%nat s = (Raise (ArithmeticError t sm), s') /\
    heap s' !! 0%nat = Some xv.
Proof.
  intros xv s. split; [reflexivity|].
  assert (1055 <= mpfr_prec xv) as Hp by (cbn; lia).
  split; [exact Hp|].
  pose proof (taylor_entry_points_raise_from_1055_bits 0%nat s xv eq_refl Hp)
    as H.
  destruct H as [H _]. exact H.
Defined.

Lemma ei_asymp_returns_witness :
  let xv := RealNumber_of 53 5 2 in
  let s : state FloatArith := State [xv] [] in
  heap s !! 0%nat = Some xv /\
  exists v,
    ei_asymp_c (RF_int (mpfr_prec xv) 0) xv = Ok v /\
    mpfr_prec v = mpfr_prec xv /\
    ei_asymp 0%nat s = (Ok (length (heap s)), State (heap s ++ [v]) (stdout s)).
Proof.
  intros xv s. split; [reflexivity|].
  pose proof (ei_asymp_returns 0%nat s xv eq_refl) as H. exact H.
Defined.

Lemma incgamma_hint_dispatch_witness :
  let xv := RealNumber_of 53 1 0 in
  let s : state FloatArith := State [xv] [] in
  heap s !! 0%nat = Some xv /\
  - INT_MAX <= 2 <= INT_MAX /\
  incgamma_phint 2 0%nat s = incgamma_hint 2 0%nat s.
Proof.
  intros xv s. split; [reflexivity|].
  assert (- INT_MAX <= 2 <= INT_MAX) as Hr
    by (change INT_MAX with 2147483647; lia).
  split; [exact Hr|].
  assert (0 < 2) as Hpos by lia.
  pose proof (incgamma_hint_dispatch 2 0%nat s xv eq_refl Hr) as H.
  destruct H as (v & _ & _ & H & _). exact (H Hpos).
Defined.

Lemma half_integer_routines_ignore_negative_n_witness :
  let xv := RealNumber_of 53 1 0 in
  let s : state FloatArith := State [xv] [] in
  heap s !! 0%nat = Some xv /\
  -1 < 0 /\
  incgamma_phint (-1) 0%nat s = (Ok 1%nat, State [xv; RF_int 53 1] []).
Proof.
  intros xv s. split; [reflexivity|].
  assert (-1 < 0) as Hn by lia. split; [exact Hn|].
  pose proof (half_integer_routines_ignore_negative_n (-1) 0%nat s xv
                eq_refl Hn) as H.
  cbv zeta in H. destruct H as [H _]. exact H.
Defined.

Lemma mppochammer_recurrence_witness :
  let a := RealNumber_of 53 3 0 in
  let res : mpfr_t FloatArith := RF_int 53 0 in
  1 <= 1 /\
  _mppochammer_mpfr res a (1 + 1)
  = mpfr_mul (_mppochammer_mpfr res a 1) (_mppochammer_mpfr res a 1)
      (mpfr_add_ui (mpfr_init2 (mpfr_prec a)) a 1).
Proof.
  intros a res. assert (1 <= 1) as Hk by lia. split; [exact Hk|].
  pose proof (mppochammer_recurrence res a 1 Hk) as H. cbv zeta in H.
  exact H.
Defined.

Lemma ei_outcome_witness :
  let xv := RealNumber_of 53 1 0 in
  let s : state FloatArith := State [xv] [] in
  heap s !! 0%nat = Some xv /\
  match ei 0%nat 0 s with
  | (Ok r, s') =>
      heap s `prefix_of` heap s' /\
      (length (heap s) <= r)%nat /\
      exists v, heap s' !! r = Some v /\ mpfr_prec v = mpfr_prec xv
  | (Raise e, s') =>
      heap s `prefix_of` heap s' /\
      (e = ValueError \/ e = OverflowError \/
       exists t sm, e = ArithmeticError t sm)
  end.
Proof.
  intros xv s. split; [reflexivity|].
  pose proof (ei_outcome 0%nat 0 s xv eq_refl) as H. exact H.
Defined.

Lemma ei_rejects_what_is_no_c_int_witness :
  let xv := RealNumber_of 53 1 40 in
  let s : state FloatArith := State [xv] [] in
  heap s !! 0%nat = Some xv /\
  num_trunc (mpfr_val xv) = Some (2 ^ 40) /\
  INT_MAX < Z.abs (2 ^ 40) /\
  ei 0%nat 0 s = (Raise OverflowError, s).
Proof.
  intros xv s. split; [reflexivity|].
  assert (num_trunc (mpfr_val xv) = Some (2 ^ 40)) as E
    by (vm_compute; reflexivity).
  assert (INT_MAX < Z.abs (2 ^ 40)) as Hbig by (vm_compute; reflexivity).
  split; [exact E|]. split; [exact Hbig|].
  pose proof (ei_rejects_what_is_no_c_int 0%nat 0 s xv eq_refl) as H.
  rewrite E in H. exact (H Hbig).
Defined.


End FloatEntryPoints.

Lemma Ei_ml_series_closed_form_witness :
  let x := @Mpfr (RealArith (fun t => t) 0) 53 1%R in
  Z.of_nat 0 < nmax - 1 /\
  exists t sm,
    Ei_ml_terms x !! 0%nat = Some t /\
    Ei_ml_sums x !! 0%nat = Some sm /\
    @eq R (mpfr_val t) (Rpowz 1 2 / (IZR 2 * Zfact 2))%R /\
    @eq R (mpfr_val sm)
      (Rsum (zrange 1 2) (fun j => (Rpowz 1 j / (IZR j * Zfact j))%R)).
Proof.
  intros x. assert (Z.of_nat 0 < nmax - 1) as Hi by (unfold nmax; lia).
  split; [exact Hi|].
  pose proof (Ei_ml_series_closed_form (fun t => t) 0%R x 0%nat Hi) as H.
  exact H.
Defined.

Lemma incgamma_nhint_exact_witness :
  let xv := @Mpfr (RealArith (fun t => t) 0) 53 1%R in
  let s : state (RealArith (fun t => t) 0) := State [xv] [] in
  heap s !! 0%nat = Some xv /\
  0 <= 1 /\
  exists r s' rv,
    incgamma_nhint 1 0%nat s = (Ok r, s') /\
    heap s' !! r = Some rv /\
    mpfr_prec rv = mpfr_prec xv /\
    @eq R (mpfr_val rv)
      (-1 * (sqrt PI * sqrt 1) / Rpochhammer (/ 2) 1
       - exp (- 1)
         * Rsum (zrange 0 (1 - 1))
             (fun j => (Rpower 1 (/ 2 - IZR 1) * Rpowz 1 j
                        / Rpochhammer (/ 2 - IZR 1) (j + 1))%R))%R.
Proof.
  intros xv s. split; [reflexivity|].
  assert (0 <= 1) as Hn by lia. split; [exact Hn|].
  pose proof (incgamma_nhint_exact (fun t => t) 0%R 1 0%nat s xv eq_refl Hn)
    as H.
  exact H.
Defined.

Lemma incgamma_phint_exact_witness :
  let xv := @Mpfr (RealArith (fun t => t) 0) 53 1%R in
  let s : state (RealArith (fun t => t) 0) := State [xv] [] in
  heap s !! 0%nat = Some xv /\
  0 < 1 < 63 /\
  exists r s' rv,
    incgamma_phint 1 0%nat s = (Ok r, s') /\
    heap s' !! r = Some rv /\
    mpfr_prec rv = mpfr_prec xv /\
    @eq R (mpfr_val rv)
      (Rprod (zrange 1 1) (fun j => IZR (2 * j - 1))
         * (sqrt PI * sqrt 1 / IZR (2 ^ 1))
       + 1 * exp (- 1) * sqrt 1
         * Rsum (zrange 0 (1 - 1))
             (fun j => (Rpochhammer (/ 2 - IZR 1) (1 - j - 1)
                        * Rpowz (- 1) j)%R))%R.
Proof.
  intros xv s. split; [reflexivity|].
  assert (0 < 1 < 63) as Hn by lia. split; [exact Hn|].
  pose proof (incgamma_phint_exact (fun t => t) 0%R 1 0%nat s xv eq_refl Hn)
    as H.
  exact H.
Defined.

Lemma ei_asymp_exact_witness :
  let xv := @Mpfr (RealArith (fun t => t) 0) 53 20%R in
  let s : state (RealArith (fun t => t) 0) := State [xv] [] in
  heap s !! 0%nat = Some xv /\
  exists k r s' rv,
    1 <= k < nmax /\
    ei_asymp 0%nat s = (Ok r, s') /\
    heap s' !! r = Some rv /\
    mpfr_prec rv = mpfr_prec xv /\
    @eq R (mpfr_val rv)
      (Rsum (zrange 0 k) (fun j => (Zfact j * Rpowz (/ 20) j)%R)
       * (exp 20 * / 20))%R /\
    heap s' !! 0%nat = Some xv.
Proof.
  intros xv s. split; [reflexivity|].
  pose proof (ei_asymp_exact (fun t => t) 0%R 0%nat s xv eq_refl) as H.
  exact H.
Defined.

Lemma taylor_entry_points_exact_witness :
  let xv := @Mpfr (RealArith (fun t => t) 0) 53 1%R in
  let s : state (RealArith (fun t => t) 0) := State [xv] [] in
  heap s !! 0%nat = Some xv /\
  match Ei_ml 0%nat s with
  | (Ok r, s') =>
      exists k rv,
        2 <= k < nmax /\
        heap s' !! r = Some rv /\
        @eq R (mpfr_val rv)
          (Rsum (zrange 1 k) (fun j => (Rpowz 1 j / (IZR j * Zfact j))%R)
           + 0)%R
  | (Raise e, s') => exists t sm, e = ArithmeticError t sm
  end.
Proof.
  intros xv s. split; [reflexivity|].
  pose proof (taylor_entry_points_exact (fun t => t) 0%R 0%nat s xv eq_refl)
    as H.
  cbv zeta in H. destruct (Ei_ml 0%nat s) as [[r|e] s'].
  - destruct H as (k & rv & Hk & _ & Hr & Hval & _).
    exists k, rv. split; [exact Hk|]. split; [exact Hr|exact Hval].
  - destruct H as [H _]. exact H.
Defined.

Lemma incgamma_pint_c_recurrence_witness :
  let x := @Mpfr (RealArith (fun t => t) 0) 53 2%R in
  1 <= 1 /\
  @eq R (mpfr_val (incgamma_pint_c x (1 + 1) x))
    (IZR 1 * mpfr_val (incgamma_pint_c x 1 x) + Rpowz 2 1 * exp (- 2))%R.
Proof.
  intros x. assert (1 <= 1) as Hn by lia. split; [exact Hn|].
  pose proof (incgamma_pint_c_recurrence (fun t => t) 0%R x x 1 x Hn) as H.
  cbv zeta in H. destruct H as [_ H]. exact H.
Defined.

Lemma incgamma_phint_c_recurrence_witness :
  let x := @Mpfr (RealArith (fun t => t) 0) 53 2%R in
  0 <= 0 < 62 /\
  @eq R (mpfr_val (incgamma_phint_c x (0 + 1) x))
    ((IZR 0 + / 2) * mpfr_val (incgamma_phint_c x 0 x)
     + Rpowz 2 0 * sqrt 2 * exp (- 2))%R.
Proof.
  intros x. assert (0 <= 0 < 62) as Hn by lia. split; [exact Hn|].
  pose proof (incgamma_phint_c_recurrence (fun t => t) 0%R x x 0 x Hn) as H.
  cbv zeta in H. destruct H as [_ H]. exact H.
Defined.

Lemma incgamma_nhint_c_recurrence_witness :
  let x := @Mpfr (RealArith (fun t => t) 0) 53 2%R in
  0 <= 0 /\
  (0 < 2)%R /\
  @eq R (mpfr_val (incgamma_nhint_c x 0 x))
    ((- / 2 - IZR 0) * mpfr_val (incgamma_nhint_c x (0 + 1) x)
     + Rpower 2 (- / 2 - IZR 0) * exp (- 2))%R.
Proof.
  intros x. assert (0 <= 0) as Hn by lia. assert (0 < 2)%R as Hv by lra.
  split; [exact Hn|]. split; [exact Hv|].
  pose proof (incgamma_nhint_c_recurrence (fun t => t) 0%R x x 0 x Hn Hv) as H.
  cbv zeta in H. destruct H as [_ H]. exact H.
Defined.

Lemma ei_exact_witness :
  let xv := @Mpfr (RealArith (fun t => t) 0) 53 1%R in
  let s : state (RealArith (fun t => t) 0) := State [xv] [] in
  heap s !! 0%nat = Some xv /\
  match ei 0%nat 0 s with
  | (Ok r, s') =>
      exists rv k,
        heap s' !! r = Some rv /\
        mpfr_prec rv = mpfr_prec xv /\
        1 <= k < nmax /\
        @eq R (mpfr_val rv)
          (if R_trunc (R_of_dyadic (double_mul_int (ei_wp xv) d0693)) + 10
              <? Z.abs (R_trunc 1)
           then (Rsum (zrange 0 k) (fun j => (Zfact j * Rpowz (/ 1) j)%R)
                 * (exp 1 * / 1))%R
           else (Rsum (zrange 1 k)
                   (fun j => (Rpowz 1 j / (IZR j * Zfact j))%R)
                 + 0 + ln (Rabs 1))%R)
  | (Raise e, s') => True
  end.
Proof.
  intros xv s. split; [reflexivity|].
  pose proof (ei_exact (fun t => t) 0%R 0%nat 0 s xv eq_refl) as H.
  exact H.
Defined.
